(** * Verification of the data-flow search engine (enhanced_search.py)

    A shallow embedding of [EnhancedSearch] and the properties of its
    [search] operation.

    Modelling conventions.
    - A Python [str] is a [string] whose characters are the code points
      U+0000..U+00FF (the ISO 8859-1 block, which holds the German
      catalog text); [len] is [String.length].  Case mapping and the
      character classes of [re] follow CPython on that block.
    - [Optional[str]] record fields are [option string]; a missing key
      and the value [None] are both [None].
    - A Python [dict] is an association list in insertion order; a
      subscript [d[k]] on a missing key raises [KeyError], which the
      embedding returns as [None] in the [option] monad.
    - A Python [set] is a duplicate-free list in insertion order.
    - Scores are Python floats.  A finite float is embedded as the
      rational [Q] that it stands for.  The passes are first given
      without rounding, where a score is the exact sum of its credits;
      the module [Float64] gives the passes and [search] with every
      operation rounded to a float, and what is said of the ranking and
      of the annotated score is proved there, for every rounding.
    - [rapidfuzz] is an external library: the scorer [fuzz.ratio] is a
      section variable, [process.extract] is defined over it. *)

From Stdlib Require Import List String Ascii Bool Arith ZArith QArith Lia.
From Stdlib Require Import Numbers.DecimalString.
Import ListNotations.

Open Scope string_scope.
Open Scope list_scope.
Open Scope nat_scope.

(* ================================================================= *)
(** ** Python strings *)

Module PyStr.

Definition code (c : ascii) : nat := nat_of_ascii c.

Definition between (lo hi n : nat) : bool := (lo <=? n) && (n <=? hi).

(** Characters with a distinct lower-case form: A-Z, and U+00C0..U+00DE
    except the multiplication sign U+00D7. *)
Definition is_upper (c : ascii) : bool :=
  let n := code c in
  between 65 90 n || (between 192 222 n && negb (n =? 215)).

Definition lower_char (c : ascii) : ascii :=
  if is_upper c then ascii_of_nat (code c + 32) else c.

(** [str.isspace], also the class [\s] of [re] and the separators of
    [str.split()] and [str.strip()]. *)
Definition is_space (c : ascii) : bool :=
  let n := code c in
  between 9 13 n || between 28 32 n || (n =? 133) || (n =? 160).

(** The class [\w] of [re]: alphanumeric characters and the underscore. *)
Definition is_word (c : ascii) : bool :=
  let n := code c in
  between 48 57 n || between 65 90 n || (n =? 95) || between 97 122 n
  || (n =? 170) || between 178 179 n || (n =? 181) || between 185 186 n
  || between 188 190 n || between 192 214 n || between 216 246 n
  || between 248 255 n.

Fixpoint smap (f : ascii -> ascii) (s : string) : string :=
  match s with
  | EmptyString => EmptyString
  | String c s' => String (f c) (smap f s')
  end.

Fixpoint sfilter (p : ascii -> bool) (s : string) : string :=
  match s with
  | EmptyString => EmptyString
  | String c s' => if p c then String c (sfilter p s') else sfilter p s'
  end.

Fixpoint sforall (p : ascii -> bool) (s : string) : bool :=
  match s with
  | EmptyString => true
  | String c s' => p c && sforall p s'
  end.

Definition is_empty (s : string) : bool :=
  match s with EmptyString => true | _ => false end.

(** [s.lower()] *)
Definition lower (s : string) : string := smap lower_char s.

(** [s.replace(a, b)] for single characters. *)
Definition replace_char (a b : ascii) (s : string) : string :=
  smap (fun c => if Ascii.eqb c a then b else c) s.

(** [needle in hay] *)
Fixpoint contains (needle hay : string) : bool :=
  prefix needle hay
  || match hay with
     | EmptyString => false
     | String _ hay' => contains needle hay'
     end.

(** [s.split()]: maximal runs of non-space characters.  [cur] is the
    run being read. *)
Fixpoint split_from (cur s : string) : list string :=
  match s with
  | EmptyString => if is_empty cur then [] else [cur]
  | String c s' =>
      if is_space c
      then (if is_empty cur then split_from "" s' else cur :: split_from "" s')
      else split_from (cur ++ String c "")%string s'
  end.

Definition split (s : string) : list string := split_from "" s.

(** [s.split(sep)] for a single separator character: never empty. *)
Fixpoint split_on_from (sep : ascii) (cur s : string) : list string :=
  match s with
  | EmptyString => [cur]
  | String c s' =>
      if Ascii.eqb c sep
      then cur :: split_on_from sep "" s'
      else split_on_from sep (cur ++ String c "")%string s'
  end.

Definition split_on (sep : ascii) (s : string) : list string :=
  split_on_from sep "" s.

Fixpoint lstrip (s : string) : string :=
  match s with
  | String c s' => if is_space c then lstrip s' else s
  | EmptyString => EmptyString
  end.

Fixpoint rstrip (s : string) : string :=
  match s with
  | EmptyString => EmptyString
  | String c s' =>
      match rstrip s' with
      | EmptyString => if is_space c then EmptyString else String c EmptyString
      | r => String c r
      end
  end.

(** [s.strip()] *)
Definition strip (s : string) : string := rstrip (lstrip s).

(** [sep.join(parts)] *)
Definition join (sep : string) (parts : list string) : string :=
  String.concat sep parts.

(** [str(n)] for a non-negative integer. *)
Definition of_nat (n : nat) : string :=
  NilEmpty.string_of_uint (Nat.to_uint n).

(** Python truthiness of an [Optional[str]]. *)
Definition truthy (o : option string) : bool :=
  match o with
  | Some s => negb (is_empty s)
  | None => false
  end.

(** Membership in a list or set of strings. *)
Definition mem (x : string) (l : list string) : bool :=
  existsb (String.eqb x) l.

(** Insertion into a set that is kept as a duplicate-free list. *)
Definition set_add (x : string) (l : list string) : list string :=
  if mem x l then l else l ++ [x].

Definition set_update (xs l : list string) : list string :=
  fold_left (fun acc x => set_add x acc) xs l.

(** [set(xs)] *)
Definition to_set (xs : list string) : list string := set_update xs [].

End PyStr.

Import PyStr.

Arguments is_word : simpl never.
Arguments is_space : simpl never.
Arguments is_upper : simpl never.
Arguments lower_char : simpl never.

(** Letters of the catalog text outside ASCII. *)
Definition a_uml : string := String (ascii_of_nat 228) "".
Definition u_uml : string := String (ascii_of_nat 252) "".
Definition U_uml : string := String (ascii_of_nat 220) "".

(* ================================================================= *)
(** ** The tokenizer *)

Definition stopwords : list string :=
  [ "der"; "die"; "das"; "ein"; "eine"; "und"; "oder";
    ("f" ++ u_uml ++ "r")%string; "fuer"; "mit"; "bei"; "von"; "zu" ].

Definition keep_token (t : string) : bool :=
  (2 <? String.length t) && negb (mem t stopwords).

(** [EnhancedSearch._tokenize] *)
Definition _tokenize (text : option string) : list string :=
  match text with
  | None => []
  | Some EmptyString => []
  | Some text =>
      let text := lower text in
      let text := replace_char "-"%char " "%char text in
      let text := sfilter (fun c => is_word c || is_space c) text in
      let tokens := split text in
      filter keep_token tokens
  end.

Arguments _tokenize : simpl never.

(* ================================================================= *)
(** ** Dictionaries and the error monad *)

Module Dict.

Definition t (V : Type) : Type := list (string * V).

(** [d.get(k)] *)
Fixpoint get {V} (k : string) (d : t V) : option V :=
  match d with
  | [] => None
  | (k', v) :: d' => if String.eqb k k' then Some v else get k d'
  end.

(** [d[k] = v]: an existing key keeps its position. *)
Fixpoint set {V} (k : string) (v : V) (d : t V) : t V :=
  match d with
  | [] => [(k, v)]
  | (k', v') :: d' =>
      if String.eqb k k' then (k', v) :: d' else (k', v') :: set k v d'
  end.

Definition keys {V} (d : t V) : list string := map fst d.

Definition values {V} (d : t V) : list V := map snd d.

(** [d.get(k, default)] *)
Definition get_default {V} (k : string) (default : V) (d : t V) : V :=
  match get k d with
  | Some v => v
  | None => default
  end.

End Dict.

(** [d[k]] raises [KeyError] on a missing key: the result is [None]. *)
Notation "x <- c1 ;; c2" :=
  (match c1 with Some x => c2 | None => None end)
    (at level 61, c1 at next level, right associativity).

Notation "' p <- c1 ;; c2" :=
  (match c1 with Some p => c2 | None => None end)
    (at level 61, p pattern, c1 at next level, right associativity).

(** A [for] loop whose body may raise. *)
Fixpoint for_each {A S : Type} (l : list A) (body : A -> S -> option S) (st : S)
  : option S :=
  match l with
  | [] => Some st
  | x :: l' => st' <- body x st ;; for_each l' body st'
  end.

(** An inverted index: key -> list of flow ids, one entry per occurrence. *)
Definition Index : Type := Dict.t (list string).

(** [if key not in index: index[key] = []] followed by
    [index[key].append(flow_id)]. *)
Definition index_append (key fid : string) (idx : Index) : Index :=
  match Dict.get key idx with
  | Some ids => Dict.set key (ids ++ [fid]) idx
  | None => Dict.set key [fid] idx
  end.

(* ================================================================= *)
(** ** Records of the catalog *)

Definition ostr_eqb (a b : option string) : bool :=
  match a, b with
  | Some x, Some y => String.eqb x y
  | None, None => true
  | _, _ => false
  end.

(** [flow.get(field) == s] for a string [s]. *)
Definition field_is (o : option string) (s : string) : bool :=
  match o with
  | Some x => String.eqb x s
  | None => false
  end.

Module Step.
Record t : Type := mk { step_type : option string; interface : option string }.

Definition eqb (a b : t) : bool :=
  ostr_eqb (step_type a) (step_type b) && ostr_eqb (interface a) (interface b).
End Step.

Fixpoint list_eqb {A} (eq : A -> A -> bool) (l1 l2 : list A) : bool :=
  match l1, l2 with
  | [], [] => true
  | x :: l1', y :: l2' => eq x y && list_eqb eq l1' l2'
  | _, _ => false
  end.

Module Flow.
(** One data flow, as the loader builds it: every key is present,
    a text field may be [None].  [search_score] is the key that
    [search] attaches. *)
Record t : Type := mk {
  id : string;
  name : option string;
  description : option string;
  transmission_method : option string;
  format : option string;
  trigger : option string;
  source_system : option string;
  target_system : option string;
  process_steps : list Step.t;
  search_score : option Q
}.

(** [flow["search_score"] = score] *)
Definition set_search_score (f : t) (score : Q) : t :=
  mk (id f) (name f) (description f) (transmission_method f) (format f)
     (trigger f) (source_system f) (target_system f) (process_steps f)
     (Some score).

Definition score_eqb (a b : option Q) : bool :=
  match a, b with
  | Some x, Some y => Qeq_bool x y
  | None, None => true
  | _, _ => false
  end.

(** Equality of the dictionaries, as [flow in direct_results] tests it. *)
Definition eqb (a b : t) : bool :=
  String.eqb (id a) (id b)
  && ostr_eqb (name a) (name b)
  && ostr_eqb (description a) (description b)
  && ostr_eqb (transmission_method a) (transmission_method b)
  && ostr_eqb (format a) (format b)
  && ostr_eqb (trigger a) (trigger b)
  && ostr_eqb (source_system a) (source_system b)
  && ostr_eqb (target_system a) (target_system b)
  && list_eqb Step.eqb (process_steps a) (process_steps b)
  && score_eqb (search_score a) (search_score b).
End Flow.

Module Store.
(** The [data_store] handed to the constructor; its four sets are given
    in their iteration order. *)
Record t : Type := mk {
  data_flows : list Flow.t;
  systems : list string;
  formats : list string;
  transmission_methods : list string;
  interfaces : list string
}.
End Store.

(* ================================================================= *)
(** ** The searcher and its construction *)

Record EnhancedSearch : Type := mkSearch {
  systems : list string;
  formats : list string;
  transmission_methods : list string;
  interfaces : list string;
  flow_index : Dict.t Flow.t;
  name_index : Index;
  description_index : Index;
  system_index : Index;
  format_index : Index;
  transmission_index : Index;
  interface_index : Index;
  system_variants : Dict.t (list string);
  format_variants : Dict.t (list string);
  transmission_variants : Dict.t (list string)
}.

(** The searcher whose flow records are [flows]; everything else is as
    in [s]. *)
Definition with_flows (s : EnhancedSearch) (flows : Dict.t Flow.t) : EnhancedSearch :=
  mkSearch (systems s) (formats s) (transmission_methods s) (interfaces s)
    flows (name_index s) (description_index s) (system_index s)
    (format_index s) (transmission_index s) (interface_index s)
    (system_variants s) (format_variants s) (transmission_variants s).

Definition index_tokens (fid : string) (tokens : list string) (idx : Index) : Index :=
  fold_left (fun idx token => index_append token fid idx) tokens idx.

Definition index_text (fid : string) (text : option string) (idx : Index) : Index :=
  if truthy text then index_tokens fid (_tokenize text) idx else idx.

Definition index_value (fid : string) (value : option string) (idx : Index) : Index :=
  match value with
  | Some v => if is_empty v then idx else index_append v fid idx
  | None => idx
  end.

Definition index_methods (fid : string) (value : option string) (idx : Index) : Index :=
  match value with
  | Some v =>
      if is_empty v then idx
      else fold_left
             (fun idx method =>
                let method := strip method in
                if is_empty method then idx else index_append method fid idx)
             (split_on ";"%char v) idx
  | None => idx
  end.

Definition index_steps (fid : string) (steps : list Step.t) (idx : Index) : Index :=
  fold_left (fun idx step => index_value fid (Step.interface step) idx) steps idx.

(** The body of the loop of [create_search_indices]. *)
Definition index_flow (s : EnhancedSearch) (flow : Flow.t) : EnhancedSearch :=
  let fid := Flow.id flow in
  mkSearch (systems s) (formats s) (transmission_methods s) (interfaces s)
    (Dict.set fid flow (flow_index s))
    (index_text fid (Flow.name flow) (name_index s))
    (index_text fid (Flow.description flow) (description_index s))
    (index_value fid (Flow.target_system flow)
       (index_value fid (Flow.source_system flow) (system_index s)))
    (index_value fid (Flow.format flow) (format_index s))
    (index_methods fid (Flow.transmission_method flow) (transmission_index s))
    (index_steps fid (Flow.process_steps flow) (interface_index s))
    (system_variants s) (format_variants s) (transmission_variants s).

(** [extract_key_terms] followed by [create_search_indices]. *)
Definition create_search_indices (ds : Store.t) : EnhancedSearch :=
  fold_left index_flow (Store.data_flows ds)
    (mkSearch (Store.systems ds) (Store.formats ds)
       (Store.transmission_methods ds) (Store.interfaces ds)
       [] [] [] [] [] [] [] [] [] []).

(** Variants of a system: every trigger contained in the name adds its
    variants, in this order. *)
Definition system_rules : list (string * list string) :=
  [ ("MIRA", ["mira"; "mirasystem"]);
    ("GAS-X", ["gasx"; "gas-x"; "gas x"]);
    ("GRID", ["grid"; "netzseite"]);
    ("BKN", ["bkn"; "bilanzkreis"; "bilanzierung"]);
    ("Marktpartner", ["marktpartner"; "shipper"; "transportkunde"; "lieferant"]);
    ("VHP", ["vhp"; "portal"; "web"; "webportal"]) ].

Definition bestaetigung : string := ("best" ++ a_uml ++ "tigung")%string.

(** Variants of a format or transmission method: the first rule whose
    name equals the value. *)
Definition format_rules : list (string * list string) :=
  [ ("NOMINT", ["nominierung"; "nomination"; "nomint"]);
    ("NOMRES", ["nominierungsantwort"; "confirmation"; bestaetigung; "bestaetigung"]);
    ("CONTRL", ["kontrolle"; "kontrollmeldung"; "control"]);
    ("APERAK", ["fehler"; "fehlermeldung"; "error"]);
    ("ACKNOW", ["quittung"; bestaetigung; "bestaetigung"; "acknowledgement"]);
    ("ALOCAT", ["allokation"; "allocation"; "zuteilung"]) ].

Definition transmission_rules : list (string * list string) :=
  [ ("AS4", ["as4"; "as 4"; "bsi"]);
    ("AS2", ["as2"; "as 2"]);
    ("SMTP", ["smtp"; "email"; "e-mail"; "mail"]);
    ("Webservice", ["webservice"; "web service"; "web"; "rest"; "api"]) ].

Definition contained_variants (rules : list (string * list string)) (value : string)
  : list string :=
  flat_map (fun rule => if contains (fst rule) value then snd rule else []) rules.

Definition equal_variants (rules : list (string * list string)) (value : string)
  : list string :=
  match find (fun rule => String.eqb value (fst rule)) rules with
  | Some rule => snd rule
  | None => []
  end.

Definition variant_table (variants : string -> list string) (values : list string)
  : Dict.t (list string) :=
  fold_left (fun d value => Dict.set value (variants value) d) values [].

Definition prepare_synonym_mapping (s : EnhancedSearch) : EnhancedSearch :=
  mkSearch (systems s) (formats s) (transmission_methods s) (interfaces s)
    (flow_index s) (name_index s) (description_index s) (system_index s)
    (format_index s) (transmission_index s) (interface_index s)
    (variant_table (contained_variants system_rules) (systems s))
    (variant_table (equal_variants format_rules) (formats s))
    (variant_table (equal_variants transmission_rules) (transmission_methods s)).

(** [EnhancedSearch.__init__] *)
Definition init (ds : Store.t) : EnhancedSearch :=
  prepare_synonym_mapping (create_search_indices ds).

(* ================================================================= *)
(** ** Entity extraction *)

Inductive Direction : Type := DirFrom | DirTo | DirBetween.

Definition direction_eqb (a b : Direction) : bool :=
  match a, b with
  | DirFrom, DirFrom | DirTo, DirTo | DirBetween, DirBetween => true
  | _, _ => false
  end.

Module Entities.
Record t : Type := mk {
  systems : list string;
  formats : list string;
  transmission_methods : list string;
  interfaces : list string;
  unknown_terms : list string;
  direction : option Direction
}.

(** [entities["unknown_terms"] = terms] *)
Definition set_unknown_terms (e : t) (terms : list string) : t :=
  mk (systems e) (formats e) (transmission_methods e) (interfaces e)
     terms (direction e).
End Entities.

Definition is_nil {A} (l : list A) : bool :=
  match l with [] => true | _ => false end.

(** [a.intersection(b)] is non-empty. *)
Definition intersects (a b : list string) : bool :=
  existsb (fun x => mem x b) a.

(** The first variant that occurs in the query. *)
Definition first_variant (variants : list string) (query : string) : option string :=
  find (fun variant => contains variant (lower query)) variants.

(** The state of the matching loops: the entities found so far and
    [matched_tokens]. *)
Definition Matching : Type := (list string * list string)%type.

Definition match_variants (variants : Dict.t (list string)) (query : string)
    (acc : Matching) (value : string) : Matching :=
  match first_variant (Dict.get_default value [] variants) query with
  | Some variant => (fst acc ++ [value], set_update (split variant) (snd acc))
  | None => acc
  end.

Definition match_system (variants : Dict.t (list string)) (query : string)
    (query_tokens : list string) (acc : Matching) (system : string) : Matching :=
  let system_tokens := to_set (_tokenize (Some system)) in
  if negb (is_nil system_tokens) && intersects system_tokens query_tokens
  then (fst acc ++ [system], set_update system_tokens (snd acc))
  else match_variants variants query acc system.

(** Formats and transmission methods: the value itself, else a variant. *)
Definition match_code (variants : Dict.t (list string)) (query : string)
    (acc : Matching) (value : string) : Matching :=
  if contains (lower value) (lower query)
  then (fst acc ++ [value], set_update (split (lower value)) (snd acc))
  else match_variants variants query acc value.

Definition match_interface (query : string) (acc : Matching) (value : string)
  : Matching :=
  if contains (lower value) (lower query)
  then (fst acc ++ [value], set_update (split (lower value)) (snd acc))
  else acc.

Definition detect_direction (query : string) : option Direction :=
  let q := lower query in
  if contains "von" q || contains "from" q then Some DirFrom
  else if contains "zu" q || contains "nach" q || contains "to" q then Some DirTo
  else if contains "zwischen" q || contains "between" q then Some DirBetween
  else None.

(** [matched_tokens] at the end of the four matching loops, with the four
    entity lists. *)
Definition match_all (s : EnhancedSearch) (query : string)
  : list string * list string * list string * list string * list string :=
  let query_tokens := to_set (_tokenize (Some query)) in
  let m1 := fold_left (match_system (system_variants s) query query_tokens)
              (systems s) ([], []) in
  let m2 := fold_left (match_code (format_variants s) query)
              (formats s) ([], snd m1) in
  let m3 := fold_left (match_code (transmission_variants s) query)
              (transmission_methods s) ([], snd m2) in
  let m4 := fold_left (match_interface query) (interfaces s) ([], snd m3) in
  (fst m1, fst m2, fst m3, fst m4, snd m4).

(** [EnhancedSearch._extract_entities] *)
Definition _extract_entities (s : EnhancedSearch) (query : string) : Entities.t :=
  let query_tokens := to_set (_tokenize (Some query)) in
  let '(sys, fmt, meth, ifc, matched_tokens) := match_all s query in
  Entities.mk sys fmt meth ifc
    (filter (fun token => negb (mem token matched_tokens)) query_tokens)
    (detect_direction query).

(* ================================================================= *)
(** ** Scores *)

Definition Scores : Type := Dict.t Q.

(** [flow_scores[flow_id] += w] *)
Definition add_score (w : Q) (fid : string) (scores : Scores) : option Scores :=
  v <- Dict.get fid scores ;; Some (Dict.set fid (v + w)%Q scores).

(** The score read back; [0] for an id that has no entry. *)
Definition score_of (scores : Scores) (fid : string) : Q :=
  Dict.get_default fid 0%Q scores.

(** [for flow_id in index[key]: flow_scores[flow_id] += w], guarded by
    [if key in index]. *)
Definition credit_index (idx : Index) (w : Q) (key : string) (scores : Scores)
  : option Scores :=
  match Dict.get key idx with
  | Some ids => for_each ids (add_score w) scores
  | None => Some scores
  end.

Definition system_weight (direction : option Direction) (system : string)
    (flow : Flow.t) : Q :=
  if field_is (Flow.source_system flow) system
     && field_is (Flow.target_system flow) system then 3
  else if match direction with Some DirFrom => true | _ => false end
          && field_is (Flow.source_system flow) system then 2
  else if match direction with Some DirTo => true | _ => false end
          && field_is (Flow.target_system flow) system then 2
  else if match direction with Some DirBetween => true | _ => false end then 1
  else 1.

Definition credit_system (s : EnhancedSearch) (direction : option Direction)
    (system : string) (scores : Scores) : option Scores :=
  match Dict.get system (system_index s) with
  | Some ids =>
      for_each ids
        (fun fid scores =>
           flow <- Dict.get fid (flow_index s) ;;
           add_score (system_weight direction system flow) fid scores)
        scores
  | None => Some scores
  end.

(** [EnhancedSearch._search_with_entities] *)
Definition _search_with_entities (s : EnhancedSearch) (e : Entities.t)
    (scores : Scores) : option Scores :=
  scores <- for_each (Entities.systems e)
              (credit_system s (Entities.direction e)) scores ;;
  scores <- for_each (Entities.formats e)
              (credit_index (format_index s) 2) scores ;;
  scores <- for_each (Entities.transmission_methods e)
              (credit_index (transmission_index s) 1.5) scores ;;
  for_each (Entities.interfaces e) (credit_index (interface_index s) 2.5) scores.

(** [EnhancedSearch._fulltext_search] *)
Definition _fulltext_search (s : EnhancedSearch) (query_tokens : list string)
    (scores : Scores) : option Scores :=
  scores <- for_each query_tokens (credit_index (name_index s) 1) scores ;;
  for_each query_tokens (credit_index (description_index s) 0.7) scores.

(* ================================================================= *)
(** ** Sorting *)

Definition Qlt_bool (a b : Q) : bool := negb (Qle_bool b a).

(** [sorted(l, key=key, reverse=True)]: stable, descending.  An element
    moves past the elements of strictly larger key only. *)
Fixpoint insert_desc {A} (key : A -> Q) (x : A) (l : list A) : list A :=
  match l with
  | [] => [x]
  | y :: l' =>
      if Qlt_bool (key x) (key y) then y :: insert_desc key x l' else x :: y :: l'
  end.

Definition sort_desc {A} (key : A -> Q) (l : list A) : list A :=
  fold_right (insert_desc key) [] l.

(** [l[:n]] for an integer [n]; a negative [n] counts from the end. *)
Definition slice_to {A} (n : Z) (l : list A) : list A :=
  if (0 <=? n)%Z then firstn (Z.to_nat n) l
  else firstn (List.length l - Z.to_nat (- n)) l.

(* ================================================================= *)
(** ** Regular expressions of the directional patterns *)

Module Re.

(** The patterns are sequences of literals and greedy repetitions of a
    character class, some of them capturing. *)
Inductive item : Type :=
| Lit (s : string)
| Many (cls : ascii -> bool) (at_least_one : bool) (capture : bool).

Fixpoint strip_prefix (p s : string) : option string :=
  match p with
  | EmptyString => Some s
  | String a p' =>
      match s with
      | String b s' => if Ascii.eqb a b then strip_prefix p' s' else None
      | EmptyString => None
      end
  end.

(** Match the pattern at the start of the text; the result is the list of
    captured groups.  A repetition takes the longest run first and gives
    characters back while the rest of the pattern fails. *)
Fixpoint match_here (p : list item) : string -> option (list string) :=
  match p with
  | [] => fun _ => Some []
  | Lit l :: p' =>
      fun s => rest <- strip_prefix l s ;; match_here p' rest
  | Many cls at_least_one capture :: p' =>
      let continue := match_here p' in
      (fix greedy (taken s : string) {struct s} : option (list string) :=
         let stop :=
           if at_least_one && is_empty taken then None
           else groups <- continue s ;;
                Some (if capture then taken :: groups else groups) in
         match s with
         | String c s' =>
             if cls c
             then match greedy (taken ++ String c "")%string s' with
                  | Some groups => Some groups
                  | None => stop
                  end
             else stop
         | EmptyString => stop
         end) ""
  end.

(** [re.search]: the leftmost position at which the pattern matches. *)
Fixpoint search (p : list item) (s : string) : option (list string) :=
  match match_here p s with
  | Some groups => Some groups
  | None =>
      match s with
      | String _ s' => search p s'
      | EmptyString => None
      end
  end.

Definition space_or_word (c : ascii) : bool := is_space c || is_word c.

(** [kw\s+(\w+)[\s\w]*sep\s+(\w+)], with [+] for [*] when [gap] is set. *)
Definition pattern (kw : string) (gap : bool) (sep : string) : list item :=
  [ Lit kw; Many is_space true false; Many is_word true true;
    Many space_or_word gap false; Lit sep; Many is_space true false;
    Many is_word true true ].

End Re.

Inductive PatternType : Type := from_to | between_systems.

Definition direction_patterns : list (list Re.item * PatternType) :=
  [ (Re.pattern "von" false "nach", from_to);
    (Re.pattern "from" false "to", from_to);
    (Re.pattern "zwischen" true "und", between_systems);
    (Re.pattern "between" true "and", between_systems) ].

(* ================================================================= *)
(** ** Rounding and the response sentence *)

(** Rounding to the nearest integer, ties to even. *)
Definition round_half_even (q : Q) : Z :=
  let n := Qnum q in
  let d := Zpos (Qden q) in
  let f := (n / d)%Z in
  let r := (2 * (n mod d))%Z in
  if (r <? d)%Z then f
  else if (d <? r)%Z then (f + 1)%Z
  else if Z.even f then f else (f + 1)%Z.

(** [round(score, 2)] *)
Definition round2 (score : Q) : Q :=
  Qmake (round_half_even (score * 100)) 100.

(** [str(x)] inside an f-string for an [Optional[str]]. *)
Definition show (o : option string) : string :=
  match o with
  | Some s => s
  | None => "None"
  end.

Definition text (o : option string) : string :=
  match o with
  | Some s => s
  | None => ""
  end.

Definition Datenfluesse : string := ("Datenfl" ++ u_uml ++ "sse")%string.

Definition nothing_found (query : string) : string :=
  ("Ich konnte keine " ++ Datenfluesse ++ " finden, die zu Ihrer Anfrage '"
     ++ query ++ "' passen.")%string.

(** One clause of the entity mention: singular or plural wording. *)
Definition mention (singular plural : string) (values : list string) : list string :=
  match values with
  | [] => []
  | [v] => [(singular ++ " " ++ v)%string]
  | _ => [(plural ++ " " ++ join ", " values)%string]
  end.

Definition entity_mention (e : Entities.t) : list string :=
  mention "das System" "die Systeme" (Entities.systems e)
  ++ mention "das Format" "die Formate" (Entities.formats e)
  ++ mention ("die " ++ U_uml ++ "bertragungsmethode")%string
       ("die " ++ U_uml ++ "bertragungsmethoden")%string
       (Entities.transmission_methods e)
  ++ mention "die Schnittstelle" "die Schnittstellen" (Entities.interfaces e).

Definition flow_details (flow : Flow.t) : list string :=
  (if truthy (Flow.source_system flow) && truthy (Flow.target_system flow)
   then [("von " ++ text (Flow.source_system flow) ++ " nach "
            ++ text (Flow.target_system flow))%string]
   else [])
  ++ (if truthy (Flow.format flow)
      then [("im Format " ++ text (Flow.format flow))%string] else [])
  ++ (if truthy (Flow.transmission_method flow)
      then [(u_uml ++ "ber " ++ text (Flow.transmission_method flow))%string]
      else []).

(** Collecting the systems of a flow into a set: the source, then the
    target, when they are not empty. *)
Definition add_systems (acc : list string) (flow : Flow.t) : list string :=
  let acc := if truthy (Flow.source_system flow)
             then set_add (text (Flow.source_system flow)) acc else acc in
  if truthy (Flow.target_system flow)
  then set_add (text (Flow.target_system flow)) acc else acc.

(** The systems named by a list of flows, as a set. *)
Definition systems_of (flows : list Flow.t) : list string :=
  fold_left add_systems flows [].

Definition direct_clause (direct_results : list Flow.t) : string :=
  match direct_results with
  | [] => ("keine direkt passenden " ++ Datenfluesse ++ " gefunden")%string
  | [flow] =>
      ("einen passenden Datenfluss gefunden: '" ++ show (Flow.name flow) ++ "'"
         ++ match flow_details flow with
            | [] => ""
            | details => " (" ++ join ", " details ++ ")"
            end)%string
  | _ =>
      let systems_in_results := systems_of direct_results in
      let few := negb (is_nil systems_in_results)
                 && (List.length systems_in_results <=? 5) in
      (of_nat (List.length direct_results) ++ " passende " ++ Datenfluesse
         ++ " gefunden"
         ++ if few
            then ", beteiligt sind die Systeme " ++ join ", " systems_in_results
            else "")%string
  end.

(** [EnhancedSearch._generate_response] *)
Definition _generate_response (query : string) (direct_results related_flows : list Flow.t)
    (e : Entities.t) : string :=
  if is_nil direct_results && is_nil related_flows then nothing_found query
  else
    ((match entity_mention e with
      | [] => "F" ++ u_uml ++ "r Ihre Anfrage '" ++ query ++ "' habe ich "
      | mentions =>
          "F" ++ u_uml ++ "r Ihre Anfrage zu " ++ join " und " mentions
            ++ " habe ich "
      end)
     ++ direct_clause direct_results
     ++ (if is_nil related_flows then "."
         else ". Zus" ++ a_uml ++ "tzlich gibt es "
                ++ of_nat (List.length related_flows) ++ " verwandte "
                ++ Datenfluesse
                ++ ", die mit " ++ a_uml ++ "hnlichen Systemen verbunden sind"))%string.

(* ================================================================= *)
(** ** The passes that use fuzzy matching, and [search] *)

Module Result.
Record t : Type := mk {
  direct_results : list Flow.t;
  related_flows : list Flow.t;
  matching_systems : list string;
  query_entities : Entities.t;
  natural_response : string
}.
End Result.

(** One entry of the vocabulary loop of the fuzzy pass. *)
Definition add_term (fid : string) (token : string)
    (acc : list string * Dict.t (list string))
  : option (list string * Dict.t (list string)) :=
  let acc := if mem token (fst acc) then acc
             else (fst acc ++ [token], Dict.set token [] (snd acc)) in
  ids <- Dict.get token (snd acc) ;;
  Some (fst acc, Dict.set token (ids ++ [fid]) (snd acc)).

(** [all_terms] and [term_to_flow_map] of the fuzzy pass. *)
Definition vocabulary (flows : Dict.t Flow.t)
  : option (list string * Dict.t (list string)) :=
  for_each flows
    (fun entry acc =>
       if truthy (Flow.name (snd entry))
       then for_each (_tokenize (Flow.name (snd entry))) (add_term (fst entry)) acc
       else Some acc)
    ([], []).

(** [sorted_results[:max_results]] is walked once: the flow is looked up,
    annotated in place, and collected. *)
Definition annotate (entry : string * Q)
    (st : Dict.t Flow.t * list Flow.t * list string)
  : option (Dict.t Flow.t * list Flow.t * list string) :=
  let '(flows, direct_results, matching_systems) := st in
  flow <- Dict.get (fst entry) flows ;;
  let flow := Flow.set_search_score flow (round2 (snd entry)) in
  Some (Dict.set (fst entry) flow flows, direct_results ++ [flow],
        add_systems matching_systems flow).

Definition in_systems (o : option string) (systems : list string) : bool :=
  truthy o && mem (text o) systems.

(** The test of the related-flows loop. *)
Definition is_related (direct_results : list Flow.t) (matching_systems : list string)
    (flow : Flow.t) : bool :=
  negb (existsb (Flow.eqb flow) direct_results)
  && (in_systems (Flow.source_system flow) matching_systems
      || in_systems (Flow.target_system flow) matching_systems).

Section Searcher.

(** [rapidfuzz.fuzz.ratio]: a similarity between 0 and 100. *)
Variable ratio : string -> string -> Q.

Fixpoint scored_from (i : nat) (query : string) (choices : list string)
  : list (string * Q * nat) :=
  match choices with
  | [] => []
  | c :: choices' => (c, ratio query c, i) :: scored_from (S i) query choices'
  end.

(** [rapidfuzz.process.extract(query, choices, scorer=fuzz.ratio,
    limit=limit)]: the [limit] best choices with score and position,
    best first, equal scores in the order of [choices]. *)
Definition extract (query : string) (choices : list string) (limit : nat)
  : list (string * Q * nat) :=
  firstn limit (sort_desc (fun m => snd (fst m)) (scored_from 0 query choices)).

(** The body of [for match, score, _ in matches]. *)
Definition credit_match (term_to_flow_map : Dict.t (list string))
    (m : string * Q * nat) (scores : Scores) : option Scores :=
  let score := snd (fst m) in
  if Qle_bool 80 score
  then for_each (Dict.get_default (fst (fst m)) [] term_to_flow_map)
         (add_score (score / 100)) scores
  else Some scores.

Definition credit_term (all_terms : list string)
    (term_to_flow_map : Dict.t (list string)) (term : string) (scores : Scores)
  : option Scores :=
  if String.length term <? 3 then Some scores
  else for_each (extract term all_terms 5) (credit_match term_to_flow_map) scores.

(** [EnhancedSearch._fuzzy_term_matching] *)
Definition _fuzzy_term_matching (s : EnhancedSearch) (unknown_terms : list string)
    (scores : Scores) : option Scores :=
  if is_nil unknown_terms then Some scores
  else
    voc <- vocabulary (flow_index s) ;;
    for_each unknown_terms (credit_term (fst voc) (snd voc)) scores.

(** [EnhancedSearch._find_best_system_match] *)
Definition _find_best_system_match (s : EnhancedSearch) (term : string)
  : option string :=
  if is_empty term then None
  else
    match find (fun system => contains (lower term) (lower system)
                              || contains (lower system) (lower term))
               (systems s) with
    | Some system => Some system
    | None =>
        match extract term (systems s) 1 with
        | m :: _ => if Qle_bool 75 (snd (fst m)) then Some (fst (fst m)) else None
        | [] => None
        end
    end.

(** The test applied to every flow once a pattern has matched and both
    terms resolved to [system1] and [system2]. *)
Definition pattern_hit (ptype : PatternType) (system1 system2 : string)
    (flow : Flow.t) : bool :=
  match ptype with
  | from_to =>
      field_is (Flow.source_system flow) system1
      && field_is (Flow.target_system flow) system2
  | between_systems =>
      (field_is (Flow.source_system flow) system1
       && field_is (Flow.target_system flow) system2)
      || (field_is (Flow.source_system flow) system2
          && field_is (Flow.target_system flow) system1)
  end.

(** The systems a pattern resolves to on a query, if it matches and both
    captured terms resolve to a non-empty system name. *)
Definition resolve_pattern (s : EnhancedSearch) (query : string)
    (pattern : list Re.item) : option (string * string) :=
  match Re.search pattern (lower query) with
  | Some [term1; term2] =>
      match _find_best_system_match s term1, _find_best_system_match s term2 with
      | Some system1, Some system2 =>
          if negb (is_empty system1) && negb (is_empty system2)
          then Some (system1, system2) else None
      | _, _ => None
      end
  | _ => None
  end.

(** The body of [for pattern, pattern_type in direction_patterns]. *)
Definition apply_pattern (s : EnhancedSearch) (query : string)
    (p : list Re.item * PatternType) (scores : Scores) : option Scores :=
  match resolve_pattern s query (fst p) with
  | Some (system1, system2) =>
      for_each (flow_index s)
        (fun entry scores =>
           if pattern_hit (snd p) system1 system2 (snd entry)
           then add_score 5 (fst entry) scores
           else Some scores)
        scores
  | None => Some scores
  end.

(** [EnhancedSearch._pattern_based_search] *)
Definition _pattern_based_search (s : EnhancedSearch) (query : string)
    (scores : Scores) : option Scores :=
  for_each direction_patterns (apply_pattern s query) scores.

(** The entities after step 3 of [search], where an empty
    [unknown_terms] is replaced by the query tokens. *)
Definition query_entities (s : EnhancedSearch) (query : string) : Entities.t :=
  let e := _extract_entities s query in
  if is_nil (Entities.unknown_terms e)
  then Entities.set_unknown_terms e (_tokenize (Some query))
  else e.

(** [flow_scores] at the end of the four passes of [search]; [query] is
    already in lower case. *)
Definition flow_scores (s : EnhancedSearch) (query : string) : option Scores :=
  let query_tokens := _tokenize (Some query) in
  let scores := map (fun fid => (fid, 0%Q)) (Dict.keys (flow_index s)) in
  scores <- _search_with_entities s (_extract_entities s query) scores ;;
  scores <- _fuzzy_term_matching s
              (Entities.unknown_terms (query_entities s query)) scores ;;
  scores <- _fulltext_search s query_tokens scores ;;
  _pattern_based_search s query scores.

Definition sorted_results (scores : Scores) : list (string * Q) :=
  sort_desc snd (filter (fun entry => Qlt_bool 0 (snd entry)) scores).

(** [EnhancedSearch.search]: the result, and the searcher as the call
    leaves it. *)
Definition search (s : EnhancedSearch) (query : string) (max_results : Z)
  : option (Result.t * EnhancedSearch) :=
  let query := lower query in
  scores <- flow_scores s query ;;
  st <- for_each (slice_to max_results (sorted_results scores)) annotate
          (flow_index s, [], []) ;;
  let '(flows, direct_results, matching_systems) := st in
  let related_flows :=
    filter (is_related direct_results matching_systems) (Dict.values flows) in
  let e := query_entities s query in
  Some (Result.mk direct_results (firstn 10 related_flows) matching_systems e
          (_generate_response query direct_results related_flows e),
        with_flows s flows).

(** The searchers that serve queries: the constructor's, and those left
    by earlier calls of [search]. *)
Inductive serving (ds : Store.t) : EnhancedSearch -> Prop :=
| serving_init : serving ds (init ds)
| serving_search s query max_results r s' :
    serving ds s ->
    search s query max_results = Some (r, s') ->
    serving ds s'.

End Searcher.

(* ================================================================= *)
(** ** A scorer for the examples *)

(** Length of a longest common subsequence. *)
Fixpoint lcs (a b : string) : nat :=
  match a with
  | EmptyString => 0
  | String x a' =>
      (fix lcs_a (b : string) : nat :=
         match b with
         | EmptyString => 0
         | String y b' =>
             if Ascii.eqb x y then S (lcs a' b')
             else Nat.max (lcs a' b) (lcs_a b')
         end) b
  end.

(** The normalized insertion/deletion similarity, which [fuzz.ratio]
    documents: [100 * 2 * lcs / (len a + len b)], and 100 for two empty
    strings. *)
Definition fuzz_ratio (a b : string) : Q :=
  let n := String.length a + String.length b in
  if n =? 0 then 100%Q
  else Qmake (200 * Z.of_nat (lcs a b)) (Pos.of_nat n).

(* ================================================================= *)
(** ** Auxiliary notions used by the statements *)

(** The text that [_tokenize] splits. *)
Definition normalize (text : string) : string :=
  sfilter (fun c => is_word c || is_space c)
    (replace_char "-"%char " "%char (lower text)).

(** Characters of a token: word characters in lower case. *)
Definition token_char (c : ascii) : bool :=
  is_word c && negb (is_space c) && Ascii.eqb (lower_char c) c
  && negb (Ascii.eqb c "-"%char).

Definition qsum (l : list Q) : Q := fold_right Qplus 0%Q l.

Definition sum_over {A} (l : list A) (c : A -> Q) : Q := qsum (map c l).

(** Number of occurrences of [x] in [l]. *)
Definition occurrences (x : string) (l : list string) : nat :=
  List.length (filter (String.eqb x) l).

Definition times (n : nat) (w : Q) : Q := (inject_Z (Z.of_nat n) * w)%Q.

(** [x] stands before [y] in [l]. *)
Fixpoint Before {A} (l : list A) (x y : A) : Prop :=
  match l with
  | [] => False
  | z :: l' => (z = x /\ In y l') \/ Before l' x y
  end.

(** A step on the score map that succeeds on every map over the ids [K],
    keeps the ids, and adds [c f] to the score of [f]. *)
Definition credits (K : list string) (g : Scores -> option Scores)
    (c : string -> Q) : Prop :=
  forall m, Dict.keys m = K ->
    exists m', g m = Some m' /\ Dict.keys m' = K
               /\ forall f, (score_of m' f == score_of m f + c f)%Q.

(** What one [flow_scores[fid] += w] adds to the score of [f]. *)
Definition credit_of (f fid : string) (w : Q) : Q :=
  if String.eqb f fid then w else 0%Q.

(** What [credit_index idx w key] adds to the score of [f]. *)
Definition index_credit (idx : Index) (w : Q) (f key : string) : Q :=
  times (occurrences f (Dict.get_default key [] idx)) w.

Definition weight_of (s : EnhancedSearch) (direction : option Direction)
    (system fid : string) : Q :=
  match Dict.get fid (flow_index s) with
  | Some flow => system_weight direction system flow
  | None => 0%Q
  end.

Definition system_credit (s : EnhancedSearch) (direction : option Direction)
    (f system : string) : Q :=
  sum_over (Dict.get_default system [] (system_index s))
    (fun fid => credit_of f fid (weight_of s direction system fid)).

(** What the entity pass adds to the score of [f]. *)
Definition entity_credit (s : EnhancedSearch) (e : Entities.t) (f : string) : Q :=
  (sum_over (Entities.systems e) (system_credit s (Entities.direction e) f)
   + sum_over (Entities.formats e) (index_credit (format_index s) 2 f)
   + sum_over (Entities.transmission_methods e)
       (index_credit (transmission_index s) 1.5 f)
   + sum_over (Entities.interfaces e) (index_credit (interface_index s) 2.5 f))%Q.

(** What the full-text pass adds to the score of [f]. *)
Definition fulltext_credit (s : EnhancedSearch) (tokens : list string) (f : string)
  : Q :=
  (sum_over tokens (index_credit (name_index s) 1 f)
   + sum_over tokens (index_credit (description_index s) 0.7 f))%Q.

(** The flow records of two searchers agree up to [search_score]. *)
Definition same_fields (a b : Flow.t) : Prop :=
  Flow.set_search_score a 0 = Flow.set_search_score b 0.

(** Every id listed in the index is an id of [K]. *)
Definition index_ok (K : list string) (idx : Index) : Prop :=
  forall key ids fid, Dict.get key idx = Some ids -> In fid ids -> In fid K.

(** What construction establishes and [search] keeps. *)
Record well_formed (s : EnhancedSearch) : Prop := {
  wf_nodup : NoDup (Dict.keys (flow_index s));
  wf_ids : Forall (fun entry => Flow.id (snd entry) = fst entry) (flow_index s);
  wf_name : index_ok (Dict.keys (flow_index s)) (name_index s);
  wf_description : index_ok (Dict.keys (flow_index s)) (description_index s);
  wf_system : index_ok (Dict.keys (flow_index s)) (system_index s);
  wf_format : index_ok (Dict.keys (flow_index s)) (format_index s);
  wf_transmission : index_ok (Dict.keys (flow_index s)) (transmission_index s);
  wf_interface : index_ok (Dict.keys (flow_index s)) (interface_index s);
  wf_format_key : Dict.get ""%string (format_index s) = None;
  wf_transmission_key : Dict.get ""%string (transmission_index s) = None;
  wf_interface_key : Dict.get ""%string (interface_index s) = None;
  wf_system_variants :
    forall system, ~ In ""%string (Dict.get_default system [] (system_variants s));
  wf_format_variants :
    forall value, ~ In ""%string (Dict.get_default value [] (format_variants s));
  wf_transmission_variants :
    forall value, ~ In ""%string (Dict.get_default value [] (transmission_variants s))
}.

Section SearcherAux.

Variable ratio : string -> string -> Q.

(** What one candidate of the fuzzy pass adds to the score of [f]. *)
Definition match_credit (term_to_flow_map : Dict.t (list string)) (f : string)
    (m : string * Q * nat) : Q :=
  if Qle_bool 80 (snd (fst m))
  then times (occurrences f (Dict.get_default (fst (fst m)) [] term_to_flow_map))
         (snd (fst m) / 100)
  else 0%Q.

Definition term_credit (all_terms : list string)
    (term_to_flow_map : Dict.t (list string)) (f term : string) : Q :=
  if String.length term <? 3 then 0%Q
  else sum_over (extract ratio term all_terms 5) (match_credit term_to_flow_map f).

(** What the fuzzy pass adds to the score of [f]. *)
Definition fuzzy_credit (voc : list string * Dict.t (list string))
    (terms : list string) (f : string) : Q :=
  sum_over terms (term_credit (fst voc) (snd voc) f).

(** What one directional pattern adds to the score of [f]. *)
Definition pattern_credit (s : EnhancedSearch) (query f : string)
    (p : list Re.item * PatternType) : Q :=
  match resolve_pattern ratio s query (fst p) with
  | Some (system1, system2) =>
      sum_over (flow_index s)
        (fun entry =>
           if pattern_hit (snd p) system1 system2 (snd entry)
           then credit_of f (fst entry) 5 else 0%Q)
  | None => 0%Q
  end.

End SearcherAux.

(** How often [token] occurs in the name of the flow stored under [f]. *)
Definition name_count (flows : Dict.t Flow.t) (token f : string) : nat :=
  list_sum
    (map (fun entry =>
            if String.eqb f (fst entry)
            then occurrences token (_tokenize (Flow.name (snd entry)))
            else 0)
       flows).

(** The state of the vocabulary loop: [all_terms] lists the keys of
    [term_to_flow_map], and the map lists [f] under [token] [count token f]
    times. *)
Definition voc_ok (count : string -> string -> nat)
    (acc : list string * Dict.t (list string)) : Prop :=
  (forall token, mem token (fst acc) = true <-> Dict.get token (snd acc) <> None)
  /\ forall token f,
       occurrences f (Dict.get_default token [] (snd acc)) = count token f.

(** [fid] is listed under [key]. *)
Definition listed (idx : Index) (key fid : string) : Prop :=
  In fid (Dict.get_default key [] idx).

(** Two flow stores hold the same records up to [search_score]. *)
Definition agree (flows flows0 : Dict.t Flow.t) : Prop :=
  Dict.keys flows = Dict.keys flows0
  /\ forall k f, Dict.get k flows = Some f ->
       exists f0, Dict.get k flows0 = Some f0 /\ same_fields f f0.

(** [d] is the record stored under the id of [entry], annotated with the
    rounded score of [entry]. *)
Definition annotates (flows : Dict.t Flow.t) (entry : string * Q) (d : Flow.t) : Prop :=
  exists flow, Dict.get (fst entry) flows = Some flow
               /\ d = Flow.set_search_score flow (round2 (snd entry)).

(** No rule of the table lists the empty string as a variant. *)
Definition rules_nonempty (rules : list (string * list string)) : bool :=
  forallb (fun rule => forallb (fun v => negb (is_empty v)) (snd rule)) rules.

(** What the indexing loop establishes about the flow store and the six
    indices. *)
Record indexed (s : EnhancedSearch) : Prop := {
  ix_nodup : NoDup (Dict.keys (flow_index s));
  ix_ids : Forall (fun entry => Flow.id (snd entry) = fst entry) (flow_index s);
  ix_name : index_ok (Dict.keys (flow_index s)) (name_index s);
  ix_description : index_ok (Dict.keys (flow_index s)) (description_index s);
  ix_system : index_ok (Dict.keys (flow_index s)) (system_index s);
  ix_format : index_ok (Dict.keys (flow_index s)) (format_index s);
  ix_transmission : index_ok (Dict.keys (flow_index s)) (transmission_index s);
  ix_interface : index_ok (Dict.keys (flow_index s)) (interface_index s);
  ix_format_key : Dict.get ""%string (format_index s) = None;
  ix_transmission_key : Dict.get ""%string (transmission_index s) = None;
  ix_interface_key : Dict.get ""%string (interface_index s) = None
}.

(* ================================================================= *)
(** ** The searcher on floating-point scores *)

(** The scores of the code are binary64 floats.  A finite float is
    embedded as the rational that it stands for, so comparing floats is
    comparing rationals.  An operation on floats returns the exact result
    rounded to the nearest float: [x + y] is [fl (x + y)], [x / 100.0] is
    [fl (x / 100)], the literal [0.7] is [fl 0.7], and [round(x, 2)] is
    the float nearest to the decimal with two places that is nearest to
    [x], that is [fl (round2 x)].  The weights 1, 1.5, 2, 2.5, 3 and 5
    are floats as they stand.

    The passes and [search] are given here over the rounding [fl]; the
    searcher of the sections above is the one without rounding.  What is
    proved for every [fl] holds for the floats of the code. *)

(** Rounding to the nearest binary64 float, ties to the even mantissa:
    a mantissa of 53 bits.  The bounds of the exponent are left out, no
    score comes near them. *)
Definition binary64 (q : Q) : Q :=
  match Qnum q with
  | Z0 => 0%Q
  | _ =>
      let a := if (Qnum q <? 0)%Z then (- q)%Q else q in
      let e0 := (Z.log2 (Qnum a) - Z.log2 (Zpos (Qden a)) - 52)%Z in
      let e := if Qlt_bool (a / Qpower 2 e0) (Qpower 2 52)
               then (e0 - 1)%Z else e0 in
      let r := Qred (inject_Z (round_half_even (a / Qpower 2 e)) * Qpower 2 e) in
      if (Qnum q <? 0)%Z then (- r)%Q else r
  end.

Module Float64.

Section Rounded.

Variable fl : Q -> Q.

(** [rapidfuzz.fuzz.ratio] *)
Variable ratio : string -> string -> Q.

(** [flow_scores[flow_id] += w] *)
Definition add_score (w : Q) (fid : string) (scores : Scores) : option Scores :=
  v <- Dict.get fid scores ;; Some (Dict.set fid (fl (v + w)) scores).

Definition credit_index (idx : Index) (w : Q) (key : string) (scores : Scores)
  : option Scores :=
  match Dict.get key idx with
  | Some ids => for_each ids (add_score w) scores
  | None => Some scores
  end.

Definition credit_system (s : EnhancedSearch) (direction : option Direction)
    (system : string) (scores : Scores) : option Scores :=
  match Dict.get system (system_index s) with
  | Some ids =>
      for_each ids
        (fun fid scores =>
           flow <- Dict.get fid (flow_index s) ;;
           add_score (system_weight direction system flow) fid scores)
        scores
  | None => Some scores
  end.

(** [EnhancedSearch._search_with_entities] *)
Definition _search_with_entities (s : EnhancedSearch) (e : Entities.t)
    (scores : Scores) : option Scores :=
  scores <- for_each (Entities.systems e)
              (credit_system s (Entities.direction e)) scores ;;
  scores <- for_each (Entities.formats e)
              (credit_index (format_index s) 2) scores ;;
  scores <- for_each (Entities.transmission_methods e)
              (credit_index (transmission_index s) 1.5) scores ;;
  for_each (Entities.interfaces e) (credit_index (interface_index s) 2.5) scores.

(** [EnhancedSearch._fulltext_search] *)
Definition _fulltext_search (s : EnhancedSearch) (query_tokens : list string)
    (scores : Scores) : option Scores :=
  scores <- for_each query_tokens (credit_index (name_index s) 1) scores ;;
  for_each query_tokens (credit_index (description_index s) (fl 0.7)) scores.

(** The body of [for match, score, _ in matches]. *)
Definition credit_match (term_to_flow_map : Dict.t (list string))
    (m : string * Q * nat) (scores : Scores) : option Scores :=
  let score := snd (fst m) in
  if Qle_bool 80 score
  then for_each (Dict.get_default (fst (fst m)) [] term_to_flow_map)
         (add_score (fl (score / 100))) scores
  else Some scores.

Definition credit_term (all_terms : list string)
    (term_to_flow_map : Dict.t (list string)) (term : string) (scores : Scores)
  : option Scores :=
  if String.length term <? 3 then Some scores
  else for_each (extract ratio term all_terms 5) (credit_match term_to_flow_map)
         scores.

(** [EnhancedSearch._fuzzy_term_matching] *)
Definition _fuzzy_term_matching (s : EnhancedSearch) (unknown_terms : list string)
    (scores : Scores) : option Scores :=
  if is_nil unknown_terms then Some scores
  else
    voc <- vocabulary (flow_index s) ;;
    for_each unknown_terms (credit_term (fst voc) (snd voc)) scores.

Definition apply_pattern (s : EnhancedSearch) (query : string)
    (p : list Re.item * PatternType) (scores : Scores) : option Scores :=
  match resolve_pattern ratio s query (fst p) with
  | Some (system1, system2) =>
      for_each (flow_index s)
        (fun entry scores =>
           if pattern_hit (snd p) system1 system2 (snd entry)
           then add_score 5 (fst entry) scores
           else Some scores)
        scores
  | None => Some scores
  end.

(** [EnhancedSearch._pattern_based_search] *)
Definition _pattern_based_search (s : EnhancedSearch) (query : string)
    (scores : Scores) : option Scores :=
  for_each direction_patterns (apply_pattern s query) scores.

(** [flow_scores] at the end of the four passes of [search]; [query] is
    already in lower case. *)
Definition flow_scores (s : EnhancedSearch) (query : string) : option Scores :=
  let query_tokens := _tokenize (Some query) in
  let scores := map (fun fid => (fid, 0%Q)) (Dict.keys (flow_index s)) in
  scores <- _search_with_entities s (_extract_entities s query) scores ;;
  scores <- _fuzzy_term_matching s
              (Entities.unknown_terms (query_entities s query)) scores ;;
  scores <- _fulltext_search s query_tokens scores ;;
  _pattern_based_search s query scores.

(** [round(score, 2)] *)
Definition rounded (score : Q) : Q := fl (round2 score).

(** The body of the loop over [sorted_results[:max_results]]. *)
Definition annotate (entry : string * Q)
    (st : Dict.t Flow.t * list Flow.t * list string)
  : option (Dict.t Flow.t * list Flow.t * list string) :=
  let '(flows, direct_results, matching_systems) := st in
  flow <- Dict.get (fst entry) flows ;;
  let flow := Flow.set_search_score flow (rounded (snd entry)) in
  Some (Dict.set (fst entry) flow flows, direct_results ++ [flow],
        add_systems matching_systems flow).

(** [EnhancedSearch.search]: the result, and the searcher as the call
    leaves it. *)
Definition search (s : EnhancedSearch) (query : string) (max_results : Z)
  : option (Result.t * EnhancedSearch) :=
  let query := lower query in
  scores <- flow_scores s query ;;
  st <- for_each (slice_to max_results (sorted_results scores)) annotate
          (flow_index s, [], []) ;;
  let '(flows, direct_results, matching_systems) := st in
  let related_flows :=
    filter (is_related direct_results matching_systems) (Dict.values flows) in
  let e := query_entities s query in
  Some (Result.mk direct_results (firstn 10 related_flows) matching_systems e
          (_generate_response query direct_results related_flows e),
        with_flows s flows).

(** The searchers that serve queries: the constructor's, and those left
    by earlier calls of [search]. *)
Inductive serving (ds : Store.t) : EnhancedSearch -> Prop :=
| serving_init : serving ds (init ds)
| serving_search s query max_results r s' :
    serving ds s ->
    search s query max_results = Some (r, s') ->
    serving ds s'.

End Rounded.

End Float64.

(** A step on the score map that succeeds on every map over the ids [K]
    and keeps the ids. *)
Definition keeps (K : list string) (g : Scores -> option Scores) : Prop :=
  forall m, Dict.keys m = K -> exists m', g m = Some m' /\ Dict.keys m' = K.


(** The test of the related-flows loop, said of a record and the direct
    results: the record is none of them, and its source or its target is
    a source or target of one of them. *)
Definition shares_system (direct_results : list Flow.t) (flow : Flow.t) : Prop :=
  exists d system,
    In d direct_results /\ system <> ""%string
    /\ (Flow.source_system flow = Some system \/ Flow.target_system flow = Some system)
    /\ (Flow.source_system d = Some system \/ Flow.target_system d = Some system).

(* ================================================================= *)
(** ** Example catalogs *)

(** [search] is called without [max_results] by the service. *)
Definition default_max_results : Z := 20.

Definition example_flow (fid fname fdescription source target fmt : string) : Flow.t :=
  Flow.mk fid (Some fname) (Some fdescription) (Some "AS4") (Some fmt) None
    (Some source) (Some target) [Step.mk (Some "Transfer") (Some "IF-01")] None.

(** Two flows between GRID and MIRA, and one that involves neither. *)
Definition example_store : Store.t :=
  Store.mk
    [ example_flow "R1" "Nominierung Export" "Meldung an MIRA" "GRID" "MIRA" "NOMINT";
      example_flow "R2" "Nominierung Antwort" "" "MIRA" "GRID" "NOMRES";
      example_flow "R3" "Allokation Versand" "" "BKN" "VHP" "ALOCAT" ]
    ["GRID"; "MIRA"; "BKN"; "VHP"] ["NOMINT"; "NOMRES"; "ALOCAT"] ["AS4"] ["IF-01"].

(** One flow whose name is the system name and whose description holds
    another word. *)
Definition grid_store : Store.t :=
  Store.mk [ example_flow "R1" "Grid" "foo" "GRID" "MIRA" "NOMINT" ]
    ["GRID"; "MIRA"] ["NOMINT"] ["AS4"] ["IF-01"].

(** One flow whose name is too short to give a token. *)
Definition short_name_store : Store.t :=
  Store.mk [ example_flow "R1" "XI" "" "GRID" "MIRA" "NOMINT" ]
    ["GRID"; "MIRA"] ["NOMINT"] ["AS4"] ["IF-01"].

(* ================================================================= *)
(** ** The specification's reading of three passes, for comparison *)

Definition no_entities (e : Entities.t) : bool :=
  is_nil (Entities.systems e) && is_nil (Entities.formats e)
  && is_nil (Entities.transmission_methods e) && is_nil (Entities.interfaces e).

(** The terms of the fuzzy pass as the specification words them: the
    residual, and the full token list exactly when no entity was
    recognized. *)
Definition fuzzy_terms_claimed (s : EnhancedSearch) (query : string) : list string :=
  let e := _extract_entities s query in
  if no_entities e then _tokenize (Some query) else Entities.unknown_terms e.

(** [matched_tokens] of [_extract_entities]. *)
Definition matched_tokens (s : EnhancedSearch) (query : string) : list string :=
  snd (match_all s query).

Definition is_some {A} (o : option A) : bool :=
  match o with Some _ => true | None => false end.

(** The directional pass as the specification words it: only the first
    template that matches the query is applied. *)
Definition pattern_first_match_only (ratio : string -> string -> Q)
    (s : EnhancedSearch) (query : string) (scores : Scores) : option Scores :=
  match find (fun p => is_some (Re.search (fst p) (lower query))) direction_patterns with
  | Some p => apply_pattern ratio s query p scores
  | None => Some scores
  end.

(** Monotonicity in the query as the specification words it: dropping a
    term that matches a record (a token of its name or description) from
    the query never raises the final score of that record. *)
Definition removal_never_increases (ratio : string -> string -> Q) : Prop :=
  forall (ds : Store.t) (before after : list string) (term : string)
         (flow : Flow.t) (scores scores' : Scores),
    In flow (Store.data_flows ds) ->
    In term (_tokenize (Flow.name flow) ++ _tokenize (Flow.description flow)) ->
    flow_scores ratio (init ds) (join " " (before ++ term :: after)) = Some scores ->
    flow_scores ratio (init ds) (join " " (before ++ after)) = Some scores' ->
    (score_of scores' (Flow.id flow) <= score_of scores (Flow.id flow))%Q.

(** Inputs of the examples. *)
Definition example_record : Flow.t :=
  example_flow "R1" "Nominierung Export" "Meldung an MIRA" "GRID" "MIRA" "NOMINT".

Definition zero_scores : Scores := [("R1", 0%Q); ("R2", 0%Q); ("R3", 0%Q)].

Definition two_template_query : string := "von grid nach mira from grid to mira".

(** Twenty-one flows R0 .. R20, all named "Export". *)
Definition crowded_store : Store.t :=
  Store.mk
    (map (fun i => example_flow ("R" ++ of_nat i)%string "Export" "" "GRID" "MIRA" "NOMINT")
       (seq 0 21))
    ["GRID"; "MIRA"] ["NOMINT"] ["AS4"] ["IF-01"].

(* ================================================================= *)
(** ** The service functions of main.py *)

Module Main.

(** The body of [for step in flow["process_steps"]: ... break]: some step
    has an interface that contains the query. *)
Definition interface_hit (query : string) (steps : list Step.t) : bool :=
  existsb
    (fun step =>
       truthy (Step.interface step)
       && contains query (lower (text (Step.interface step))))
    steps.

(** [flow.get(field) and query in flow[field].lower()] *)
Definition field_hit (query : string) (field : option string) : bool :=
  truthy field && contains query (lower (text field)).

(** The score that [process_basic_query] gives a flow; [query] is in lower
    case. *)
Definition basic_score (query : string) (flow : Flow.t) : Q :=
  ((if field_hit query (Flow.name flow) then 2 else 0)
   + (if field_hit query (Flow.description flow) then 1 else 0)
   + (if field_hit query (Flow.source_system flow) then 1.5 else 0)
   + (if field_hit query (Flow.target_system flow) then 1.5 else 0)
   + (if field_hit query (Flow.format flow) then 1.5 else 0)
   + (if field_hit query (Flow.transmission_method flow) then 1 else 0)
   + (if interface_hit query (Flow.process_steps flow) then 1 else 0))%Q.

Module Basic.
Record t : Type := mk {
  direct_results : list Flow.t;
  related_flows : list Flow.t;
  matching_systems : list string;
  natural_response : string;
  results : list Flow.t;
  count : nat;
  query : string
}.
End Basic.

Definition score_key (flow : Flow.t) : Q :=
  match Flow.search_score flow with
  | Some score => score
  | None => 0%Q
  end.

(** The copies of the flows of positive score, each with its score, in
    the order of the catalog. *)
Definition scored_copies (data_flows : list Flow.t) (query : string) : list Flow.t :=
  flat_map
    (fun flow =>
       let score := basic_score query flow in
       if Qlt_bool 0 score then [Flow.set_search_score flow score] else [])
    data_flows.

Definition basic_response (query : string) (results : list Flow.t) : string :=
  if is_nil results
  then ("Es wurden keine " ++ Datenfluesse ++ " gefunden, die zur Suche nach '"
          ++ query ++ "' passen.")%string
  else ("F" ++ u_uml ++ "r die Suche nach '" ++ query ++ "' wurden "
          ++ of_nat (List.length results) ++ " relevante " ++ Datenfluesse
          ++ " gefunden.")%string.

(** [process_basic_query] *)
Definition process_basic_query (data_flows : list Flow.t) (query : string)
  : Basic.t :=
  let query := lower query in
  let results := sort_desc score_key (scored_copies data_flows query) in
  let systems_in_results := systems_of results in
  let related_flows :=
    filter
      (fun flow =>
         negb (existsb (Flow.eqb flow) results)
         && (in_systems (Flow.source_system flow) systems_in_results
             || in_systems (Flow.target_system flow) systems_in_results))
      data_flows in
  Basic.mk results related_flows systems_in_results
    (basic_response query results) results (List.length results) query.

Inductive Failure : Type :=
| TypeError       (* [x in None] *)
| NotFound.       (* HTTP 404 *)

(** [[flow for flow in flows if value in flow["transmission_method"]]]:
    the test raises on a flow without transmission method. *)
Fixpoint filter_transmission (value : string) (flows : list Flow.t)
  : Failure + list Flow.t :=
  match flows with
  | [] => inr []
  | flow :: flows' =>
      match Flow.transmission_method flow with
      | None => inl TypeError
      | Some methods =>
          match filter_transmission value flows' with
          | inl e => inl e
          | inr rest => inr (if contains value methods then flow :: rest else rest)
          end
      end
  end.

(** One filter of [get_data_flows] on a field compared by equality; it
    is skipped for an absent or empty parameter. *)
Definition filter_field (field : Flow.t -> option string) (value : option string)
    (flows : list Flow.t) : list Flow.t :=
  if truthy value then filter (fun flow => field_is (field flow) (text value)) flows
  else flows.

(** [get_data_flows] *)
Definition get_data_flows (data_flows : list Flow.t)
    (source_system target_system format transmission_method : option string)
  : Failure + list Flow.t :=
  let flows := filter_field Flow.source_system source_system data_flows in
  let flows := filter_field Flow.target_system target_system flows in
  let flows := filter_field Flow.format format flows in
  if truthy transmission_method
  then filter_transmission (text transmission_method) flows
  else inr flows.

(** [get_data_flow]: the first flow with the id, else 404. *)
Definition get_data_flow (data_flows : list Flow.t) (flow_id : string)
  : Failure + Flow.t :=
  match find (fun flow => String.eqb (Flow.id flow) flow_id) data_flows with
  | Some flow => inr flow
  | None => inl NotFound
  end.

(** [if value: data_store[key].add(value)] *)
Definition add_value (value : option string) (acc : list string) : list string :=
  if truthy value then set_add (text value) acc else acc.

(** The transmission methods of one flow: the stripped non-empty parts
    when the text holds a semicolon, else the text as it is. *)
Definition add_methods (value : option string) (acc : list string) : list string :=
  if truthy value
  then if contains ";" (text value)
       then fold_left
              (fun acc method =>
                 if is_empty (strip method) then acc
                 else set_add (strip method) acc)
              (split_on ";"%char (text value)) acc
       else set_add (text value) acc
  else acc.

Definition add_interfaces (steps : list Step.t) (acc : list string) : list string :=
  fold_left (fun acc step => add_value (Step.interface step) acc) steps acc.

(** What [parse_xml_file] does with one flow that it has read from a
    [Datenfluss] element: the flow is appended, its values join the
    four sets. *)
Definition add_flow (ds : Store.t) (flow : Flow.t) : Store.t :=
  Store.mk (Store.data_flows ds ++ [flow])
    (add_value (Flow.target_system flow)
       (add_value (Flow.source_system flow) (Store.systems ds)))
    (add_value (Flow.format flow) (Store.formats ds))
    (add_methods (Flow.transmission_method flow) (Store.transmission_methods ds))
    (add_interfaces (Flow.process_steps flow) (Store.interfaces ds)).

(** The data store of [parse_xml_file] after the flows are read. *)
Definition store_of (flows : list Flow.t) : Store.t :=
  fold_left add_flow flows (Store.mk [] [] [] [] []).

End Main.

(* ================================================================= *)
(** ** Notions used by the further properties *)

(** How often a value is indexed under [k]: once when it is [k] and not
    empty. *)
Definition value_hits (value : option string) (k : string) : nat :=
  if field_is value k && negb (is_empty k) then 1 else 0.

(** How often a flow is indexed under the system [k]: once as source,
    once as target. *)
Definition role_hits (flow : Flow.t) (k : string) : nat :=
  value_hits (Flow.source_system flow) k + value_hits (Flow.target_system flow) k.

(** The transmission methods of a flow as they are indexed: the parts
    between semicolons, stripped, without the empty ones. *)
Definition methods_of (value : option string) : list string :=
  match value with
  | Some v =>
      if is_empty v then []
      else filter (fun m => negb (is_empty m)) (map strip (split_on ";"%char v))
  | None => []
  end.

(** The non-empty interfaces of the process steps of a flow. *)
Definition interfaces_of (steps : list Step.t) : list string :=
  flat_map
    (fun step =>
       match Step.interface step with
       | Some i => if is_empty i then [] else [i]
       | None => []
       end)
    steps.

(** The sum of [hits] over the flows of the catalog that have the id [f]. *)
Definition count_flows (flows : list Flow.t) (f : string) (hits : Flow.t -> nat)
  : nat :=
  list_sum (map (fun g => if String.eqb f (Flow.id g) then hits g else 0) flows).

(** The test of the system loop of [_extract_entities]: a token of the
    system name is a query token, or a variant occurs in the query. *)
Definition system_recognized (s : EnhancedSearch) (query system : string) : bool :=
  let system_tokens := to_set (_tokenize (Some system)) in
  (negb (is_nil system_tokens)
   && intersects system_tokens (to_set (_tokenize (Some query))))
  || is_some (first_variant (Dict.get_default system [] (system_variants s)) query).

(** The test of the format and transmission loops: the value or a variant
    occurs in the query. *)
Definition code_recognized (variants : Dict.t (list string)) (query value : string)
  : bool :=
  contains (lower value) (lower query)
  || is_some (first_variant (Dict.get_default value [] variants) query).

(** The test of the exact loop of [_find_best_system_match]. *)
Definition substring_related (term system : string) : bool :=
  contains (lower term) (lower system) || contains (lower system) (lower term).

(** The text that a directional template matched: keyword, white space,
    first word, filler, separator, white space, second word. *)
Definition template_text (kw sp a mid sep sp' b : string) : string :=
  (kw ++ sp ++ a ++ mid ++ sep ++ sp' ++ b)%string.

(** Two flow stores hold, entry by entry, the same ids with the same
    records up to [search_score]. *)
Definition same_store (a b : Dict.t Flow.t) : Prop :=
  Forall2 (fun x y => fst x = fst y /\ same_fields (snd x) (snd y)) a b.

(** The three equality filters of [get_data_flows] taken together: a
    filter without a value lets every flow pass. *)
Definition selected (source_system target_system format : option string)
    (flow : Flow.t) : bool :=
  (negb (truthy source_system)
   || field_is (Flow.source_system flow) (text source_system))
  && (negb (truthy target_system)
      || field_is (Flow.target_system flow) (text target_system))
  && (negb (truthy format) || field_is (Flow.format flow) (text format)).

(** The flow has no transmission method at all, not even an empty one. *)
Definition lacks_method (flow : Flow.t) : bool :=
  match Flow.transmission_method flow with
  | Some _ => false
  | None => true
  end.

(** A score that is zero or at least the smallest single credit, the 0.7
    of the description index. *)
Definition credit_sized (q : Q) : Prop := (q == 0 \/ 0.7 <= q)%Q.

(** The searcher of the example catalog after it has served the query
    "export". *)
Definition served_example : EnhancedSearch :=
  match search fuzz_ratio (init example_store) "export" default_max_results with
  | Some (_, s') => s'
  | None => init example_store
  end.

(** The transmission methods that [parse_xml_file] lists for a flow. *)
Definition listed_methods (value : option string) : list string :=
  match value with
  | Some v =>
      if is_empty v then []
      else if contains ";" v
           then filter (fun m => negb (is_empty m)) (map strip (split_on ";"%char v))
           else [v]
  | None => []
  end.

(** A flow whose name is one letter away from a word of its description. *)
Definition float_store : Store.t :=
  Store.mk [ example_flow "R1" "abcdefgh" "abcdefgx" "GRID" "MIRA" "NOMINT" ]
    ["GRID"; "MIRA"] ["NOMINT"] ["AS4"] ["IF-01"].

(** Two flows that the query "foo nomint as4 grid mira" scores 5.5
    without rounding: "B" by two systems, a format and a method, "A" by
    its name and by five words of its description. *)
Definition tie_store : Store.t :=
  Store.mk
    [ example_flow "B" "zzzzzz" "" "GRID" "MIRA" "NOMINT";
      Flow.mk "A" (Some "foo") (Some "foo foo foo foo foo") None None None None None
        [] None ]
    ["GRID"; "MIRA"] ["NOMINT"] ["AS4"] ["IF-01"].

(* ================================================================= *)
(** * Properties *)

(** ** Strings and the tokenizer *)

Lemma forall_ascii (p : ascii -> bool) :
  forallb p (map ascii_of_nat (seq 0 256)) = true -> forall c, p c = true.
Proof.
  intros H c. rewrite forallb_forall in H. apply H.
  rewrite <- (ascii_nat_embedding c). apply in_map, in_seq.
  pose proof (nat_ascii_bounded c). lia.
Qed.

Lemma token_char_normalized_b c :
  let c' := (if Ascii.eqb (lower_char c) "-" then " " else lower_char c)%char in
  implb (is_word c' || is_space c') (token_char c' || is_space c') = true.
Proof. revert c. apply forall_ascii. vm_compute. reflexivity. Qed.

Lemma token_char_normalized c :
  let c' := (if Ascii.eqb (lower_char c) "-" then " " else lower_char c)%char in
  (is_word c' || is_space c') = true ->
  (token_char c' || is_space c') = true.
Proof.
  intros c' H. pose proof (token_char_normalized_b c) as Hb.
  cbv zeta in Hb. fold c' in Hb. destruct (is_word c' || is_space c'); [|discriminate].
  exact Hb.
Qed.

Lemma token_char_fixed_b c :
  implb (token_char c || Ascii.eqb c " ")
    (Ascii.eqb (lower_char c) c
     && Ascii.eqb (if Ascii.eqb c "-" then " "%char else c) c
     && (is_word c || is_space c)) = true.
Proof. revert c. apply forall_ascii. vm_compute. reflexivity. Qed.

Lemma token_char_fixed c :
  (token_char c || Ascii.eqb c " ") = true ->
  lower_char c = c
  /\ (if Ascii.eqb c "-" then " "%char else c) = c
  /\ (is_word c || is_space c) = true.
Proof.
  intros H. pose proof (token_char_fixed_b c) as Hb. rewrite H in Hb.
  simpl in Hb. apply andb_true_iff in Hb as [Hb H3].
  apply andb_true_iff in Hb as [H1 H2].
  apply Ascii.eqb_eq in H1, H2. auto.
Qed.

Lemma token_char_not_space c : token_char c = true -> is_space c = false.
Proof.
  unfold token_char. intros H.
  apply andb_true_iff in H as [H _]. apply andb_true_iff in H as [H _].
  apply andb_true_iff in H as [_ H]. now apply negb_true_iff.
Qed.

Lemma lower_char_idem c : lower_char (lower_char c) = lower_char c.
Proof.
  apply Ascii.eqb_eq. revert c. apply forall_ascii. vm_compute. reflexivity.
Qed.

Lemma tokenize_unfold text :
  _tokenize (Some text) = filter keep_token (split (normalize text)).
Proof. destruct text; reflexivity. Qed.

Lemma sforall_app p a b :
  sforall p (a ++ b)%string = sforall p a && sforall p b.
Proof.
  induction a as [|c a IH]; simpl; [reflexivity|].
  rewrite IH. now rewrite andb_assoc.
Qed.

Lemma sforall_imp (p q : ascii -> bool) s :
  (forall c, p c = true -> q c = true) -> sforall p s = true -> sforall q s = true.
Proof.
  intros Hpq. induction s as [|c s IH]; simpl; [reflexivity|].
  intros H. apply andb_true_iff in H as [Hc Hs].
  rewrite (Hpq _ Hc). now apply IH.
Qed.

Lemma normalize_chars text :
  sforall (fun c => token_char c || is_space c) (normalize text) = true.
Proof.
  unfold normalize, replace_char, lower.
  induction text as [|c s IH]; [reflexivity|].
  cbn [smap sfilter].
  destruct (is_word _ || is_space _) eqn:E; [|exact IH].
  cbn [sforall]. rewrite IH, andb_true_r.
  now apply (token_char_normalized c).
Qed.

Lemma smap_fixed f s :
  sforall (fun c => Ascii.eqb (f c) c) s = true -> smap f s = s.
Proof.
  induction s as [|c s IH]; simpl; [reflexivity|].
  intros H. apply andb_true_iff in H as [Hc Hs].
  apply Ascii.eqb_eq in Hc. now rewrite Hc, IH.
Qed.

Lemma sfilter_all p s : sforall p s = true -> sfilter p s = s.
Proof.
  induction s as [|c s IH]; simpl; [reflexivity|].
  intros H. apply andb_true_iff in H as [Hc Hs].
  now rewrite Hc, IH.
Qed.

Lemma normalize_fixed s :
  sforall (fun c => token_char c || Ascii.eqb c " ") s = true -> normalize s = s.
Proof.
  intros H. unfold normalize, replace_char, lower.
  rewrite (smap_fixed lower_char), smap_fixed, sfilter_all; trivial.
  - revert H. apply sforall_imp. intros c Hc. now apply token_char_fixed.
  - revert H. apply sforall_imp. intros c Hc.
    apply token_char_fixed in Hc as (_ & -> & _). apply Ascii.eqb_refl.
  - revert H. apply sforall_imp. intros c Hc.
    apply token_char_fixed in Hc as (-> & _). apply Ascii.eqb_refl.
Qed.

(** Every token that [split] returns is made of the non-space characters
    of the text. *)
Lemma split_from_chars (q : ascii -> bool) s : forall cur,
  sforall q cur = true ->
  sforall (fun c => q c || is_space c) s = true ->
  Forall (fun t => sforall q t = true) (split_from cur s).
Proof.
  induction s as [|c s IH]; simpl; intros cur Hcur Hs.
  - destruct (is_empty cur); auto.
  - apply andb_true_iff in Hs as [Hc Hs].
    destruct (is_space c) eqn:Esp.
    + destruct (is_empty cur); [now apply IH|].
      constructor; [assumption|]. now apply IH.
    + rewrite orb_false_r in Hc. apply IH; [|assumption].
      rewrite sforall_app. simpl. now rewrite Hcur, Hc.
Qed.

Lemma string_app_assoc (a b c : string) : ((a ++ b) ++ c = a ++ (b ++ c))%string.
Proof. induction a as [|x a IH]; simpl; [reflexivity|]. now rewrite IH. Qed.

Lemma string_app_nil_r (a : string) : (a ++ "")%string = a.
Proof. induction a as [|x a IH]; simpl; [reflexivity|]. now rewrite IH. Qed.

Lemma split_from_word t : forall cur s,
  sforall (fun c => negb (is_space c)) t = true ->
  split_from cur (t ++ s)%string = split_from (cur ++ t)%string s.
Proof.
  induction t as [|c t IH]; simpl; intros cur s H.
  - now rewrite string_app_nil_r.
  - apply andb_true_iff in H as [Hc Ht].
    apply negb_true_iff in Hc. rewrite Hc.
    rewrite IH by assumption. now rewrite string_app_assoc.
Qed.

Lemma join_cons sep t ts :
  join sep (t :: ts) = match ts with [] => t | _ => (t ++ sep ++ join sep ts)%string end.
Proof. destruct ts; reflexivity. Qed.

(** [" ".join(tokens).split()] gives the tokens back. *)
Lemma split_join tokens :
  Forall (fun t => sforall token_char t = true /\ t <> ""%string) tokens ->
  split (join " " tokens) = tokens.
Proof.
  unfold split. induction 1 as [|t ts [Ht Hne] Hts IH]; [reflexivity|].
  assert (Hns : sforall (fun c => negb (is_space c)) t = true).
  { revert Ht. apply sforall_imp. intros c Hc.
    now rewrite (token_char_not_space _ Hc). }
  rewrite join_cons. destruct ts as [|t' ts'].
  - rewrite <- (string_app_nil_r t) at 1.
    rewrite split_from_word by assumption. simpl.
    destruct t; [congruence|reflexivity].
  - rewrite split_from_word by assumption.
    change (" " ++ join " " (t' :: ts'))%string
      with (String " " (join " " (t' :: ts'))).
    cbn [split_from]. change (is_space " ") with true. cbv iota.
    destruct t; [congruence|]. cbn [append is_empty].
    now rewrite IH.
Qed.

Lemma join_chars (q : ascii -> bool) tokens :
  Forall (fun t => sforall q t = true) tokens ->
  sforall (fun c => q c || Ascii.eqb c " ") (join " " tokens) = true.
Proof.
  induction 1 as [|t ts Ht Hts IH]; [reflexivity|].
  assert (Ht' : sforall (fun c => q c || Ascii.eqb c " ") t = true).
  { revert Ht. apply sforall_imp. intros c ->. reflexivity. }
  rewrite join_cons. destruct ts; [assumption|].
  rewrite sforall_app, Ht'. simpl sforall at 1.
  rewrite orb_true_r. exact IH.
Qed.

Lemma filter_idem {A} (p : A -> bool) l : filter p (filter p l) = filter p l.
Proof.
  induction l as [|x l IH]; simpl; [reflexivity|].
  destruct (p x) eqn:E; simpl; [rewrite E|]; now rewrite IH.
Qed.

Lemma keep_token_nonempty t : keep_token t = true -> t <> ""%string.
Proof. intros H ->. discriminate. Qed.

(** The tokens are made of token characters. *)
Lemma tokenize_chars text :
  Forall (fun t => sforall token_char t = true /\ t <> ""%string) (_tokenize text).
Proof.
  destruct text as [text|]; [|constructor].
  rewrite tokenize_unfold.
  apply Forall_forall. intros t Ht. apply filter_In in Ht as [Ht Hk].
  split; [|now apply keep_token_nonempty].
  pose proof (split_from_chars token_char (normalize text) ""
                eq_refl (normalize_chars text)) as H.
  rewrite Forall_forall in H. now apply H.
Qed.

(** C8. Tokenizing the space-joined tokens of a text gives the same token
    sequence again, and an empty or absent text has no tokens. *)
Theorem tokenize_rejoin_idempotent :
  (forall text : option string,
      _tokenize (Some (join " " (_tokenize text))) = _tokenize text)
  /\ _tokenize (Some ""%string) = []
  /\ _tokenize None = [].
Proof.
  split; [|split; reflexivity].
  intros text. pose proof (tokenize_chars text) as Hchars.
  rewrite tokenize_unfold, normalize_fixed, split_join; trivial.
  - destruct text as [text|]; [|reflexivity].
    rewrite tokenize_unfold. apply filter_idem.
  - apply join_chars. revert Hchars. apply Forall_impl. now intros t [H _].
Qed.

(** ** Dictionaries *)

Section DictFacts.

Context {V : Type}.
Implicit Types (d : Dict.t V) (k : string) (v : V).

Lemma get_set_same k v d : Dict.get k (Dict.set k v d) = Some v.
Proof.
  induction d as [|[k' v'] d IH]; simpl.
  - now rewrite String.eqb_refl.
  - destruct (String.eqb k k') eqn:E; simpl; rewrite E; [reflexivity|exact IH].
Qed.

Lemma get_set_other k k' v d :
  k' <> k -> Dict.get k' (Dict.set k v d) = Dict.get k' d.
Proof.
  intros Hne. induction d as [|[k0 v0] d IH]; simpl.
  - apply String.eqb_neq in Hne. now rewrite Hne.
  - destruct (String.eqb k k0) eqn:E; simpl.
    + apply String.eqb_eq in E. subst k0.
      apply String.eqb_neq in Hne. now rewrite Hne.
    + now rewrite IH.
Qed.

Lemma get_in_keys k d : In k (Dict.keys d) <-> Dict.get k d <> None.
Proof.
  induction d as [|[k' v'] d IH]; simpl.
  - split; [tauto|congruence].
  - destruct (String.eqb k k') eqn:E.
    + apply String.eqb_eq in E. subst. split; [congruence|auto].
    + apply String.eqb_neq in E. rewrite <- IH. split; [|tauto].
      intros [H|H]; [congruence|assumption].
Qed.

Lemma get_some_in_keys k v d : Dict.get k d = Some v -> In k (Dict.keys d).
Proof. intros H. apply get_in_keys. congruence. Qed.

Lemma in_keys_get k d : In k (Dict.keys d) -> exists v, Dict.get k d = Some v.
Proof.
  intros H. apply get_in_keys in H.
  destruct (Dict.get k d) as [v|]; [eauto|congruence].
Qed.

Lemma get_some_in k v d : Dict.get k d = Some v -> In (k, v) d.
Proof.
  induction d as [|[k' v'] d IH]; simpl; [discriminate|].
  destruct (String.eqb k k') eqn:E.
  - apply String.eqb_eq in E. intros [= ->]. subst. now left.
  - auto.
Qed.

Lemma in_get_nodup k v d :
  NoDup (Dict.keys d) -> In (k, v) d -> Dict.get k d = Some v.
Proof.
  induction d as [|[k' v'] d IH]; simpl; [tauto|].
  intros Hnd [H|H].
  - injection H as -> ->. now rewrite String.eqb_refl.
  - inversion Hnd as [|? ? Hnot Hnd']; subst.
    destruct (String.eqb k k') eqn:E; [|auto].
    apply String.eqb_eq in E. subst. exfalso. apply Hnot.
    change k' with (fst (k', v)). now apply in_map.
Qed.

Lemma keys_set_present k v d :
  In k (Dict.keys d) -> Dict.keys (Dict.set k v d) = Dict.keys d.
Proof.
  induction d as [|[k' v'] d IH]; simpl; [tauto|].
  intros H. destruct (String.eqb k k') eqn:E; simpl; [reflexivity|].
  f_equal. apply IH. destruct H as [H|H]; [|assumption].
  apply String.eqb_neq in E. congruence.
Qed.

Lemma keys_set_absent k v d :
  ~ In k (Dict.keys d) -> Dict.keys (Dict.set k v d) = Dict.keys d ++ [k].
Proof.
  induction d as [|[k' v'] d IH]; simpl; [reflexivity|].
  intros H. destruct (String.eqb k k') eqn:E; simpl.
  - apply String.eqb_eq in E. subst. tauto.
  - f_equal. apply IH. tauto.
Qed.

Lemma keys_set_incl k v d k' :
  In k' (Dict.keys (Dict.set k v d)) <-> k' = k \/ In k' (Dict.keys d).
Proof.
  destruct (in_dec string_dec k (Dict.keys d)) as [H|H].
  - rewrite keys_set_present by assumption. split; [tauto|].
    intros [->|]; assumption.
  - rewrite keys_set_absent, in_app_iff by assumption. simpl.
    split; intros [?|?]; auto. destruct H0; [auto|tauto].
Qed.

Lemma nodup_keys_set k v d :
  NoDup (Dict.keys d) -> NoDup (Dict.keys (Dict.set k v d)).
Proof.
  intros Hnd. destruct (in_dec string_dec k (Dict.keys d)) as [H|H].
  - now rewrite keys_set_present.
  - rewrite keys_set_absent by assumption.
    apply NoDup_app; [assumption|repeat constructor; auto|].
    intros x Hx [<-|[]]. tauto.
Qed.

Lemma in_set d k v k' v' :
  In (k', v') (Dict.set k v d) -> (k' = k /\ v' = v) \/ In (k', v') d.
Proof.
  induction d as [|[k0 v0] d IH]; simpl.
  - intros [[= <- <-]|[]]. auto.
  - destruct (String.eqb k k0) eqn:E; simpl.
    + apply String.eqb_eq in E. subst k0.
      intros [[= <- <-]|H]; auto.
    + intros [H|H]; [auto|]. apply IH in H. tauto.
Qed.

Lemma get_default_some k v dflt d :
  Dict.get k d = Some v -> Dict.get_default k dflt d = v.
Proof. unfold Dict.get_default. now intros ->. Qed.

Lemma get_default_none k dflt d :
  Dict.get k d = None -> Dict.get_default k dflt d = dflt.
Proof. unfold Dict.get_default. now intros ->. Qed.

End DictFacts.

(** ** Loops in the error monad *)

Lemma for_each_app {A S} (l1 l2 : list A) (body : A -> S -> option S) st :
  for_each (l1 ++ l2) body st
  = match for_each l1 body st with
    | Some st' => for_each l2 body st'
    | None => None
    end.
Proof.
  revert st. induction l1 as [|x l1 IH]; intros st; simpl; [reflexivity|].
  destruct (body x st); [apply IH|reflexivity].
Qed.

(** A loop keeps what every run of its body keeps. *)
Lemma for_each_invariant {A S} (P : S -> Prop) (l : list A)
    (body : A -> S -> option S) :
  (forall x st, In x l -> P st -> exists st', body x st = Some st' /\ P st') ->
  forall st, P st -> exists st', for_each l body st = Some st' /\ P st'.
Proof.
  induction l as [|x l IH]; intros Hbody st Hst; simpl; [eauto|].
  destruct (Hbody x st (or_introl eq_refl) Hst) as (st1 & -> & H1).
  apply IH; [|assumption]. intros y st2 Hy. apply Hbody. now right.
Qed.

(** ** Sums of rationals *)

Lemma qsum_app l1 l2 : (qsum (l1 ++ l2) == qsum l1 + qsum l2)%Q.
Proof.
  induction l1 as [|x l1 IH]; simpl.
  - now rewrite Qplus_0_l.
  - rewrite IH. apply Qplus_assoc.
Qed.

Lemma qsum_nonneg l : Forall (fun x => 0 <= x)%Q l -> (0 <= qsum l)%Q.
Proof.
  induction 1 as [|x l Hx Hl IH]; simpl; [apply Qle_refl|].
  rewrite <- (Qplus_0_l 0). now apply Qplus_le_compat.
Qed.

Lemma sum_over_nonneg {A} (l : list A) c :
  (forall x, In x l -> 0 <= c x)%Q -> (0 <= sum_over l c)%Q.
Proof.
  intros H. apply qsum_nonneg, Forall_forall. intros q Hq.
  apply in_map_iff in Hq as (x & <- & Hx). auto.
Qed.

Lemma sum_over_app {A} (l1 l2 : list A) c :
  (sum_over (l1 ++ l2) c == sum_over l1 c + sum_over l2 c)%Q.
Proof. unfold sum_over. rewrite map_app. apply qsum_app. Qed.

Lemma sum_over_cons {A} (x : A) l c : sum_over (x :: l) c = (c x + sum_over l c)%Q.
Proof. reflexivity. Qed.

Lemma sum_over_ext {A} (l : list A) c c' :
  (forall x, In x l -> c x == c' x)%Q -> (sum_over l c == sum_over l c')%Q.
Proof.
  induction l as [|x l IH]; intros H; [reflexivity|].
  rewrite !sum_over_cons. apply Qplus_comp.
  - apply H. now left.
  - apply IH. intros y Hy. apply H. now right.
Qed.

Lemma sum_over_zero {A} (l : list A) c :
  (forall x, In x l -> c x == 0)%Q -> (sum_over l c == 0)%Q.
Proof.
  intros H. rewrite (sum_over_ext l c (fun _ => 0%Q)) by assumption.
  clear H. induction l as [|x l IH]; [reflexivity|].
  rewrite sum_over_cons, IH. ring.
Qed.

Lemma times_nonneg n w : (0 <= w)%Q -> (0 <= times n w)%Q.
Proof.
  intros H. unfold times. apply Qmult_le_0_compat; [|assumption].
  change 0%Q with (inject_Z 0). rewrite <- Zle_Qle. lia.
Qed.

Lemma times_succ n w : (times (S n) w == w + times n w)%Q.
Proof.
  unfold times. rewrite Nat2Z.inj_succ, <- Z.add_1_l, inject_Z_plus. ring.
Qed.

Lemma times_zero w : (times 0 w == 0)%Q.
Proof. unfold times. simpl. ring. Qed.

Lemma times_pos_ge n w : (0 < n)%nat -> (0 <= w)%Q -> (w <= times n w)%Q.
Proof.
  intros Hn Hw. destruct n as [|n]; [lia|].
  rewrite times_succ. rewrite <- (Qplus_0_r w) at 1.
  apply Qplus_le_compat; [apply Qle_refl|now apply times_nonneg].
Qed.

(** The credits to [f] along a list of ids, each of weight [w]. *)
Lemma sum_credit_of f ids w :
  (sum_over ids (fun fid => credit_of f fid w) == times (occurrences f ids) w)%Q.
Proof.
  unfold occurrences. induction ids as [|fid ids IH].
  - simpl. now rewrite times_zero.
  - rewrite sum_over_cons, IH. simpl filter. unfold credit_of.
    destruct (String.eqb f fid); simpl List.length.
    + now rewrite times_succ.
    + ring.
Qed.

(** ** Steps on the score map *)

Lemma score_of_set_same (m : Scores) fid v : score_of (Dict.set fid v m) fid = v.
Proof. unfold score_of, Dict.get_default. now rewrite get_set_same. Qed.

Lemma score_of_set_other (m : Scores) fid v f :
  f <> fid -> score_of (Dict.set fid v m) f = score_of m f.
Proof. intros H. unfold score_of, Dict.get_default. now rewrite get_set_other. Qed.

Lemma credits_add K w fid :
  In fid K -> credits K (add_score w fid) (fun f => credit_of f fid w).
Proof.
  intros Hin m HK. subst K. unfold add_score.
  destruct (in_keys_get _ _ Hin) as (v & Hv). rewrite Hv.
  eexists. split; [reflexivity|]. split; [now apply keys_set_present|].
  intros f. unfold credit_of. destruct (String.eqb f fid) eqn:E.
  - apply String.eqb_eq in E. subst f. rewrite score_of_set_same.
    unfold score_of, Dict.get_default. rewrite Hv. reflexivity.
  - apply String.eqb_neq in E. rewrite score_of_set_other by assumption. ring.
Qed.

Lemma credits_skip K : credits K (@Some Scores) (fun _ => 0%Q).
Proof. intros m HK. exists m. repeat split; trivial. intros f. ring. Qed.

Lemma credits_ext K g c c' :
  credits K g c -> (forall f, c f == c' f)%Q -> credits K g c'.
Proof.
  intros Hg Hc m HK. destruct (Hg m HK) as (m' & H1 & H2 & H3).
  exists m'. repeat split; trivial. intros f. now rewrite H3, Hc.
Qed.

Lemma credits_bind K g1 g2 c1 c2 :
  credits K g1 c1 -> credits K g2 c2 ->
  credits K (fun m => m' <- g1 m ;; g2 m') (fun f => c1 f + c2 f)%Q.
Proof.
  intros H1 H2 m HK. destruct (H1 m HK) as (m1 & -> & HK1 & Hc1).
  destruct (H2 m1 HK1) as (m2 & -> & HK2 & Hc2).
  exists m2. repeat split; trivial. intros f. rewrite Hc2, Hc1. ring.
Qed.

Lemma credits_for_each {A} K (l : list A) body (c : string -> A -> Q) :
  (forall x, In x l -> credits K (body x) (fun f => c f x)) ->
  credits K (for_each l body) (fun f => sum_over l (c f)).
Proof.
  induction l as [|x l IH]; intros Hbody.
  - apply credits_skip.
  - apply (credits_bind K (body x) (for_each l body)).
    + apply Hbody. now left.
    + apply IH. intros y Hy. apply Hbody. now right.
Qed.

(** A step that only credits never lowers a score. *)
Lemma credits_monotone K g c m :
  credits K g c -> Dict.keys m = K -> (forall f, 0 <= c f)%Q ->
  exists m', g m = Some m' /\ Dict.keys m' = K
             /\ forall f, (score_of m f <= score_of m' f)%Q.
Proof.
  intros Hg HK Hc. destruct (Hg m HK) as (m' & H1 & H2 & H3).
  exists m'. repeat split; trivial. intros f. rewrite H3.
  rewrite <- (Qplus_0_r (score_of m f)) at 1.
  apply Qplus_le_compat; [apply Qle_refl|apply Hc].
Qed.

Lemma credits_index K idx w key :
  index_ok K idx ->
  credits K (credit_index idx w key) (fun f => index_credit idx w f key).
Proof.
  intros Hok. unfold credit_index, index_credit, Dict.get_default.
  destruct (Dict.get key idx) as [ids|] eqn:E.
  - eapply credits_ext.
    + apply (credits_for_each K ids (add_score w) (fun f fid => credit_of f fid w)).
      intros fid Hfid. apply credits_add. eapply Hok; eassumption.
    + intros f. apply sum_credit_of.
  - eapply credits_ext; [apply credits_skip|].
    intros f. simpl. now rewrite times_zero.
Qed.

Lemma credits_index_loop K idx w keys :
  index_ok K idx ->
  credits K (for_each keys (credit_index idx w))
    (fun f => sum_over keys (index_credit idx w f)).
Proof.
  intros Hok. apply credits_for_each. intros key _. now apply credits_index.
Qed.

Lemma index_credit_nonneg idx w f key : (0 <= w)%Q -> (0 <= index_credit idx w f key)%Q.
Proof. intros H. now apply times_nonneg. Qed.

Lemma system_weight_nonneg direction system flow :
  (0 <= system_weight direction system flow)%Q.
Proof.
  unfold system_weight.
  repeat match goal with |- context [if ?b then _ else _] => destruct b end;
    discriminate.
Qed.

Lemma Qplus_nonneg a b : (0 <= a -> 0 <= b -> 0 <= a + b)%Q.
Proof.
  intros Ha Hb. rewrite <- (Qplus_0_l 0). now apply Qplus_le_compat.
Qed.

Lemma credit_of_nonneg f fid w : (0 <= w)%Q -> (0 <= credit_of f fid w)%Q.
Proof. unfold credit_of. destruct (String.eqb f fid); [auto|discriminate]. Qed.

Section PassFacts.

Variable s : EnhancedSearch.
Hypothesis Hwf : well_formed s.

Lemma credits_system direction system :
  credits (Dict.keys (flow_index s)) (credit_system s direction system)
    (fun f => system_credit s direction f system).
Proof.
  unfold credit_system, system_credit, Dict.get_default.
  destruct (Dict.get system (system_index s)) as [ids|] eqn:E.
  - apply credits_for_each. intros fid Hfid m HK.
    assert (Hin : In fid (Dict.keys (flow_index s))) by (eapply (wf_system s Hwf); eassumption).
    unfold weight_of. destruct (in_keys_get _ _ Hin) as (flow & ->).
    now apply credits_add.
  - apply credits_skip.
Qed.

Lemma credits_entities e :
  credits (Dict.keys (flow_index s)) (_search_with_entities s e) (entity_credit s e).
Proof.
  unfold _search_with_entities, entity_credit.
  eapply credits_ext.
  - apply credits_bind; [|apply credits_bind; [|apply credits_bind]].
    + apply credits_for_each. intros system _. apply credits_system.
    + apply credits_index_loop, (wf_format s Hwf).
    + apply credits_index_loop, (wf_transmission s Hwf).
    + apply credits_index_loop, (wf_interface s Hwf).
  - intros f. cbv beta. rewrite !Qplus_assoc. reflexivity.
Qed.

Lemma credits_fulltext tokens :
  credits (Dict.keys (flow_index s)) (_fulltext_search s tokens) (fulltext_credit s tokens).
Proof.
  unfold _fulltext_search, fulltext_credit.
  apply credits_bind; apply credits_index_loop;
    [apply (wf_name s Hwf)|apply (wf_description s Hwf)].
Qed.

Lemma system_credit_nonneg direction f system :
  (0 <= system_credit s direction f system)%Q.
Proof.
  apply sum_over_nonneg. intros fid _. apply credit_of_nonneg.
  unfold weight_of. destruct (Dict.get fid (flow_index s)); [|discriminate].
  apply system_weight_nonneg.
Qed.

Lemma entity_credit_nonneg e f : (0 <= entity_credit s e f)%Q.
Proof.
  unfold entity_credit.
  repeat apply Qplus_nonneg;
    apply sum_over_nonneg; intros x _;
    first [apply system_credit_nonneg | apply index_credit_nonneg; discriminate].
Qed.

Lemma fulltext_credit_nonneg tokens f : (0 <= fulltext_credit s tokens f)%Q.
Proof.
  unfold fulltext_credit.
  apply Qplus_nonneg; apply sum_over_nonneg; intros x _;
    apply index_credit_nonneg; discriminate.
Qed.

End PassFacts.

(** ** The vocabulary of the fuzzy pass *)

Lemma mem_app x l1 l2 : mem x (l1 ++ l2) = mem x l1 || mem x l2.
Proof. unfold mem. apply existsb_app. Qed.

Lemma mem_singleton x y : mem x [y] = String.eqb x y.
Proof. unfold mem. simpl. apply orb_false_r. Qed.

Lemma mem_In x l : mem x l = true <-> In x l.
Proof.
  unfold mem. rewrite existsb_exists. split.
  - intros (y & Hy & E). apply String.eqb_eq in E. now subst.
  - intros H. exists x. split; [assumption|apply String.eqb_refl].
Qed.

Lemma occurrences_app x l1 l2 :
  occurrences x (l1 ++ l2) = occurrences x l1 + occurrences x l2.
Proof. unfold occurrences. now rewrite filter_app, length_app. Qed.

Lemma occurrences_pos x l : 0 < occurrences x l <-> In x l.
Proof.
  unfold occurrences. induction l as [|y l IH]; simpl.
  - split; [lia|tauto].
  - destruct (String.eqb x y) eqn:E; simpl.
    + apply String.eqb_eq in E. subst. split; [auto|lia].
    + apply String.eqb_neq in E. rewrite IH. split; [auto|].
      intros [H|H]; [congruence|assumption].
Qed.

Lemma tokenize_falsy name : truthy name = false -> _tokenize name = [].
Proof. destruct name as [[|c n]|]; [reflexivity|discriminate|reflexivity]. Qed.

Lemma add_term_ok count fid token acc :
  voc_ok count acc ->
  exists acc', add_term fid token acc = Some acc'
    /\ voc_ok (fun t f => count t f
                          + if String.eqb t token && String.eqb f fid then 1 else 0)
         acc'.
Proof.
  intros [Hkeys Hcount]. unfold add_term.
  set (acc1 := if mem token (fst acc) then acc
               else (fst acc ++ [token], Dict.set token [] (snd acc))).
  assert (H1 : voc_ok count acc1 /\ mem token (fst acc1) = true).
  { subst acc1. destruct (mem token (fst acc)) eqn:E;
      [split; [exact (conj Hkeys Hcount)|exact E]|].
    unfold voc_ok. cbn [fst snd]. split; [split|].
    - intros t. rewrite mem_app, mem_singleton.
      destruct (String.eqb t token) eqn:Et.
      + apply String.eqb_eq in Et. subst t. rewrite get_set_same, orb_true_r.
        split; [congruence|reflexivity].
      + apply String.eqb_neq in Et. rewrite get_set_other, orb_false_r by assumption.
        apply Hkeys.
    - intros t f. rewrite <- Hcount. unfold Dict.get_default.
      destruct (String.eqb t token) eqn:Et.
      + apply String.eqb_eq in Et. subst t. rewrite get_set_same.
        assert (Hn : Dict.get token (snd acc) = None).
        { destruct (Dict.get token (snd acc)) eqn:G; [|reflexivity].
          assert (Hm : mem token (fst acc) = true) by (apply Hkeys; congruence).
          congruence. }
        now rewrite Hn.
      + apply String.eqb_neq in Et. now rewrite get_set_other.
    - rewrite mem_app, mem_singleton. now rewrite String.eqb_refl, orb_true_r. }
  clearbody acc1. destruct H1 as [[Hkeys1 Hcount1] Hmem].
  destruct (Dict.get token (snd acc1)) as [ids|] eqn:G.
  2:{ apply Hkeys1 in Hmem. congruence. }
  eexists. split; [reflexivity|]. split; simpl.
  - intros t. rewrite Hkeys1. destruct (String.eqb t token) eqn:Et.
    + apply String.eqb_eq in Et. subst t. rewrite get_set_same, G.
      split; congruence.
    + apply String.eqb_neq in Et. now rewrite get_set_other.
  - intros t f. rewrite <- Hcount1. unfold Dict.get_default.
    destruct (String.eqb t token) eqn:Et; simpl.
    + apply String.eqb_eq in Et. subst t. rewrite get_set_same, G.
      rewrite occurrences_app. unfold occurrences at 2. simpl.
      now destruct (String.eqb f fid).
    + apply String.eqb_neq in Et. rewrite get_set_other by assumption. lia.
Qed.

Lemma voc_ok_ext count count' acc :
  (forall t f, count t f = count' t f) -> voc_ok count acc -> voc_ok count' acc.
Proof.
  intros H [H1 H2]. split; [assumption|]. intros t f. now rewrite <- H.
Qed.

Lemma add_terms_ok fid tokens : forall count acc,
  voc_ok count acc ->
  exists acc', for_each tokens (add_term fid) acc = Some acc'
    /\ voc_ok (fun t f => count t f
                          + if String.eqb f fid then occurrences t tokens else 0)
         acc'.
Proof.
  induction tokens as [|token tokens IH]; intros count acc Hok; simpl.
  - exists acc. split; [reflexivity|].
    revert Hok. apply voc_ok_ext. intros t f.
    destruct (String.eqb f fid); unfold occurrences; simpl; lia.
  - destruct (add_term_ok count fid token acc Hok) as (acc1 & -> & H1).
    destruct (IH _ acc1 H1) as (acc2 & -> & H2).
    exists acc2. split; [reflexivity|].
    revert H2. apply voc_ok_ext. intros t f. unfold occurrences. simpl.
    destruct (String.eqb f fid), (String.eqb t token); simpl; lia.
Qed.

Lemma vocabulary_from flows : forall count acc,
  voc_ok count acc ->
  exists acc',
    for_each flows
      (fun entry acc =>
         if truthy (Flow.name (snd entry))
         then for_each (_tokenize (Flow.name (snd entry))) (add_term (fst entry)) acc
         else Some acc) acc = Some acc'
    /\ voc_ok (fun t f => count t f + name_count flows t f) acc'.
Proof.
  induction flows as [|[fid flow] flows IH]; intros count acc Hok.
  - exists acc. split; [reflexivity|].
    revert Hok. apply voc_ok_ext. intros t f. unfold name_count. simpl. lia.
  - cbn [for_each fst snd].
    assert (H1 : exists acc1,
               (if truthy (Flow.name flow)
                then for_each (_tokenize (Flow.name flow)) (add_term fid) acc
                else Some acc) = Some acc1
               /\ voc_ok (fun t f => count t f
                            + if String.eqb f fid
                              then occurrences t (_tokenize (Flow.name flow)) else 0)
                    acc1).
    { destruct (truthy (Flow.name flow)) eqn:E; [now apply add_terms_ok|].
      exists acc. split; [reflexivity|].
      revert Hok. apply voc_ok_ext. intros t f.
      rewrite (tokenize_falsy _ E). destruct (String.eqb f fid); unfold occurrences; simpl; lia. }
    destruct H1 as (acc1 & -> & H1).
    destruct (IH _ acc1 H1) as (acc2 & H2 & H3).
    exists acc2. split; [exact H2|].
    revert H3. apply voc_ok_ext. intros t f. unfold name_count. simpl. lia.
Qed.

(** The vocabulary loop never fails, and its map lists every flow under
    each token of its name, once per occurrence. *)
Lemma vocabulary_ok flows :
  exists voc, vocabulary flows = Some voc /\ voc_ok (name_count flows) voc.
Proof.
  destruct (vocabulary_from flows (fun _ _ => 0) ([], [])) as (voc & H1 & H2).
  - split; [|reflexivity]. intros t. simpl. split; [discriminate|congruence].
  - exists voc. split; [exact H1|]. revert H2. now apply voc_ok_ext.
Qed.

Lemma name_count_absent flows token f :
  ~ In f (Dict.keys flows) -> name_count flows token f = 0.
Proof.
  unfold name_count. induction flows as [|[fid flow] flows IH]; simpl; [reflexivity|].
  intros H. destruct (String.eqb f fid) eqn:E.
  - apply String.eqb_eq in E. subst. tauto.
  - rewrite IH by tauto. reflexivity.
Qed.

Lemma name_count_get flows token f flow :
  NoDup (Dict.keys flows) -> Dict.get f flows = Some flow ->
  name_count flows token f = occurrences token (_tokenize (Flow.name flow)).
Proof.
  unfold name_count. induction flows as [|[fid fl] flows IH]; simpl; [discriminate|].
  intros Hnd. inversion Hnd as [|? ? Hnot Hnd']; subst.
  destruct (String.eqb f fid) eqn:E.
  - apply String.eqb_eq in E. subst fid. intros [= ->].
    fold (name_count flows token f). rewrite name_count_absent by assumption. lia.
  - intros H. now rewrite IH.
Qed.

(** ** The fuzzy and the directional pass, and the final scores *)

Lemma keys_zero_scores (K : list string) :
  Dict.keys (map (fun fid => (fid, 0%Q)) K) = K.
Proof. unfold Dict.keys. rewrite map_map. simpl. apply map_id. Qed.

Lemma score_of_zero_scores (K : list string) f :
  score_of (map (fun fid => (fid, 0%Q)) K) f = 0%Q.
Proof.
  unfold score_of, Dict.get_default.
  induction K as [|k K IH]; simpl; [reflexivity|].
  destruct (String.eqb f k); [reflexivity|exact IH].
Qed.

Section FuzzyFacts.

Variable ratio : string -> string -> Q.
Variable s : EnhancedSearch.
Hypothesis Hwf : well_formed s.

Lemma credits_match voc m :
  voc_ok (name_count (flow_index s)) voc ->
  credits (Dict.keys (flow_index s)) (credit_match (snd voc) m) (fun f => match_credit (snd voc) f m).
Proof.
  intros [_ Hcount]. unfold credit_match, match_credit.
  destruct (Qle_bool 80 (snd (fst m))); [|apply credits_skip].
  eapply credits_ext.
  - apply (credits_for_each (Dict.keys (flow_index s)) _ _ (fun f fid => credit_of f fid (snd (fst m) / 100))).
    intros fid Hfid. apply credits_add.
    apply occurrences_pos in Hfid. rewrite Hcount in Hfid.
    destruct (in_dec string_dec fid (Dict.keys (flow_index s))) as [H|H]; [assumption|].
    rewrite name_count_absent in Hfid by assumption. lia.
  - intros f. apply sum_credit_of.
Qed.

Lemma credits_term voc term :
  voc_ok (name_count (flow_index s)) voc ->
  credits (Dict.keys (flow_index s)) (credit_term ratio (fst voc) (snd voc) term)
    (fun f => term_credit ratio (fst voc) (snd voc) f term).
Proof.
  intros Hvoc. unfold credit_term, term_credit.
  destruct (String.length term <? 3); [apply credits_skip|].
  apply credits_for_each. intros m _. now apply credits_match.
Qed.

Lemma credits_fuzzy :
  exists voc,
    vocabulary (flow_index s) = Some voc
    /\ voc_ok (name_count (flow_index s)) voc
    /\ forall terms,
         credits (Dict.keys (flow_index s)) (_fuzzy_term_matching ratio s terms)
           (fuzzy_credit ratio voc terms).
Proof.
  destruct (vocabulary_ok (flow_index s)) as (voc & Hvoc & Hok).
  exists voc. split; [exact Hvoc|]. split; [exact Hok|].
  intros terms m HK.
  unfold _fuzzy_term_matching.
  destruct terms as [|term terms]; [exact (credits_skip (Dict.keys (flow_index s)) m HK)|].
  cbn [is_nil]. rewrite Hvoc.
  apply (credits_for_each (Dict.keys (flow_index s)) (term :: terms) _
           (fun f t => term_credit ratio (fst voc) (snd voc) f t)); [|exact HK].
  intros t _. now apply credits_term.
Qed.

Lemma match_credit_nonneg map f m : (0 <= match_credit map f m)%Q.
Proof.
  unfold match_credit. destruct (Qle_bool 80 (snd (fst m))) eqn:E; [|discriminate].
  apply times_nonneg. apply Qle_bool_iff in E.
  apply Qle_shift_div_l; [reflexivity|].
  eapply Qle_trans; [|exact E]. discriminate.
Qed.

Lemma term_credit_nonneg all_terms map f term :
  (0 <= term_credit ratio all_terms map f term)%Q.
Proof.
  unfold term_credit. destruct (String.length term <? 3); [discriminate|].
  apply sum_over_nonneg. intros m _. apply match_credit_nonneg.
Qed.

Lemma fuzzy_credit_nonneg voc terms f : (0 <= fuzzy_credit ratio voc terms f)%Q.
Proof. apply sum_over_nonneg. intros t _. apply term_credit_nonneg. Qed.

Lemma in_flow_index_key (entry : string * Flow.t) :
  In entry (flow_index s) -> In (fst entry) (Dict.keys (flow_index s)).
Proof. intros H. now apply in_map. Qed.

Lemma credits_pattern query p :
  credits (Dict.keys (flow_index s)) (apply_pattern ratio s query p)
    (fun f => pattern_credit ratio s query f p).
Proof.
  unfold apply_pattern, pattern_credit.
  destruct (resolve_pattern ratio s query (fst p)) as [[system1 system2]|];
    [|apply credits_skip].
  apply credits_for_each. intros entry Hentry.
  destruct (pattern_hit (snd p) system1 system2 (snd entry)); [|apply credits_skip].
  apply credits_add. now apply in_flow_index_key.
Qed.

Lemma credits_patterns query :
  credits (Dict.keys (flow_index s)) (_pattern_based_search ratio s query)
    (fun f => sum_over direction_patterns (pattern_credit ratio s query f)).
Proof.
  unfold _pattern_based_search. apply credits_for_each.
  intros p _. apply credits_pattern.
Qed.

Lemma pattern_credit_nonneg query f p : (0 <= pattern_credit ratio s query f p)%Q.
Proof.
  unfold pattern_credit.
  destruct (resolve_pattern ratio s query (fst p)) as [[system1 system2]|];
    [|discriminate].
  apply sum_over_nonneg. intros entry _.
  destruct (pattern_hit _ _ _ _); [|discriminate].
  apply credit_of_nonneg. discriminate.
Qed.

(** With distinct ids, a pattern credits the flow stored under [f] once. *)
Lemma sum_over_entries (hit : Flow.t -> bool) f (flows : Dict.t Flow.t) :
  NoDup (Dict.keys flows) ->
  (sum_over flows (fun entry => if hit (snd entry) then credit_of f (fst entry) 5 else 0)
   == match Dict.get f flows with
      | Some flow => if hit flow then 5 else 0
      | None => 0
      end)%Q.
Proof.
  induction flows as [|[fid flow] flows IH]; intros Hnd; [reflexivity|].
  inversion Hnd as [|? ? Hnot Hnd']; subst.
  rewrite sum_over_cons. cbn [fst snd Dict.get]. unfold credit_of at 1.
  destruct (String.eqb f fid) eqn:E.
  - apply String.eqb_eq in E. subst fid.
    rewrite sum_over_zero.
    + destruct (hit flow); ring.
    + intros [fid' flow'] Hin. cbn [fst snd].
      destruct (hit flow'); [|reflexivity]. unfold credit_of.
      destruct (String.eqb f fid') eqn:E'; [|reflexivity].
      apply String.eqb_eq in E'. subst fid'. exfalso. apply Hnot.
      change f with (fst (f, flow')). now apply in_map.
  - rewrite IH by assumption. destruct (hit flow); ring.
Qed.

(** The four passes succeed, and the final score of a flow is the sum of
    what the passes credit to it. *)
Lemma flow_scores_credits query :
  exists scores voc,
    flow_scores ratio s query = Some scores
    /\ vocabulary (flow_index s) = Some voc
    /\ voc_ok (name_count (flow_index s)) voc
    /\ Dict.keys scores = (Dict.keys (flow_index s))
    /\ forall f,
         (score_of scores f
          == entity_credit s (_extract_entities s query) f
             + fuzzy_credit ratio voc
                 (Entities.unknown_terms (query_entities s query)) f
             + fulltext_credit s (_tokenize (Some query)) f
             + sum_over direction_patterns (pattern_credit ratio s query f))%Q.
Proof.
  destruct credits_fuzzy as (voc & Hvoc & Hok & Hfuzzy).
  pose proof (credits_bind (Dict.keys (flow_index s)) _ _ _ _
                (credits_entities s Hwf (_extract_entities s query))
                (credits_bind (Dict.keys (flow_index s)) _ _ _ _
                   (Hfuzzy (Entities.unknown_terms (query_entities s query)))
                   (credits_bind (Dict.keys (flow_index s)) _ _ _ _
                      (credits_fulltext s Hwf (_tokenize (Some query)))
                      (credits_patterns query)))) as H.
  destruct (H (map (fun fid => (fid, 0%Q)) (Dict.keys (flow_index s))) (keys_zero_scores (Dict.keys (flow_index s))))
    as (scores & Hrun & Hkeys & Hsum).
  exists scores, voc. split; [exact Hrun|]. split; [exact Hvoc|].
  split; [exact Hok|]. split; [exact Hkeys|].
  intros f. rewrite Hsum, score_of_zero_scores. ring.
Qed.

End FuzzyFacts.

(** ** Construction of the searcher *)

Lemma index_append_get key fid (idx : Index) key' :
  Dict.get key' (index_append key fid idx)
  = if String.eqb key' key then Some (Dict.get_default key [] idx ++ [fid])
    else Dict.get key' idx.
Proof.
  unfold index_append, Dict.get_default.
  destruct (String.eqb key' key) eqn:E.
  - apply String.eqb_eq in E. subst key'.
    destruct (Dict.get key idx); now rewrite get_set_same.
  - apply String.eqb_neq in E.
    destruct (Dict.get key idx); now rewrite get_set_other.
Qed.

Lemma index_ok_append K key fid idx :
  index_ok K idx -> In fid K -> index_ok K (index_append key fid idx).
Proof.
  intros Hok Hfid key' ids f. rewrite index_append_get.
  destruct (String.eqb key' key) eqn:E; [|apply Hok].
  intros [= <-] Hf. apply in_app_iff in Hf as [Hf|[<-|[]]]; [|assumption].
  unfold Dict.get_default in Hf.
  destruct (Dict.get key idx) eqn:G; [|destruct Hf]. eapply Hok; eassumption.
Qed.

Lemma index_ok_incl K K' idx : index_ok K idx -> incl K K' -> index_ok K' idx.
Proof. intros Hok Hincl key ids f Hg Hf. apply Hincl. eapply Hok; eassumption. Qed.

Lemma no_empty_key_append key fid (idx : Index) :
  key <> ""%string -> Dict.get ""%string idx = None ->
  Dict.get ""%string (index_append key fid idx) = None.
Proof.
  intros Hne Hidx. rewrite index_append_get.
  destruct (String.eqb "" key) eqn:E; [|assumption].
  apply String.eqb_eq in E. congruence.
Qed.

Lemma listed_append key fid idx key' fid' :
  listed idx key' fid' -> listed (index_append key fid idx) key' fid'.
Proof.
  unfold listed, Dict.get_default at 2. rewrite index_append_get.
  destruct (String.eqb key' key) eqn:E; [|trivial].
  apply String.eqb_eq in E. subst key'. intros H. apply in_app_iff. now left.
Qed.

Lemma listed_append_same key fid idx : listed (index_append key fid idx) key fid.
Proof.
  unfold listed, Dict.get_default at 1.
  rewrite index_append_get, String.eqb_refl. apply in_app_iff. right. now left.
Qed.

Lemma is_empty_false s : is_empty s = false <-> s <> ""%string.
Proof. destruct s; simpl; split; congruence. Qed.

(** The index updates of one flow are built from [index_append] on
    non-empty keys: they keep what every such step keeps. *)
Section IndexSteps.

Variable P : Index -> Prop.
Variable fid : string.
Hypothesis Happend :
  forall key idx, key <> ""%string -> P idx -> P (index_append key fid idx).

Lemma index_tokens_keeps tokens : forall idx,
  Forall (fun t => t <> ""%string) tokens -> P idx -> P (index_tokens fid tokens idx).
Proof.
  unfold index_tokens. induction tokens as [|t tokens IH]; intros idx Hne HP; simpl.
  - assumption.
  - inversion Hne; subst. apply IH; [assumption|]. now apply Happend.
Qed.

Lemma index_text_keeps text idx : P idx -> P (index_text fid text idx).
Proof.
  intros HP. unfold index_text. destruct (truthy text); [|assumption].
  apply index_tokens_keeps; [|assumption].
  eapply Forall_impl; [|apply tokenize_chars]. now intros t [_ H].
Qed.

Lemma index_value_keeps value idx : P idx -> P (index_value fid value idx).
Proof.
  intros HP. unfold index_value. destruct value as [v|]; [|assumption].
  destruct (is_empty v) eqn:E; [assumption|].
  apply Happend; [|assumption]. now apply is_empty_false.
Qed.

Lemma index_methods_keeps value idx : P idx -> P (index_methods fid value idx).
Proof.
  intros HP. unfold index_methods. destruct value as [v|]; [|assumption].
  destruct (is_empty v); [assumption|].
  generalize (split_on ";" v). intros methods. revert idx HP.
  induction methods as [|m methods IH]; intros idx HP; simpl; [assumption|].
  apply IH. destruct (is_empty (strip m)) eqn:E; [assumption|].
  apply Happend; [|assumption]. now apply is_empty_false.
Qed.

Lemma index_steps_keeps steps : forall idx, P idx -> P (index_steps fid steps idx).
Proof.
  unfold index_steps. induction steps as [|st steps IH]; intros idx HP; simpl.
  - assumption.
  - apply IH. now apply index_value_keeps.
Qed.

End IndexSteps.

Lemma index_tokens_listed fid tokens : forall idx t,
  In t tokens -> listed (index_tokens fid tokens idx) t fid.
Proof.
  unfold index_tokens. induction tokens as [|t0 tokens IH]; intros idx t; simpl.
  - tauto.
  - intros [<-|Hin]; [|now apply IH].
    revert idx. clear IH.
    assert (H : forall idx, listed idx t0 fid ->
                            listed (fold_left (fun idx token => index_append token fid idx)
                                      tokens idx) t0 fid).
    { induction tokens as [|t1 tokens IH]; intros idx H; simpl; [assumption|].
      apply IH. now apply listed_append. }
    intros idx. apply H. apply listed_append_same.
Qed.

Lemma forall_entries_set {V} (P : string * V -> Prop) k v (d : Dict.t V) :
  Forall P d -> P (k, v) -> (forall v', In (k, v') d -> P (k, v)) ->
  Forall P (Dict.set k v d).
Proof.
  intros Hd Hkv _. rewrite Forall_forall in *. intros [k' v'] Hin.
  apply in_set in Hin as [[-> ->]|Hin]; auto.
Qed.

Lemma indexed_flow s flow : indexed s -> indexed (index_flow s flow).
Proof.
  intros [Hnd Hids Hn Hd Hs Hf Ht Hi Hfk Htk Hik].
  set (fid := Flow.id flow).
  set (K' := Dict.keys (Dict.set fid flow (flow_index s))).
  assert (Hincl : incl (Dict.keys (flow_index s)) K').
  { intros k Hk. apply keys_set_incl. now right. }
  assert (Hfid : In fid K') by (apply keys_set_incl; now left).
  assert (Hok : forall key idx, key <> ""%string -> index_ok K' idx ->
                                index_ok K' (index_append key fid idx)).
  { intros key idx _ H. now apply index_ok_append. }
  assert (Hkey : forall key (idx : Index), key <> ""%string ->
                   Dict.get ""%string idx = None ->
                   Dict.get ""%string (index_append key fid idx) = None).
  { intros key idx. apply no_empty_key_append. }
  constructor; cbn [index_flow flow_index name_index description_index system_index
                      format_index transmission_index interface_index];
    fold fid; fold K'.
  - now apply nodup_keys_set.
  - apply forall_entries_set; [assumption|reflexivity|auto].
  - apply index_text_keeps; [assumption|]. eapply index_ok_incl; eassumption.
  - apply index_text_keeps; [assumption|]. eapply index_ok_incl; eassumption.
  - do 2 (apply index_value_keeps; [assumption|]). eapply index_ok_incl; eassumption.
  - apply index_value_keeps; [assumption|]. eapply index_ok_incl; eassumption.
  - apply index_methods_keeps; [assumption|]. eapply index_ok_incl; eassumption.
  - apply index_steps_keeps; [assumption|]. eapply index_ok_incl; eassumption.
  - now apply (index_value_keeps (fun idx => Dict.get ""%string idx = None) fid).
  - now apply (index_methods_keeps (fun idx => Dict.get ""%string idx = None) fid).
  - now apply (index_steps_keeps (fun idx => Dict.get ""%string idx = None) fid).
Qed.

Lemma indexed_flows flows : forall s, indexed s -> indexed (fold_left index_flow flows s).
Proof.
  induction flows as [|flow flows IH]; intros s Hs; simpl; [assumption|].
  apply IH. now apply indexed_flow.
Qed.

Lemma indexed_create ds : indexed (create_search_indices ds).
Proof.
  apply indexed_flows.
  constructor; simpl; try (intros key ids fid H; discriminate H);
    try reflexivity; constructor.
Qed.

(** The variant tables hold variants of the rule tables only. *)
Lemma variant_table_get (variants : string -> list string) values :
  forall (d : Dict.t (list string)) value,
  (forall v l, Dict.get v d = Some l -> l = variants v) ->
  forall l, Dict.get value (fold_left (fun d v => Dict.set v (variants v) d) values d)
            = Some l -> l = variants value.
Proof.
  induction values as [|v0 values IH]; intros d value Hd l; simpl; [apply Hd|].
  apply IH. intros v l'. destruct (String.eqb v v0) eqn:E.
  - apply String.eqb_eq in E. subst v0. rewrite get_set_same. congruence.
  - apply String.eqb_neq in E. rewrite get_set_other by assumption. apply Hd.
Qed.

Lemma variant_table_nonempty variants values value :
  (forall v, ~ In ""%string (variants v)) ->
  ~ In ""%string (Dict.get_default value [] (variant_table variants values)).
Proof.
  intros Hv. unfold Dict.get_default, variant_table.
  destruct (Dict.get value _) as [l|] eqn:E; [|simpl; tauto].
  apply variant_table_get in E; [|discriminate]. subst l. apply Hv.
Qed.

Lemma contained_variants_nonempty rules value :
  rules_nonempty rules = true -> ~ In ""%string (contained_variants rules value).
Proof.
  unfold rules_nonempty, contained_variants. rewrite forallb_forall.
  intros H Hin. apply in_flat_map in Hin as (rule & Hrule & Hin).
  destruct (contains (fst rule) value); [|destruct Hin].
  apply H in Hrule. rewrite forallb_forall in Hrule.
  apply Hrule in Hin. discriminate.
Qed.

Lemma equal_variants_nonempty rules value :
  rules_nonempty rules = true -> ~ In ""%string (equal_variants rules value).
Proof.
  unfold rules_nonempty, equal_variants. rewrite forallb_forall.
  intros H Hin. destruct (find _ rules) as [rule|] eqn:E; [|destruct Hin].
  apply find_some in E as [Hrule _].
  apply H in Hrule. rewrite forallb_forall in Hrule.
  apply Hrule in Hin. discriminate.
Qed.

(** The constructor returns a well-formed searcher. *)
Lemma well_formed_init ds : well_formed (init ds).
Proof.
  destruct (indexed_create ds). unfold init.
  constructor; cbn [prepare_synonym_mapping flow_index name_index description_index
                      system_index format_index transmission_index interface_index
                      system_variants format_variants transmission_variants];
    try assumption; intros value; apply variant_table_nonempty; intros v.
  - now apply contained_variants_nonempty.
  - now apply equal_variants_nonempty.
  - now apply equal_variants_nonempty.
Qed.

(** The name index lists a flow id under a token once per occurrence of
    the token in the names of the catalog records with that id. *)
Lemma occurrences_nil x : occurrences x [] = 0.
Proof. reflexivity. Qed.

Lemma occurrences_cons x y l :
  occurrences x (y :: l) = (if String.eqb x y then 1 else 0) + occurrences x l.
Proof. unfold occurrences. simpl. now destruct (String.eqb x y). Qed.

Lemma index_tokens_count fid tokens : forall idx t f,
  occurrences f (Dict.get_default t [] (index_tokens fid tokens idx))
  = occurrences f (Dict.get_default t [] idx)
    + if String.eqb f fid then occurrences t tokens else 0.
Proof.
  unfold index_tokens. induction tokens as [|t0 tokens IH]; intros idx t f.
  - cbn [fold_left]. rewrite occurrences_nil. destruct (String.eqb f fid); lia.
  - cbn [fold_left]. rewrite IH, occurrences_cons. unfold Dict.get_default at 1.
    rewrite index_append_get.
    destruct (String.eqb t t0) eqn:Et.
    + apply String.eqb_eq in Et. subst t0.
      rewrite occurrences_app, occurrences_cons, occurrences_nil.
      destruct (String.eqb f fid); lia.
    + fold (Dict.get_default t [] idx). destruct (String.eqb f fid); lia.
Qed.

Lemma name_count_cons fid g flows t f :
  name_count ((fid, g) :: flows) t f
  = (if String.eqb f fid then occurrences t (_tokenize (Flow.name g)) else 0)
    + name_count flows t f.
Proof. reflexivity. Qed.

Lemma name_index_count_from flows : forall s t f,
  occurrences f (Dict.get_default t [] (name_index (fold_left index_flow flows s)))
  = occurrences f (Dict.get_default t [] (name_index s))
    + name_count (map (fun g => (Flow.id g, g)) flows) t f.
Proof.
  induction flows as [|g flows IH]; intros s t f.
  - unfold name_count. simpl. lia.
  - cbn [fold_left map]. rewrite IH, name_count_cons.
    cbn [index_flow name_index]. unfold index_text.
    destruct (truthy (Flow.name g)) eqn:E.
    + rewrite index_tokens_count. lia.
    + rewrite (tokenize_falsy _ E), occurrences_nil.
      destruct (String.eqb f (Flow.id g)); lia.
Qed.

Lemma name_index_count ds t f :
  occurrences f (Dict.get_default t [] (name_index (init ds)))
  = name_count (map (fun g => (Flow.id g, g)) (Store.data_flows ds)) t f.
Proof.
  change (name_index (init ds)) with (name_index (create_search_indices ds)).
  unfold create_search_indices. rewrite name_index_count_from. reflexivity.
Qed.

(** ** Sorting *)

Lemma Qlt_bool_true a b : Qlt_bool a b = true <-> (a < b)%Q.
Proof.
  unfold Qlt_bool. rewrite negb_true_iff. split.
  - intros H. apply Qnot_le_lt. intros Hle. apply Qle_bool_iff in Hle. congruence.
  - intros H. destruct (Qle_bool b a) eqn:E; [|reflexivity].
    apply Qle_bool_iff in E. exfalso. eapply Qlt_not_le; eassumption.
Qed.

Lemma Qlt_bool_false a b : Qlt_bool a b = false <-> (b <= a)%Q.
Proof.
  unfold Qlt_bool. rewrite negb_false_iff. apply Qle_bool_iff.
Qed.

Lemma before_in {A} (l : list A) (a b : A) : Before l a b -> In a l /\ In b l.
Proof.
  induction l as [|z l IH]; simpl; [tauto|].
  intros [[-> H]|H]; [auto|]. apply IH in H. tauto.
Qed.


Lemma in_firstn {A} n (l : list A) x : In x (firstn n l) -> In x l.
Proof.
  revert l. induction n as [|n IH]; intros [|z l]; simpl; try tauto.
  intros [H|H]; auto.
Qed.

Lemma before_firstn {A} n (l : list A) a b : Before (firstn n l) a b -> Before l a b.
Proof.
  revert l. induction n as [|n IH]; intros [|z l]; simpl; try tauto.
  intros [[-> H]|H]; [|auto]. left. split; [reflexivity|].
  now apply in_firstn in H.
Qed.


Section Sorting.

Context {A : Type} (key : A -> Q).

Lemma in_insert_desc x l y : In y (insert_desc key x l) <-> y = x \/ In y l.
Proof.
  induction l as [|z l IH]; simpl.
  - split; intros [H|H]; auto.
  - destruct (Qlt_bool (key x) (key z)); simpl; rewrite ?IH; intuition.
Qed.

Lemma in_sort_desc l y : In y (sort_desc key l) <-> In y l.
Proof.
  induction l as [|x l IH]; simpl; [tauto|].
  rewrite in_insert_desc, IH. intuition.
Qed.

Lemma length_insert_desc x l :
  List.length (insert_desc key x l) = S (List.length l).
Proof.
  induction l as [|z l IH]; simpl; [reflexivity|].
  destruct (Qlt_bool (key x) (key z)); simpl; [now rewrite IH|reflexivity].
Qed.

Lemma length_sort_desc l : List.length (sort_desc key l) = List.length l.
Proof.
  induction l as [|x l IH]; simpl; [reflexivity|].
  now rewrite length_insert_desc, IH.
Qed.

(** An inserted element moves past strictly larger keys only. *)
Lemma before_insert_desc x l a b :
  Before (insert_desc key x l) a b ->
  Before l a b \/ (a = x /\ In b l) \/ (b = x /\ In a l /\ (key x < key a)%Q).
Proof.
  induction l as [|z l IH]; simpl.
  - intros [[_ []]|[]].
  - destruct (Qlt_bool (key x) (key z)) eqn:E; simpl.
    + intros [[-> Hb]|H].
      * apply in_insert_desc in Hb as [->|Hb]; [|auto].
        right. right. apply Qlt_bool_true in E. auto.
      * apply IH in H as [H|[[-> H]|(-> & H & Hlt)]]; auto 6.
    + intros [[<- [<-|Hb]]|[[<- Hb]|H]]; auto 6.
Qed.

(** The sort is stable: elements of equal key keep their order. *)
Lemma sort_desc_stable l a b :
  Before (sort_desc key l) a b -> (key a == key b)%Q -> Before l a b.
Proof.
  induction l as [|x l IH]; simpl; [tauto|].
  intros H Heq. apply before_insert_desc in H as [H|[[-> H]|(-> & H & Hlt)]].
  - right. now apply IH.
  - left. split; [reflexivity|]. exact (proj1 (in_sort_desc l b) H).
  - rewrite Heq in Hlt. exfalso. eapply Qlt_irrefl; eassumption.
Qed.

Lemma before_insert_sorted x l :
  (forall a b, Before l a b -> (key b <= key a)%Q) ->
  forall a b, Before (insert_desc key x l) a b -> (key b <= key a)%Q.
Proof.
  induction l as [|z l IH]; simpl; intros Hl a b.
  - intros [[_ []]|[]].
  - destruct (Qlt_bool (key x) (key z)) eqn:E; simpl.
    + intros [[<- Hb]|H].
      * apply in_insert_desc in Hb as [->|Hb].
        -- apply Qlt_bool_true in E. now apply Qlt_le_weak.
        -- apply Hl. auto.
      * revert H. apply IH. intros a' b' H'. apply Hl. now right.
    + apply Qlt_bool_false in E.
      intros [[<- [<-|Hb]]|H]; [assumption| |now apply Hl].
      eapply Qle_trans; [|exact E]. apply Hl. auto.
Qed.

(** The sort is descending. *)
Lemma sort_desc_sorted l a b :
  Before (sort_desc key l) a b -> (key b <= key a)%Q.
Proof.
  revert a b. induction l as [|x l IH]; simpl; [tauto|].
  now apply before_insert_sorted.
Qed.

End Sorting.

Lemma in_slice_to {A} n (l : list A) x : In x (slice_to n l) -> In x l.
Proof.
  unfold slice_to. destruct (0 <=? n)%Z; intros H; exact (in_firstn _ _ _ H).
Qed.

Lemma before_slice_to {A} n (l : list A) a b :
  Before (slice_to n l) a b -> Before l a b.
Proof.
  unfold slice_to. destruct (0 <=? n)%Z; intros H; exact (before_firstn _ _ _ _ H).
Qed.


Lemma slice_to_all {A} n (l : list A) :
  (Z.of_nat (List.length l) <= n)%Z -> slice_to n l = l.
Proof.
  intros H. unfold slice_to.
  assert (H0 : (0 <=? n)%Z = true) by (apply Z.leb_le; lia). rewrite H0.
  apply firstn_all2. lia.
Qed.

(** ** The annotation loop and the structure of [search] *)

Lemma same_fields_refl f : same_fields f f.
Proof. reflexivity. Qed.

Lemma same_fields_set f r : same_fields (Flow.set_search_score f r) f.
Proof. reflexivity. Qed.

Lemma same_fields_trans a b c : same_fields a b -> same_fields b c -> same_fields a c.
Proof. unfold same_fields. congruence. Qed.

Lemma same_fields_score a b r :
  same_fields a b -> Flow.set_search_score a r = Flow.set_search_score b r.
Proof.
  unfold same_fields, Flow.set_search_score. intros [=]. congruence.
Qed.

Lemma same_fields_id a b : same_fields a b -> Flow.id a = Flow.id b.
Proof. unfold same_fields, Flow.set_search_score. now intros [=]. Qed.

Lemma same_fields_name a b : same_fields a b -> Flow.name a = Flow.name b.
Proof. unfold same_fields, Flow.set_search_score. now intros [=]. Qed.

Lemma same_fields_source a b :
  same_fields a b -> Flow.source_system a = Flow.source_system b.
Proof. unfold same_fields, Flow.set_search_score. now intros [=]. Qed.

Lemma same_fields_target a b :
  same_fields a b -> Flow.target_system a = Flow.target_system b.
Proof. unfold same_fields, Flow.set_search_score. now intros [=]. Qed.

Lemma agree_refl flows : agree flows flows.
Proof. split; [reflexivity|]. intros k f H. exists f. now split. Qed.

Lemma agree_trans a b c : agree a b -> agree b c -> agree a c.
Proof.
  intros [K1 H1] [K2 H2]. split; [congruence|].
  intros k f Hf. destruct (H1 k f Hf) as (f1 & Hf1 & S1).
  destruct (H2 k f1 Hf1) as (f2 & Hf2 & S2).
  exists f2. split; [assumption|]. eapply same_fields_trans; eassumption.
Qed.

Lemma agree_set flows flows0 fid flow r :
  agree flows flows0 -> Dict.get fid flows = Some flow ->
  agree (Dict.set fid (Flow.set_search_score flow r) flows) flows0.
Proof.
  intros [HK Hget] Hfid. split.
  - rewrite keys_set_present; [assumption|]. eapply get_some_in_keys; eassumption.
  - intros k f. destruct (String.eqb k fid) eqn:E.
    + apply String.eqb_eq in E. subst k. rewrite get_set_same. intros [= <-].
      destruct (Hget fid flow Hfid) as (f0 & H0 & S0).
      exists f0. split; [assumption|].
      eapply same_fields_trans; [apply same_fields_set|assumption].
    + apply String.eqb_neq in E. rewrite get_set_other by assumption. apply Hget.
Qed.

Lemma fold_left_app_one {A B} (f : A -> B -> A) l x a :
  fold_left f (l ++ [x]) a = f (fold_left f l a) x.
Proof. now rewrite fold_left_app. Qed.

(** The loop over the ranked entries never fails; it collects the stored
    records with their rounded scores and leaves the other fields of the
    store as they were. *)
Lemma annotate_loop flows0 ranked : forall flows direct matching,
  agree flows flows0 ->
  (forall entry, In entry ranked -> In (fst entry) (Dict.keys flows0)) ->
  exists flows' new,
    for_each ranked annotate (flows, direct, matching)
    = Some (flows', direct ++ new, fold_left add_systems new matching)
    /\ agree flows' flows0
    /\ Forall2 (annotates flows0) ranked new.
Proof.
  induction ranked as [|entry ranked IH]; intros flows direct matching Hag Hin.
  - exists flows, []. rewrite app_nil_r.
    split; [reflexivity|]. split; [assumption|constructor].
  - cbn [for_each annotate].
    assert (Hk : In (fst entry) (Dict.keys flows)).
    { destruct Hag as [-> _]. apply Hin. now left. }
    destruct (in_keys_get _ _ Hk) as (flow & Hflow). rewrite Hflow.
    set (d := Flow.set_search_score flow (round2 (snd entry))).
    destruct (IH (Dict.set (fst entry) d flows) (direct ++ [d])
                (add_systems matching d))
      as (flows' & new & Hrun & Hag' & Hnew).
    + now apply agree_set.
    + intros e He. apply Hin. now right.
    + exists flows', (d :: new). split; [|split; [assumption|]].
      * transitivity (for_each ranked annotate
                        (Dict.set (fst entry) d flows, direct ++ [d],
                         add_systems matching d)); [reflexivity|].
        rewrite Hrun, <- app_assoc. reflexivity.
      * constructor; [|assumption].
        destruct Hag as [_ Hget]. destruct (Hget _ _ Hflow) as (f0 & H0 & S0).
        exists f0. split; [assumption|]. now apply same_fields_score.
Qed.

Lemma well_formed_with_flows s flows :
  well_formed s -> agree flows (flow_index s) -> well_formed (with_flows s flows).
Proof.
  intros [] [HK Hget].
  constructor; cbn [with_flows flow_index name_index description_index system_index
                      format_index transmission_index interface_index
                      system_variants format_variants transmission_variants];
    rewrite ?HK; try assumption.
  apply Forall_forall. intros [k f] Hin. cbn [fst snd].
  apply in_get_nodup in Hin; [|now rewrite HK].
  destruct (Hget k f Hin) as (f0 & H0 & S0).
  rewrite (same_fields_id _ _ S0).
  apply get_some_in in H0. rewrite Forall_forall in wf_ids0.
  exact (wf_ids0 _ H0).
Qed.

(** The ids of the flow index are the ids of the catalog in the order of
    their first occurrence. *)
Lemma keys_set {V} k (v : V) d : Dict.keys (Dict.set k v d) = set_add k (Dict.keys d).
Proof.
  unfold set_add. destruct (mem k (Dict.keys d)) eqn:E.
  - apply keys_set_present. now apply mem_In.
  - apply keys_set_absent. intros H. apply mem_In in H. congruence.
Qed.

Lemma keys_index_flows flows : forall s,
  Dict.keys (flow_index (fold_left index_flow flows s))
  = set_update (map Flow.id flows) (Dict.keys (flow_index s)).
Proof.
  induction flows as [|flow flows IH]; intros s; [reflexivity|].
  cbn [fold_left map]. rewrite IH. cbn [index_flow flow_index].
  now rewrite keys_set.
Qed.

Lemma catalog_order ds :
  Dict.keys (flow_index (init ds)) = to_set (map Flow.id (Store.data_flows ds)).
Proof.
  change (flow_index (init ds)) with (flow_index (create_search_indices ds)).
  unfold create_search_indices. now rewrite keys_index_flows.
Qed.

Section SearchFacts.

Variable ratio : string -> string -> Q.

(** [search] never fails on a well-formed searcher; its result is built
    from the final scores as follows. *)
Lemma search_structure s query max_results :
  well_formed s ->
  exists scores flows' direct,
    flow_scores ratio s (lower query) = Some scores
    /\ Dict.keys scores = Dict.keys (flow_index s)
    /\ agree flows' (flow_index s)
    /\ Forall2 (annotates (flow_index s))
         (slice_to max_results (sorted_results scores)) direct
    /\ let matching := fold_left add_systems direct [] in
       let related := filter (is_related direct matching) (Dict.values flows') in
       let e := query_entities s (lower query) in
       search ratio s query max_results
       = Some (Result.mk direct (firstn 10 related) matching e
                 (_generate_response (lower query) direct related e),
               with_flows s flows').
Proof.
  intros Hwf.
  destruct (flow_scores_credits ratio s Hwf (lower query))
    as (scores & voc & Hscores & _ & _ & Hkeys & _).
  destruct (annotate_loop (flow_index s)
              (slice_to max_results (sorted_results scores))
              (flow_index s) [] [] (agree_refl _))
    as (flows' & direct & Hrun & Hag & Hdirect).
  { intros entry He. apply in_slice_to in He. unfold sorted_results in He.
    apply in_sort_desc in He. apply filter_In in He as [He _].
    rewrite <- Hkeys. now apply in_map. }
  exists scores, flows', direct.
  split; [assumption|]. split; [assumption|]. split; [assumption|].
  split; [assumption|].
  cbv zeta. unfold search. rewrite Hscores, Hrun. reflexivity.
Qed.

Lemma search_well_formed s query max_results r s' :
  well_formed s -> search ratio s query max_results = Some (r, s') ->
  well_formed s' /\ exists flows', s' = with_flows s flows'
                                   /\ agree flows' (flow_index s).
Proof.
  intros Hwf Hsearch.
  destruct (search_structure s query max_results Hwf)
    as (scores & flows' & direct & _ & _ & Hag & _ & Heq).
  cbv zeta in Heq. rewrite Heq in Hsearch. injection Hsearch as _ <-.
  split; [now apply well_formed_with_flows|]. eauto.
Qed.

Lemma with_flows_twice s a b : with_flows (with_flows s a) b = with_flows s b.
Proof. reflexivity. Qed.

(** A serving searcher is the constructed one up to the [search_score]
    annotations of its records. *)
Lemma serving_invariant ds s :
  serving ratio ds s ->
  well_formed s
  /\ s = with_flows (init ds) (flow_index s)
  /\ agree (flow_index s) (flow_index (init ds)).
Proof.
  induction 1 as [|s query max_results r s' Hs (Hwf & Heq & Hag) Hsearch].
  - split; [apply well_formed_init|]. split; [now destruct (init ds)|apply agree_refl].
  - destruct (search_well_formed _ _ _ _ _ Hwf Hsearch) as (Hwf' & flows' & -> & Hag').
    split; [assumption|]. cbn [with_flows flow_index]. split.
    + rewrite Heq. reflexivity.
    + eapply agree_trans; eassumption.
Qed.

Lemma serving_well_formed ds s : serving ratio ds s -> well_formed s.
Proof. intros H. now apply serving_invariant in H. Qed.

Lemma serving_catalog_order ds s :
  serving ratio ds s ->
  Dict.keys (flow_index s) = to_set (map Flow.id (Store.data_flows ds)).
Proof.
  intros H. apply serving_invariant in H as (_ & _ & [HK _]).
  rewrite HK. apply catalog_order.
Qed.

End SearchFacts.

(* ================================================================= *)
(** * The claims *)


Lemma forall2_in_l {A B} (R : A -> B -> Prop) l l' x :
  Forall2 R l l' -> In x l -> exists y, In y l' /\ R x y.
Proof.
  induction 1 as [|a b l l' Hab _ IH]; simpl; [tauto|].
  intros [<-|H]; [eauto|]. destruct (IH H) as (y & Hy & Hxy). eauto.
Qed.


Lemma annotates_id s entry d :
  well_formed s -> annotates (flow_index s) entry d ->
  Flow.id d = fst entry /\ Flow.search_score d = Some (round2 (snd entry)).
Proof.
  intros Hwf (flow & Hflow & ->). split; [|reflexivity].
  apply get_some_in in Hflow. pose proof (wf_ids s Hwf) as Hids.
  rewrite Forall_forall in Hids. exact (Hids _ Hflow).
Qed.

Lemma set_add_in x y l : In x (set_add y l) <-> x = y \/ In x l.
Proof.
  unfold set_add. destruct (mem y l) eqn:E.
  - apply mem_In in E. split; [auto|]. intros [->|H]; assumption.
  - rewrite in_app_iff. simpl. intuition.
Qed.

Lemma truthy_some o : truthy o = true -> exists x, o = Some x /\ x <> ""%string.
Proof.
  destruct o as [x|]; simpl; [|discriminate]. intros H. exists x. split; [reflexivity|].
  intros ->. discriminate.
Qed.

Lemma add_system_in (o : option string) acc x :
  In x (if truthy o then set_add (text o) acc else acc) ->
  In x acc \/ (x <> ""%string /\ o = Some x).
Proof.
  destruct (truthy o) eqn:E; [|auto].
  apply truthy_some in E as (y & -> & Hy). cbn [text].
  rewrite set_add_in. intros [->|H]; auto.
Qed.

Lemma add_systems_in acc flow x :
  In x (add_systems acc flow) ->
  In x acc
  \/ (x <> ""%string
      /\ (Flow.source_system flow = Some x \/ Flow.target_system flow = Some x)).
Proof.
  unfold add_systems. intros H.
  apply add_system_in in H as [H|[Hx H]]; [|auto].
  apply add_system_in in H as [H|[Hx H]]; auto.
Qed.

Lemma systems_in flows : forall acc x,
  In x (fold_left add_systems flows acc) ->
  In x acc
  \/ exists d, In d flows /\ x <> ""%string
               /\ (Flow.source_system d = Some x \/ Flow.target_system d = Some x).
Proof.
  induction flows as [|d flows IH]; intros acc x; simpl; [auto|].
  intros H. apply IH in H as [H|(d' & Hd' & H)].
  - apply add_systems_in in H as [H|H]; [auto|]. right. exists d. auto.
  - right. exists d'. auto.
Qed.

Lemma in_systems_some o systems :
  in_systems o systems = true ->
  exists x, o = Some x /\ x <> ""%string /\ In x systems.
Proof.
  unfold in_systems. intros H. apply andb_true_iff in H as [Ht Hm].
  apply truthy_some in Ht as (x & -> & Hx). exists x.
  repeat split; [assumption|]. now apply mem_In in Hm.
Qed.

Lemma ostr_eqb_refl o : ostr_eqb o o = true.
Proof. destruct o; simpl; [apply String.eqb_refl|reflexivity]. Qed.

Lemma list_eqb_refl {A} (eq : A -> A -> bool) l :
  (forall x, eq x x = true) -> list_eqb eq l l = true.
Proof. intros H. induction l; simpl; [reflexivity|]. now rewrite H, IHl. Qed.

Lemma flow_eqb_refl f : Flow.eqb f f = true.
Proof.
  unfold Flow.eqb. rewrite String.eqb_refl, !ostr_eqb_refl. simpl.
  rewrite list_eqb_refl.
  - destruct (Flow.search_score f); simpl; [|reflexivity].
    apply Qeq_bool_iff. reflexivity.
  - intros st. unfold Step.eqb. now rewrite !ostr_eqb_refl.
Qed.


(** ** The empty query *)

Lemma contains_empty_hay v : contains v "" = is_empty v.
Proof. destruct v; reflexivity. Qed.

Lemma lower_empty_inv v : lower v = ""%string -> v = ""%string.
Proof. destruct v; [reflexivity|discriminate]. Qed.

Lemma first_variant_empty variants :
  ~ In ""%string variants -> first_variant variants "" = None.
Proof.
  unfold first_variant. change (lower "") with ""%string.
  induction variants as [|v variants IH]; [reflexivity|].
  intros H. cbn [find]. rewrite contains_empty_hay.
  destruct v; [exfalso; apply H; now left|]. cbn [is_empty]. apply IH.
  intros Hin. apply H. now right.
Qed.

Lemma match_variants_empty variants acc value :
  ~ In ""%string (Dict.get_default value [] variants) ->
  match_variants variants "" acc value = acc.
Proof. intros H. unfold match_variants. now rewrite first_variant_empty. Qed.

Lemma intersects_nil a : intersects a [] = false.
Proof. unfold intersects. induction a; simpl; [reflexivity|assumption]. Qed.

Lemma match_systems_empty variants systems : forall acc,
  (forall system, ~ In ""%string (Dict.get_default system [] variants)) ->
  fold_left (match_system variants "" []) systems acc = acc.
Proof.
  induction systems as [|system systems IH]; intros acc H; simpl; [reflexivity|].
  unfold match_system at 2. rewrite intersects_nil, andb_false_r.
  rewrite match_variants_empty by apply H. now apply IH.
Qed.

Lemma match_code_empty variants acc value :
  ~ In ""%string (Dict.get_default value [] variants) ->
  exists l, match_code variants "" acc value = (fst acc ++ l, snd acc)
            /\ Forall (eq ""%string) l.
Proof.
  intros H. unfold match_code. change (lower "") with ""%string.
  rewrite contains_empty_hay. destruct (is_empty (lower value)) eqn:E.
  - destruct (lower value) eqn:El; [|discriminate].
    apply lower_empty_inv in El. subst value.
    exists [""%string]. split; [reflexivity|]. now constructor.
  - rewrite match_variants_empty by assumption.
    exists []. rewrite app_nil_r. split; [now destruct acc|constructor].
Qed.

Lemma match_codes_empty variants values : forall acc,
  (forall value, ~ In ""%string (Dict.get_default value [] variants)) ->
  exists l, fold_left (match_code variants "") values acc = (fst acc ++ l, snd acc)
            /\ Forall (eq ""%string) l.
Proof.
  induction values as [|value values IH]; intros acc H; simpl.
  - exists []. rewrite app_nil_r. split; [now destruct acc|constructor].
  - destruct (match_code_empty variants acc value (H value)) as (l1 & -> & H1).
    destruct (IH (fst acc ++ l1, snd acc) H) as (l2 & -> & H2).
    exists (l1 ++ l2). cbn [fst snd]. rewrite app_assoc. split; [reflexivity|].
    apply Forall_app. now split.
Qed.

Lemma match_interfaces_empty values : forall acc,
  exists l, fold_left (match_interface "") values acc = (fst acc ++ l, snd acc)
            /\ Forall (eq ""%string) l.
Proof.
  induction values as [|value values IH]; intros acc; simpl.
  - exists []. rewrite app_nil_r. split; [now destruct acc|constructor].
  - assert (H : exists l1, match_interface "" acc value = (fst acc ++ l1, snd acc)
                           /\ Forall (eq ""%string) l1).
    { unfold match_interface. change (lower "") with ""%string.
      rewrite contains_empty_hay. destruct (is_empty (lower value)) eqn:E.
      - destruct (lower value) eqn:El; [|discriminate].
        apply lower_empty_inv in El. subst value.
        exists [""%string]. split; [reflexivity|]. now constructor.
      - exists []. rewrite app_nil_r. split; [now destruct acc|constructor]. }
    destruct H as (l1 & -> & H1).
    destruct (IH (fst acc ++ l1, snd acc)) as (l2 & -> & H2).
    exists (l1 ++ l2). cbn [fst snd]. rewrite app_assoc. split; [reflexivity|].
    apply Forall_app. now split.
Qed.

(** On the empty query no system is recognized, the other recognized
    values can only be empty strings, and no term is left over. *)
Lemma extract_entities_empty s :
  well_formed s ->
  let e := _extract_entities s "" in
  Entities.systems e = []
  /\ Forall (eq ""%string) (Entities.formats e)
  /\ Forall (eq ""%string) (Entities.transmission_methods e)
  /\ Forall (eq ""%string) (Entities.interfaces e)
  /\ Entities.unknown_terms e = [].
Proof.
  intros Hwf. unfold _extract_entities, match_all.
  change (to_set (_tokenize (Some ""%string))) with (@nil string).
  rewrite match_systems_empty by apply (wf_system_variants s Hwf).
  cbn [fst snd].
  destruct (match_codes_empty (format_variants s) (formats s) ([], [])
              (wf_format_variants s Hwf)) as (l2 & -> & H2).
  cbn [fst snd app].
  destruct (match_codes_empty (transmission_variants s) (transmission_methods s)
              ([], []) (wf_transmission_variants s Hwf)) as (l3 & -> & H3).
  cbn [fst snd app].
  destruct (match_interfaces_empty (interfaces s) ([], [])) as (l4 & -> & H4).
  cbn [fst snd app Entities.systems Entities.formats Entities.transmission_methods
         Entities.interfaces Entities.unknown_terms filter].
  auto.
Qed.

Lemma index_credit_absent idx w f key :
  Dict.get key idx = None -> (index_credit idx w f key == 0)%Q.
Proof.
  intros H. unfold index_credit. rewrite (get_default_none _ _ _ H).
  apply times_zero.
Qed.

Lemma sum_over_empty_keys idx w f keys :
  Dict.get ""%string idx = None -> Forall (eq ""%string) keys ->
  (sum_over keys (index_credit idx w f) == 0)%Q.
Proof.
  intros Hidx Hkeys. apply sum_over_zero. intros key Hkey.
  rewrite Forall_forall in Hkeys. rewrite <- (Hkeys _ Hkey).
  now apply index_credit_absent.
Qed.

Lemma filter_none {A} (p : A -> bool) l :
  (forall x, In x l -> p x = false) -> filter p l = [].
Proof.
  induction l as [|x l IH]; intros H; simpl; [reflexivity|].
  rewrite (H x) by now left. apply IH. intros y Hy. apply H. now right.
Qed.

Lemma slice_to_nil {A} n : slice_to n (@nil A) = [].
Proof. unfold slice_to. destruct (0 <=? n)%Z; apply firstn_nil. Qed.

Section EmptyQuery.

Variable ratio : string -> string -> Q.

Lemma pattern_credit_empty s f p :
  In p direction_patterns -> pattern_credit ratio s "" f p = 0%Q.
Proof.
  unfold direction_patterns. simpl.
  intros [<-|[<-|[<-|[<-|[]]]]]; reflexivity.
Qed.

(** Every final score of the empty query is zero. *)
Lemma flow_scores_empty s :
  well_formed s ->
  exists scores, flow_scores ratio s "" = Some scores
                 /\ sorted_results scores = [].
Proof.
  intros Hwf.
  destruct (flow_scores_credits ratio s Hwf "")
    as (scores & voc & Hscores & _ & _ & Hkeys & Hsum).
  exists scores. split; [assumption|].
  unfold sorted_results. rewrite filter_none; [reflexivity|].
  intros [fid score] Hin. cbn [snd]. apply Qlt_bool_false.
  assert (Hget : Dict.get fid scores = Some score).
  { apply in_get_nodup; [|assumption]. rewrite Hkeys. apply (wf_nodup s Hwf). }
  assert (Hscore : score_of scores fid = score).
  { unfold score_of. now apply get_default_some. }
  rewrite <- Hscore, Hsum.
  destruct (extract_entities_empty s Hwf) as (Hs & Hf & Ht & Hi & Hu).
  cbv zeta in *.
  assert (He : (entity_credit s (_extract_entities s "") fid == 0)%Q).
  { unfold entity_credit. rewrite Hs.
    rewrite (sum_over_empty_keys _ _ _ _ (wf_format_key s Hwf) Hf).
    rewrite (sum_over_empty_keys _ _ _ _ (wf_transmission_key s Hwf) Ht).
    rewrite (sum_over_empty_keys _ _ _ _ (wf_interface_key s Hwf) Hi).
    reflexivity. }
  assert (Hz : (fuzzy_credit ratio voc
                  (Entities.unknown_terms (query_entities s "")) fid == 0)%Q).
  { unfold query_entities. rewrite Hu. reflexivity. }
  assert (Hp : (sum_over direction_patterns (pattern_credit ratio s "" fid) == 0)%Q).
  { apply sum_over_zero. intros p Hp. now rewrite pattern_credit_empty. }
  rewrite He, Hz, Hp. apply Qle_lteq. right. reflexivity.
Qed.

End EmptyQuery.

(** C7. Every query returns a result, whatever [max_results] is, and the
    empty query returns no direct result, no related flow and the
    sentence that nothing was found. *)
Theorem search_total_and_empty_query (ratio : string -> string -> Q)
    (ds : Store.t) (s : EnhancedSearch) :
  serving ratio ds s ->
  (forall query max_results,
      exists r s', search ratio s query max_results = Some (r, s'))
  /\ (forall max_results,
        exists r s',
          search ratio s "" max_results = Some (r, s')
          /\ Result.direct_results r = []
          /\ Result.related_flows r = []
          /\ Result.natural_response r = nothing_found "").
Proof.
  intros Hserving. pose proof (serving_well_formed _ _ _ Hserving) as Hwf. split.
  - intros query max_results.
    destruct (search_structure ratio s query max_results Hwf)
      as (scores & flows' & direct & _ & _ & _ & _ & Hsearch).
    cbv zeta in Hsearch. eauto.
  - intros max_results.
    destruct (search_structure ratio s "" max_results Hwf)
      as (scores & flows' & direct & Hscores & _ & _ & Hdirect & Hsearch).
    destruct (flow_scores_empty ratio s Hwf) as (scores0 & Hscores0 & Hsorted).
    change (lower "") with ""%string in *.
    rewrite Hscores0 in Hscores. injection Hscores as <-.
    rewrite Hsorted, slice_to_nil in Hdirect. inversion Hdirect; subst.
    cbv zeta in Hsearch. cbn [fold_left] in Hsearch.
    assert (Hrel : filter (is_related [] []) (Dict.values flows') = []).
    { apply filter_none. intros g _. unfold is_related, in_systems. simpl.
      now rewrite !andb_false_r. }
    rewrite Hrel in Hsearch. eexists _, _. split; [exact Hsearch|].
    repeat split.
Qed.

(** ** Queries by name *)

Lemma lower_idem q : lower (lower q) = lower q.
Proof.
  unfold lower. induction q as [|c q IH]; simpl; [reflexivity|].
  now rewrite lower_char_idem, IH.
Qed.

Lemma tokenize_lower q : _tokenize (Some (lower q)) = _tokenize (Some q).
Proof. rewrite !tokenize_unfold. unfold normalize. now rewrite lower_idem. Qed.

Lemma name_listed_flow s flow key fid :
  listed (name_index s) key fid -> listed (name_index (index_flow s flow)) key fid.
Proof.
  intros H. cbn [index_flow name_index].
  apply (index_text_keeps (fun idx => listed idx key fid)); [|assumption].
  intros key' idx _. apply listed_append.
Qed.

Lemma name_listed_flows flows : forall s key fid,
  listed (name_index s) key fid ->
  listed (name_index (fold_left index_flow flows s)) key fid.
Proof.
  induction flows as [|flow flows IH]; intros s key fid H; simpl; [assumption|].
  apply IH. now apply name_listed_flow.
Qed.

Lemma name_listed_new s flow t :
  In t (_tokenize (Flow.name flow)) ->
  listed (name_index (index_flow s flow)) t (Flow.id flow).
Proof.
  intros Ht. cbn [index_flow name_index]. unfold index_text.
  destruct (truthy (Flow.name flow)) eqn:E.
  - now apply index_tokens_listed.
  - rewrite (tokenize_falsy _ E) in Ht. destruct Ht.
Qed.

(** The name index lists every flow of the catalog under every token of its
    name. *)
Lemma name_index_complete ds flow t :
  In flow (Store.data_flows ds) -> In t (_tokenize (Flow.name flow)) ->
  listed (name_index (init ds)) t (Flow.id flow).
Proof.
  intros Hflow Ht.
  change (name_index (init ds)) with (name_index (create_search_indices ds)).
  unfold create_search_indices.
  generalize (mkSearch (Store.systems ds) (Store.formats ds)
                (Store.transmission_methods ds) (Store.interfaces ds)
                [] [] [] [] [] [] [] [] [] []).
  induction (Store.data_flows ds) as [|f flows IH]; intros s0; [destruct Hflow|].
  simpl. destruct Hflow as [->|Hflow]; [|now apply IH].
  apply name_listed_flows. now apply name_listed_new.
Qed.

Lemma sum_over_ge_term {A} (l : list A) c x :
  (forall y, In y l -> 0 <= c y)%Q -> In x l -> (c x <= sum_over l c)%Q.
Proof.
  induction l as [|z l IH]; intros Hc; simpl; [tauto|].
  intros [->|Hx]; rewrite sum_over_cons.
  - rewrite <- (Qplus_0_r (c x)) at 1.
    apply Qplus_le_compat; [apply Qle_refl|].
    apply sum_over_nonneg. intros y Hy. apply Hc. now right.
  - rewrite <- (Qplus_0_l (c x)).
    apply Qplus_le_compat; [apply Hc; now left|].
    apply IH; [|assumption]. intros y Hy. apply Hc. now right.
Qed.

Lemma Qle_add_r a b c : (a <= b -> 0 <= c -> a <= b + c)%Q.
Proof.
  intros Hab Hc. setoid_replace a with (a + 0)%Q by ring.
  now apply Qplus_le_compat.
Qed.

Lemma Qle_add_l a b c : (a <= c -> 0 <= b -> a <= b + c)%Q.
Proof.
  intros Hac Hb. setoid_replace a with (0 + a)%Q by ring.
  now apply Qplus_le_compat.
Qed.

(** C9, amended. A catalog record whose name has at least one token, asked
    for by a query with the token sequence of that name, has a final
    score of at least 1 and stands among the sorted results; when these
    are no more than [max_results], the record stored under its id is a
    direct result. *)
Theorem query_by_name (ratio : string -> string -> Q) (ds : Store.t)
    (s : EnhancedSearch) (flow : Flow.t) (query : string) (max_results : Z) :
  serving ratio ds s ->
  In flow (Store.data_flows ds) ->
  _tokenize (Flow.name flow) <> [] ->
  _tokenize (Some query) = _tokenize (Flow.name flow) ->
  exists scores score,
    flow_scores ratio s (lower query) = Some scores
    /\ Dict.get (Flow.id flow) scores = Some score
    /\ (1 <= score)%Q
    /\ In (Flow.id flow, score) (sorted_results scores)
    /\ ((Z.of_nat (List.length (sorted_results scores)) <= max_results)%Z ->
        exists r s' d,
          search ratio s query max_results = Some (r, s')
          /\ In d (Result.direct_results r)
          /\ Flow.id d = Flow.id flow).
Proof.
  intros Hserving Hflow Hne Hquery.
  destruct (serving_invariant _ _ _ Hserving) as (Hwf & Hs & Hag).
  destruct (search_structure ratio s query max_results Hwf)
    as (scores & flows' & direct & Hscores & Hkeys & _ & Hdirect & Hsearch).
  destruct (flow_scores_credits ratio s Hwf (lower query))
    as (scores0 & voc & Hscores0 & _ & _ & _ & Hsum).
  rewrite Hscores in Hscores0. injection Hscores0 as <-.
  destruct (_tokenize (Flow.name flow)) as [|t tokens] eqn:Etokens; [congruence|].
  assert (Hlisted : listed (name_index s) t (Flow.id flow)).
  { rewrite Hs. cbn [with_flows name_index].
    apply name_index_complete; [assumption|]. rewrite Etokens. now left. }
  assert (Hkey : In (Flow.id flow) (Dict.keys scores)).
  { rewrite Hkeys. unfold listed, Dict.get_default in Hlisted.
    destruct (Dict.get t (name_index s)) as [ids|] eqn:G; [|destruct Hlisted].
    exact (wf_name s Hwf _ _ _ G Hlisted). }
  destruct (in_keys_get _ _ Hkey) as (score & Hget).
  assert (Hscore : score_of scores (Flow.id flow) = score).
  { unfold score_of. now apply get_default_some. }
  assert (Hone : (1 <= score)%Q).
  { rewrite <- Hscore, Hsum.
    rewrite tokenize_lower, Hquery.
    assert (H1 : (1 <= fulltext_credit s (t :: tokens) (Flow.id flow))%Q).
    { unfold fulltext_credit. apply Qle_add_r.
      - eapply Qle_trans;
          [|apply (sum_over_ge_term (t :: tokens) _ t); [|now left]].
        + unfold index_credit. apply times_pos_ge; [|discriminate].
          now apply occurrences_pos.
        + intros y _. apply index_credit_nonneg. discriminate.
      - apply sum_over_nonneg. intros y _. apply index_credit_nonneg. discriminate. }
    pose proof (entity_credit_nonneg s (_extract_entities s (lower query))
                  (Flow.id flow)) as H2.
    pose proof (fuzzy_credit_nonneg ratio voc
                  (Entities.unknown_terms (query_entities s (lower query)))
                  (Flow.id flow)) as H3.
    assert (H4 : (0 <= sum_over direction_patterns
                         (pattern_credit ratio s (lower query) (Flow.id flow)))%Q).
    { apply sum_over_nonneg. intros p _. apply pattern_credit_nonneg. }
    apply Qle_add_r; [|assumption]. apply Qle_add_l; [assumption|].
    now apply Qplus_nonneg. }
  assert (Hsorted : In (Flow.id flow, score) (sorted_results scores)).
  { unfold sorted_results. apply in_sort_desc. apply filter_In. split.
    - now apply get_some_in.
    - apply Qlt_bool_true. eapply Qlt_le_trans; [|exact Hone]. reflexivity. }
  exists scores, score. repeat split; try assumption.
  intros Hlen. rewrite slice_to_all in Hdirect by assumption.
  destruct (forall2_in_l _ _ _ _ Hdirect Hsorted) as (d & Hd & Hann).
  apply (annotates_id s) in Hann as [Hid _]; [|assumption].
  cbv zeta in Hsearch. eexists _, _, d. split; [exact Hsearch|]. auto.
Qed.

(** C10. The map of the fuzzy pass lists a record under a token once per
    occurrence of the token in the record's name; so the pass adds to the
    record, for every term of at least three characters and every one of
    its five best candidates of similarity at least 80, the similarity
    over 100 times the number of occurrences of the candidate in the
    name.  The name index counts in the same way: it lists an id under a
    token once per occurrence of the token in the names of the catalog
    records with that id. *)
Theorem fuzzy_credit_per_occurrence (ratio : string -> string -> Q) (ds : Store.t)
    (s : EnhancedSearch) (terms : list string) (scores : Scores)
    (f : string) (flow : Flow.t) :
  serving ratio ds s ->
  Dict.keys scores = Dict.keys (flow_index s) ->
  Dict.get f (flow_index s) = Some flow ->
  exists voc scores',
    vocabulary (flow_index s) = Some voc
    /\ (forall token,
          occurrences f (Dict.get_default token [] (snd voc))
          = occurrences token (_tokenize (Flow.name flow)))
    /\ _fuzzy_term_matching ratio s terms scores = Some scores'
    /\ (score_of scores' f
        == score_of scores f
           + sum_over terms
               (fun term =>
                  if String.length term <? 3 then 0
                  else sum_over (extract ratio term (fst voc) 5)
                         (fun m =>
                            if Qle_bool 80 (snd (fst m))
                            then times (occurrences (fst (fst m))
                                          (_tokenize (Flow.name flow)))
                                   (snd (fst m) / 100)
                            else 0)))%Q
    /\ (forall token,
          occurrences f (Dict.get_default token [] (name_index s))
          = name_count (map (fun g => (Flow.id g, g)) (Store.data_flows ds)) token f).
Proof.
  intros Hserving Hkeys Hflow.
  pose proof (serving_well_formed _ _ _ Hserving) as Hwf.
  destruct (credits_fuzzy ratio s) as (voc & Hvoc & Hok & Hcredits).
  destruct (Hcredits terms scores Hkeys) as (scores' & Hrun & _ & Hsum).
  assert (Hcount : forall token,
             occurrences f (Dict.get_default token [] (snd voc))
             = occurrences token (_tokenize (Flow.name flow))).
  { intros token. destruct Hok as [_ Hok]. rewrite Hok.
    apply name_count_get; [apply (wf_nodup s Hwf)|assumption]. }
  exists voc, scores'. split; [assumption|]. split; [assumption|].
  split; [assumption|]. split.
  - rewrite Hsum. apply Qplus_comp; [reflexivity|].
    unfold fuzzy_credit. apply sum_over_ext. intros term _. unfold term_credit.
    destruct (String.length term <? 3); [reflexivity|].
    apply sum_over_ext. intros m _. unfold match_credit.
    destruct (Qle_bool 80 (snd (fst m))); [|reflexivity].
    now rewrite Hcount.
  - intros token. destruct (serving_invariant _ _ _ Hserving) as (_ & -> & _).
    cbn [with_flows name_index]. apply name_index_count.
Qed.

(** ** The directional patterns *)

Lemma field_is_true o x : field_is o x = true <-> o = Some x.
Proof.
  destruct o as [y|]; simpl; [|split; discriminate].
  rewrite String.eqb_eq. split; congruence.
Qed.

(** C2, amended. The four templates are tried in their fixed order and
    every template that matches and resolves is applied, so the bonuses
    add up: each adds 5 to a record exactly when, for a from-to template,
    source and target are the two resolved systems in this order, and for
    a between template, in either order. *)
Theorem directional_patterns_accumulate (ratio : string -> string -> Q)
    (ds : Store.t) (s : EnhancedSearch) (query : string) (scores : Scores)
    (f : string) (flow : Flow.t) :
  serving ratio ds s ->
  Dict.keys scores = Dict.keys (flow_index s) ->
  Dict.get f (flow_index s) = Some flow ->
  exists scores',
    _pattern_based_search ratio s query scores = Some scores'
    /\ (score_of scores' f
        == score_of scores f
           + sum_over direction_patterns
               (fun p =>
                  match resolve_pattern ratio s query (fst p) with
                  | Some (system1, system2) =>
                      if pattern_hit (snd p) system1 system2 flow then 5 else 0
                  | None => 0
                  end))%Q
    /\ map snd direction_patterns
       = [from_to; from_to; between_systems; between_systems]
    /\ (forall system1 system2,
          pattern_hit from_to system1 system2 flow = true
          <-> Flow.source_system flow = Some system1
              /\ Flow.target_system flow = Some system2)
    /\ (forall system1 system2,
          pattern_hit between_systems system1 system2 flow = true
          <-> (Flow.source_system flow = Some system1
               /\ Flow.target_system flow = Some system2)
              \/ (Flow.source_system flow = Some system2
                  /\ Flow.target_system flow = Some system1)).
Proof.
  intros Hserving Hkeys Hflow.
  pose proof (serving_well_formed _ _ _ Hserving) as Hwf.
  destruct (credits_patterns ratio s query scores Hkeys) as (scores' & Hrun & _ & Hsum).
  exists scores'. split; [assumption|]. split; [|split; [reflexivity|split]].
  - rewrite Hsum. apply Qplus_comp; [reflexivity|].
    apply sum_over_ext. intros p _. unfold pattern_credit.
    destruct (resolve_pattern ratio s query (fst p)) as [[system1 system2]|];
      [|reflexivity].
    rewrite (sum_over_entries (pattern_hit (snd p) system1 system2) f)
      by apply (wf_nodup s Hwf).
    rewrite Hflow. reflexivity.
  - intros system1 system2. cbn [pattern_hit].
    now rewrite andb_true_iff, !field_is_true.
  - intros system1 system2. cbn [pattern_hit].
    now rewrite orb_true_iff, !andb_true_iff, !field_is_true.
Qed.

(** ** The terms of the fuzzy pass *)

Lemma set_update_in xs : forall l x, In x (set_update xs l) <-> In x xs \/ In x l.
Proof.
  unfold set_update. induction xs as [|y xs IH]; intros l x; simpl; [tauto|].
  rewrite IH, set_add_in. intuition.
Qed.

Lemma to_set_in xs x : In x (to_set xs) <-> In x xs.
Proof. unfold to_set. rewrite set_update_in. simpl. tauto. Qed.

Lemma filter_nil_iff {A} (p : A -> bool) l :
  filter p l = [] <-> forall x, In x l -> p x = false.
Proof.
  split; [|apply filter_none].
  induction l as [|x l IH]; simpl; [tauto|].
  destruct (p x) eqn:E; [discriminate|].
  intros H y [<-|Hy]; auto.
Qed.

(** C3, amended. The residual of entity extraction is the set of query
    tokens that no match consumed.  The fuzzy pass operates on it, and on
    the full token sequence instead exactly when the residual is empty,
    that is when every query token was consumed (or there is none). *)
Theorem fuzzy_terms_fallback (s : EnhancedSearch) (query : string) :
  let residual := Entities.unknown_terms (_extract_entities s query) in
  let tokens := _tokenize (Some query) in
  let terms := Entities.unknown_terms (query_entities s query) in
  residual
  = filter (fun token => negb (mem token (matched_tokens s query))) (to_set tokens)
  /\ (residual = [] <-> forall t, In t tokens -> In t (matched_tokens s query))
  /\ (residual = [] -> terms = tokens)
  /\ (residual <> [] -> terms = residual)
  /\ forall ratio,
       flow_scores ratio s query
       = (scores <- _search_with_entities s (_extract_entities s query)
                      (map (fun fid => (fid, 0%Q)) (Dict.keys (flow_index s))) ;;
          scores <- _fuzzy_term_matching ratio s terms scores ;;
          scores <- _fulltext_search s tokens scores ;;
          _pattern_based_search ratio s query scores).
Proof.
  cbv zeta.
  assert (Hres : Entities.unknown_terms (_extract_entities s query)
                 = filter (fun token => negb (mem token (matched_tokens s query)))
                     (to_set (_tokenize (Some query)))).
  { unfold _extract_entities, matched_tokens.
    destruct (match_all s query) as [[[[sys fmt] meth] ifc] matched]. reflexivity. }
  split; [exact Hres|]. split; [|split; [|split]].
  - rewrite Hres, filter_nil_iff. split.
    + intros H t Ht. apply (proj2 (to_set_in _ _)) in Ht. apply H in Ht.
      apply negb_false_iff in Ht. now apply (proj1 (mem_In _ _)).
    + intros H t Ht. apply (proj1 (to_set_in _ _)) in Ht. apply negb_false_iff.
      apply (proj2 (mem_In _ _)). now apply H.
  - intros H. unfold query_entities. now rewrite H.
  - intros H. unfold query_entities.
    destruct (Entities.unknown_terms (_extract_entities s query)) eqn:E;
      [congruence|].
    cbn [is_nil]. exact E.
  - reflexivity.
Qed.

(** ** Non-negative contributions *)

Lemma sum_over_remove {A} (l1 l2 : list A) c x :
  (0 <= c x)%Q -> (sum_over (l1 ++ l2) c <= sum_over (l1 ++ x :: l2) c)%Q.
Proof.
  intros Hx. rewrite !sum_over_app, sum_over_cons.
  apply Qplus_le_compat; [apply Qle_refl|]. apply Qle_add_l; [apply Qle_refl|assumption].
Qed.

Lemma credits_compare K g g' c c' m :
  credits K g c -> credits K g' c' -> Dict.keys m = K ->
  (forall f, c' f <= c f)%Q ->
  exists a b, g m = Some a /\ g' m = Some b
              /\ forall f, (score_of b f <= score_of a f)%Q.
Proof.
  intros Hg Hg' HK Hle.
  destruct (Hg m HK) as (a & Ha & _ & Hca).
  destruct (Hg' m HK) as (b & Hb & _ & Hcb).
  exists a, b. repeat split; trivial. intros f. rewrite Hca, Hcb.
  apply Qplus_le_compat; [apply Qle_refl|apply Hle].
Qed.

(** C4, amended. Every pass only adds non-negative contributions: no pass
    lowers a score, and every final score is at least 0.  Removing a term
    from the list that the full-text pass or the fuzzy pass is given never
    raises what that pass adds to a record. *)
Theorem passes_only_add (ratio : string -> string -> Q) (ds : Store.t)
    (s : EnhancedSearch) (scores : Scores) :
  serving ratio ds s ->
  Dict.keys scores = Dict.keys (flow_index s) ->
  (forall e, exists scores',
      _search_with_entities s e scores = Some scores'
      /\ forall f, (score_of scores f <= score_of scores' f)%Q)
  /\ (forall terms, exists scores',
        _fuzzy_term_matching ratio s terms scores = Some scores'
        /\ forall f, (score_of scores f <= score_of scores' f)%Q)
  /\ (forall tokens, exists scores',
        _fulltext_search s tokens scores = Some scores'
        /\ forall f, (score_of scores f <= score_of scores' f)%Q)
  /\ (forall query, exists scores',
        _pattern_based_search ratio s query scores = Some scores'
        /\ forall f, (score_of scores f <= score_of scores' f)%Q)
  /\ (forall query, exists final,
        flow_scores ratio s query = Some final
        /\ forall f, (0 <= score_of final f)%Q)
  /\ (forall before term after, exists with_term without,
        _fulltext_search s (before ++ term :: after) scores = Some with_term
        /\ _fulltext_search s (before ++ after) scores = Some without
        /\ forall f, (score_of without f <= score_of with_term f)%Q)
  /\ (forall before term after, exists with_term without,
        _fuzzy_term_matching ratio s (before ++ term :: after) scores = Some with_term
        /\ _fuzzy_term_matching ratio s (before ++ after) scores = Some without
        /\ forall f, (score_of without f <= score_of with_term f)%Q).
Proof.
  intros Hserving Hkeys.
  pose proof (serving_well_formed _ _ _ Hserving) as Hwf.
  destruct (credits_fuzzy ratio s) as (voc & Hvoc & Hok & Hfuzzy).
  assert (Hmono : forall g c,
             credits (Dict.keys (flow_index s)) g c -> (forall f, 0 <= c f)%Q ->
             exists scores', g scores = Some scores'
                             /\ forall f, (score_of scores f <= score_of scores' f)%Q).
  { intros g c Hg Hc.
    destruct (credits_monotone _ g c scores Hg Hkeys Hc) as (m' & H1 & _ & H2).
    eauto. }
  split; [|split; [|split; [|split; [|split; [|split]]]]].
  - intros e. eapply Hmono; [apply (credits_entities s Hwf)|].
    apply entity_credit_nonneg.
  - intros terms. eapply Hmono; [apply Hfuzzy|]. apply fuzzy_credit_nonneg.
  - intros tokens. eapply Hmono; [apply (credits_fulltext s Hwf)|].
    apply fulltext_credit_nonneg.
  - intros query. eapply Hmono; [apply credits_patterns|].
    intros f. apply sum_over_nonneg. intros p _. apply pattern_credit_nonneg.
  - intros query.
    destruct (flow_scores_credits ratio s Hwf query)
      as (final & voc' & Hfinal & _ & _ & _ & Hsum).
    exists final. split; [assumption|]. intros f. rewrite Hsum.
    apply Qplus_nonneg; [apply Qplus_nonneg; [apply Qplus_nonneg|]|].
    + apply entity_credit_nonneg.
    + apply fuzzy_credit_nonneg.
    + apply fulltext_credit_nonneg.
    + apply sum_over_nonneg. intros p _. apply pattern_credit_nonneg.
  - intros before term after.
    eapply credits_compare;
      [apply (credits_fulltext s Hwf)|apply (credits_fulltext s Hwf)|assumption|].
    intros f. unfold fulltext_credit.
    apply Qplus_le_compat; apply sum_over_remove; apply index_credit_nonneg;
      discriminate.
  - intros before term after.
    eapply credits_compare; [apply Hfuzzy|apply Hfuzzy|assumption|].
    intros f. unfold fuzzy_credit. apply sum_over_remove, term_credit_nonneg.
Qed.

(** ** The examples *)

(** C1. On the example catalog the query "export" changes the stored
    record R1: the call writes the rounded score into the record of the
    flow index, while the indices and the synonym tables stay as they
    were. *)
Theorem search_annotates_stored_record :
  exists r s',
    search fuzz_ratio (init example_store) "export" default_max_results = Some (r, s')
    /\ option_map Flow.search_score (Dict.get "R1" (flow_index (init example_store)))
       = Some None
    /\ option_map Flow.search_score (Dict.get "R1" (flow_index s')) = Some (Some 2.00%Q)
    /\ flow_index s' <> flow_index (init example_store)
    /\ s' = with_flows (init example_store) (flow_index s').
Proof.
  eexists _, _. split; [vm_compute; reflexivity|].
  split; [reflexivity|]. split; [reflexivity|]. split; [discriminate|reflexivity].
Qed.

(** C2, counterexample. The query matches the first and the second
    template; the pass applies both and adds 10 to R1, where applying
    the first matching template only would add 5. *)
Lemma both_templates_applied :
  _pattern_based_search fuzz_ratio (init example_store) two_template_query zero_scores
  = Some [("R1", 10%Q); ("R2", 0%Q); ("R3", 0%Q)]
  /\ pattern_first_match_only fuzz_ratio (init example_store) two_template_query
       zero_scores
     = Some [("R1", 5%Q); ("R2", 0%Q); ("R3", 0%Q)]
  /\ _pattern_based_search fuzz_ratio (init example_store) two_template_query
       zero_scores
     <> pattern_first_match_only fuzz_ratio (init example_store) two_template_query
          zero_scores.
Proof.
  assert (H1 : _pattern_based_search fuzz_ratio (init example_store)
                 two_template_query zero_scores
               = Some [("R1", 10%Q); ("R2", 0%Q); ("R3", 0%Q)])
    by (vm_compute; reflexivity).
  assert (H2 : pattern_first_match_only fuzz_ratio (init example_store)
                 two_template_query zero_scores
               = Some [("R1", 5%Q); ("R2", 0%Q); ("R3", 0%Q)])
    by (vm_compute; reflexivity).
  split; [exact H1|]. split; [exact H2|]. rewrite H1, H2. discriminate.
Qed.

(** C3, counterexample. The query "grid" is recognized as the system
    GRID, which consumes its only token: the fuzzy pass is given the full
    token list although an entity was recognized, where the claimed rule
    gives it the empty residual. *)
Lemma full_tokens_despite_entity :
  Entities.systems (_extract_entities (init grid_store) "grid") = ["GRID"%string]
  /\ Entities.unknown_terms (_extract_entities (init grid_store) "grid") = []
  /\ Entities.unknown_terms (query_entities (init grid_store) "grid")
     = ["grid"%string]
  /\ fuzzy_terms_claimed (init grid_store) "grid" = []
  /\ Entities.unknown_terms (query_entities (init grid_store) "grid")
     <> fuzzy_terms_claimed (init grid_store) "grid".
Proof.
  assert (H1 : Entities.unknown_terms (query_entities (init grid_store) "grid")
               = ["grid"%string]) by (vm_compute; reflexivity).
  assert (H2 : fuzzy_terms_claimed (init grid_store) "grid" = [])
    by (vm_compute; reflexivity).
  split; [vm_compute; reflexivity|]. split; [vm_compute; reflexivity|].
  split; [exact H1|]. split; [exact H2|]. rewrite H1, H2. discriminate.
Qed.

(** C4, counterexample. In the catalog of one flow named "Grid" with the
    description "foo", the query "grid foo" gives the flow 2.7 and the
    query "grid", which drops the matching term "foo", gives it 3: with
    "foo" gone no token is left over and the fuzzy pass falls back to the
    full token list. *)
Lemma removal_can_increase : ~ removal_never_increases fuzz_ratio.
Proof.
  intros H.
  specialize (H grid_store ["grid"%string] [] "foo"%string
                (example_flow "R1" "Grid" "foo" "GRID" "MIRA" "NOMINT")
                [("R1"%string, 2.7%Q)] [("R1"%string, 2400 # 800)]).
  assert (Hle : (2400 # 800 <= 2.7)%Q).
  { apply H.
    - now left.
    - vm_compute. auto.
    - vm_compute. reflexivity.
    - vm_compute. reflexivity. }
  vm_compute in Hle. now apply Hle.
Qed.

(** C9, counterexample. The record named "XI" is not found by the query
    "xi": the name gives no token, every score is 0 and there is no
    direct result.  And of twenty-one records named "Export" the query
    "Export" returns the first twenty: the last one has the score 2 and is
    no direct result. *)
Lemma name_query_not_found :
  (Flow.name (example_flow "R1" "XI" "" "GRID" "MIRA" "NOMINT") = Some "XI"%string
   /\ In (example_flow "R1" "XI" "" "GRID" "MIRA" "NOMINT")
        (Store.data_flows short_name_store)
   /\ lower "XI" = "xi"%string
   /\ flow_scores fuzz_ratio (init short_name_store) "xi" = Some [("R1"%string, 0%Q)]
   /\ exists r s',
        search fuzz_ratio (init short_name_store) "xi" default_max_results
        = Some (r, s')
        /\ Result.direct_results r = [])
  /\ (In (example_flow "R20" "Export" "" "GRID" "MIRA" "NOMINT")
        (Store.data_flows crowded_store)
      /\ option_map (fun scores => Qeq_bool (score_of scores "R20") 2)
           (flow_scores fuzz_ratio (init crowded_store) (lower "Export"))
         = Some true
      /\ exists r s',
           search fuzz_ratio (init crowded_store) "Export" default_max_results
           = Some (r, s')
           /\ List.length (Result.direct_results r) = 20
           /\ existsb (fun d => String.eqb (Flow.id d) "R20") (Result.direct_results r)
              = false).
Proof.
  split.
  - split; [reflexivity|]. split; [now left|]. split; [reflexivity|].
    split; [vm_compute; reflexivity|].
    eexists _, _. split; [vm_compute; reflexivity|reflexivity].
  - split; [vm_compute; tauto|]. split; [vm_compute; reflexivity|].
    eexists _, _. split; [vm_compute; reflexivity|]. split; reflexivity.
Qed.

(** ** Instances of the theorems on the example catalog *)

Lemma search_total_and_empty_query_witness :
  serving fuzz_ratio example_store (init example_store)
  /\ (forall query max_results,
        exists r s',
          search fuzz_ratio (init example_store) query max_results = Some (r, s'))
  /\ (forall max_results,
        exists r s',
          search fuzz_ratio (init example_store) "" max_results = Some (r, s')
          /\ Result.direct_results r = []
          /\ Result.related_flows r = []
          /\ Result.natural_response r = nothing_found "").
Proof.
  split; [apply serving_init|].
  apply (search_total_and_empty_query fuzz_ratio example_store (init example_store)).
  apply serving_init.
Defined.

Lemma query_by_name_witness :
  serving fuzz_ratio example_store (init example_store)
  /\ In example_record (Store.data_flows example_store)
  /\ _tokenize (Flow.name example_record) <> []
  /\ _tokenize (Some "NOMINIERUNG: Export!"%string) = _tokenize (Flow.name example_record)
  /\ exists scores score,
       flow_scores fuzz_ratio (init example_store) (lower "NOMINIERUNG: Export!")
       = Some scores
       /\ Dict.get (Flow.id example_record) scores = Some score
       /\ (1 <= score)%Q
       /\ In (Flow.id example_record, score) (sorted_results scores)
       /\ ((Z.of_nat (List.length (sorted_results scores)) <= default_max_results)%Z ->
           exists r s' d,
             search fuzz_ratio (init example_store) "NOMINIERUNG: Export!"
               default_max_results = Some (r, s')
             /\ In d (Result.direct_results r)
             /\ Flow.id d = Flow.id example_record).
Proof.
  split; [apply serving_init|]. split; [now left|].
  split; [vm_compute; discriminate|]. split; [vm_compute; reflexivity|].
  apply (query_by_name fuzz_ratio example_store (init example_store) example_record
           "NOMINIERUNG: Export!" default_max_results).
  - apply serving_init.
  - now left.
  - vm_compute. discriminate.
  - vm_compute. reflexivity.
Defined.

Lemma fuzzy_credit_per_occurrence_witness :
  serving fuzz_ratio example_store (init example_store)
  /\ Dict.keys zero_scores = Dict.keys (flow_index (init example_store))
  /\ Dict.get "R1" (flow_index (init example_store)) = Some example_record
  /\ exists voc scores',
       vocabulary (flow_index (init example_store)) = Some voc
       /\ (forall token,
             occurrences "R1" (Dict.get_default token [] (snd voc))
             = occurrences token (_tokenize (Flow.name example_record)))
       /\ _fuzzy_term_matching fuzz_ratio (init example_store) ["nominirung"%string]
            zero_scores = Some scores'
       /\ (score_of scores' "R1"
           == score_of zero_scores "R1"
              + sum_over ["nominirung"%string]
                  (fun term =>
                     if String.length term <? 3 then 0
                     else sum_over
                            (extract fuzz_ratio term (fst voc) 5)
                            (fun m =>
                               if Qle_bool 80 (snd (fst m))
                               then times (occurrences (fst (fst m))
                                             (_tokenize (Flow.name example_record)))
                                      (snd (fst m) / 100)
                               else 0)))%Q
       /\ (forall token,
             occurrences "R1"
               (Dict.get_default token [] (name_index (init example_store)))
             = name_count
                 (map (fun g => (Flow.id g, g)) (Store.data_flows example_store))
                 token "R1").
Proof.
  split; [apply serving_init|]. split; [reflexivity|]. split; [reflexivity|].
  apply (fuzzy_credit_per_occurrence fuzz_ratio example_store (init example_store)
           ["nominirung"%string] zero_scores "R1" example_record).
  - apply serving_init.
  - reflexivity.
  - reflexivity.
Defined.

Lemma directional_patterns_accumulate_witness :
  serving fuzz_ratio example_store (init example_store)
  /\ Dict.keys zero_scores = Dict.keys (flow_index (init example_store))
  /\ Dict.get "R1" (flow_index (init example_store)) = Some example_record
  /\ exists scores',
       _pattern_based_search fuzz_ratio (init example_store) two_template_query
         zero_scores = Some scores'
       /\ (score_of scores' "R1"
           == score_of zero_scores "R1"
              + sum_over direction_patterns
                  (fun p =>
                     match resolve_pattern fuzz_ratio (init example_store)
                             two_template_query (fst p) with
                     | Some (system1, system2) =>
                         if pattern_hit (snd p) system1 system2 example_record
                         then 5 else 0
                     | None => 0
                     end))%Q
       /\ map snd direction_patterns
          = [from_to; from_to; between_systems; between_systems]
       /\ (forall system1 system2,
             pattern_hit from_to system1 system2 example_record = true
             <-> Flow.source_system example_record = Some system1
                 /\ Flow.target_system example_record = Some system2)
       /\ (forall system1 system2,
             pattern_hit between_systems system1 system2 example_record = true
             <-> (Flow.source_system example_record = Some system1
                  /\ Flow.target_system example_record = Some system2)
                 \/ (Flow.source_system example_record = Some system2
                     /\ Flow.target_system example_record = Some system1)).
Proof.
  split; [apply serving_init|]. split; [reflexivity|]. split; [reflexivity|].
  apply (directional_patterns_accumulate fuzz_ratio example_store
           (init example_store) two_template_query zero_scores "R1" example_record).
  - apply serving_init.
  - reflexivity.
  - reflexivity.
Defined.

Lemma passes_only_add_witness :
  serving fuzz_ratio example_store (init example_store)
  /\ Dict.keys zero_scores = Dict.keys (flow_index (init example_store))
  /\ (forall e, exists scores',
         _search_with_entities (init example_store) e zero_scores = Some scores'
         /\ forall f, (score_of zero_scores f <= score_of scores' f)%Q)
  /\ (forall terms, exists scores',
         _fuzzy_term_matching fuzz_ratio (init example_store) terms zero_scores
         = Some scores'
         /\ forall f, (score_of zero_scores f <= score_of scores' f)%Q)
  /\ (forall tokens, exists scores',
         _fulltext_search (init example_store) tokens zero_scores = Some scores'
         /\ forall f, (score_of zero_scores f <= score_of scores' f)%Q)
  /\ (forall query, exists scores',
         _pattern_based_search fuzz_ratio (init example_store) query zero_scores
         = Some scores'
         /\ forall f, (score_of zero_scores f <= score_of scores' f)%Q)
  /\ (forall query, exists final,
         flow_scores fuzz_ratio (init example_store) query = Some final
         /\ forall f, (0 <= score_of final f)%Q)
  /\ (forall before term after, exists with_term without,
         _fulltext_search (init example_store) (before ++ term :: after) zero_scores
         = Some with_term
         /\ _fulltext_search (init example_store) (before ++ after) zero_scores
            = Some without
         /\ forall f, (score_of without f <= score_of with_term f)%Q)
  /\ (forall before term after, exists with_term without,
         _fuzzy_term_matching fuzz_ratio (init example_store)
           (before ++ term :: after) zero_scores = Some with_term
         /\ _fuzzy_term_matching fuzz_ratio (init example_store)
              (before ++ after) zero_scores = Some without
         /\ forall f, (score_of without f <= score_of with_term f)%Q).
Proof.
  split; [apply serving_init|]. split; [reflexivity|].
  apply (passes_only_add fuzz_ratio example_store (init example_store) zero_scores).
  - apply serving_init.
  - reflexivity.
Defined.

(* ================================================================= *)
(** * Further properties *)

(** ** The tokenizer *)

Lemma sforall_word_of_token t :
  sforall token_char t = true ->
  sforall is_word t = true
  /\ sforall (fun c => negb (is_space c)) t = true
  /\ lower t = t.
Proof.
  intros H. split; [|split].
  - revert H. apply sforall_imp. intros c Hc. unfold token_char in Hc.
    apply andb_true_iff in Hc as [Hc _]. apply andb_true_iff in Hc as [Hc _].
    now apply andb_true_iff in Hc as [Hc _].
  - revert H. apply sforall_imp. intros c Hc.
    now rewrite (token_char_not_space _ Hc).
  - apply smap_fixed. revert H. apply sforall_imp. intros c Hc.
    unfold token_char in Hc. apply andb_true_iff in Hc as [Hc _].
    now apply andb_true_iff in Hc as [_ Hc].
Qed.

(** X1. Every token that [_tokenize] returns has at least three
    characters, is no stop word, consists of word characters only (no
    white space, no hyphen, no punctuation) and is in lower case. *)
Theorem tokens_well_formed (text : option string) :
  Forall (fun t =>
            3 <= String.length t
            /\ ~ In t stopwords
            /\ sforall is_word t = true
            /\ sforall (fun c => negb (is_space c)) t = true
            /\ lower t = t)
    (_tokenize text).
Proof.
  pose proof (tokenize_chars text) as Hchars.
  rewrite Forall_forall in *. intros t Ht.
  destruct (Hchars t Ht) as [Hc _].
  assert (Hkeep : keep_token t = true).
  { destruct text as [text|]; [|destruct Ht].
    rewrite tokenize_unfold in Ht. now apply filter_In in Ht. }
  unfold keep_token in Hkeep. apply andb_true_iff in Hkeep as [Hlen Hstop].
  apply Nat.ltb_lt in Hlen. apply negb_true_iff in Hstop.
  split; [lia|]. split.
  - intros Hin. apply mem_In in Hin. congruence.
  - now apply sforall_word_of_token.
Qed.

Lemma smap_app f a b : smap f (a ++ b)%string = (smap f a ++ smap f b)%string.
Proof. induction a as [|c a IH]; simpl; [reflexivity|]. now rewrite IH. Qed.

Lemma sfilter_app p a b :
  sfilter p (a ++ b)%string = (sfilter p a ++ sfilter p b)%string.
Proof.
  induction a as [|c a IH]; simpl; [reflexivity|].
  destruct (p c); simpl; now rewrite IH.
Qed.

Lemma normalize_space a b :
  normalize (a ++ String " " b) = (normalize a ++ String " " (normalize b))%string.
Proof.
  unfold normalize, replace_char, lower.
  rewrite !smap_app, sfilter_app. reflexivity.
Qed.

Lemma split_from_space x : forall cur c y,
  is_space c = true ->
  split_from cur (x ++ String c y) = split_from cur x ++ split_from "" y.
Proof.
  induction x as [|d x IH]; intros cur c y Hc.
  - cbn [append split_from]. rewrite Hc. now destruct (is_empty cur).
  - cbn [append split_from]. destruct (is_space d).
    + destruct (is_empty cur); rewrite IH by assumption; reflexivity.
    + now apply IH.
Qed.

Lemma hyphen_is_space_b c :
  let r := fun c => if Ascii.eqb c "-" then " "%char else c in
  Ascii.eqb (r (lower_char (r c))) (r (lower_char c)) = true.
Proof. revert c. apply forall_ascii. vm_compute. reflexivity. Qed.

Lemma normalize_hyphen a : normalize (replace_char "-" " " a) = normalize a.
Proof.
  unfold normalize, replace_char, lower. f_equal.
  induction a as [|c a IH]; [reflexivity|].
  cbn [smap]. rewrite IH. f_equal.
  apply Ascii.eqb_eq. apply (hyphen_is_space_b c).
Qed.

(** X2. The tokens of two texts joined by a space are the tokens of the
    first followed by the tokens of the second; the tokenizer ignores
    case and reads a hyphen as a space. *)
Theorem tokenize_compositional (a b : string) :
  _tokenize (Some (a ++ " " ++ b)%string) = _tokenize (Some a) ++ _tokenize (Some b)
  /\ _tokenize (Some (lower a)) = _tokenize (Some a)
  /\ _tokenize (Some (replace_char "-" " " a)) = _tokenize (Some a).
Proof.
  split; [|split].
  - rewrite !tokenize_unfold.
    change (a ++ " " ++ b)%string with (a ++ String " " b)%string.
    rewrite normalize_space. unfold split.
    rewrite split_from_space by reflexivity. apply filter_app.
  - apply tokenize_lower.
  - rewrite !tokenize_unfold. now rewrite normalize_hyphen.
Qed.

(** ** The flow index and the inverted indices *)

Lemma find_append {A} (p : A -> bool) l1 l2 :
  find p (l1 ++ l2)
  = match find p l1 with
    | Some x => Some x
    | None => find p l2
    end.
Proof.
  induction l1 as [|x l1 IH]; [reflexivity|].
  cbn [app find]. now destruct (p x).
Qed.

Lemma flow_index_from flows : forall s k,
  Dict.get k (flow_index (fold_left index_flow flows s))
  = match find (fun g => String.eqb (Flow.id g) k) (rev flows) with
    | Some g => Some g
    | None => Dict.get k (flow_index s)
    end.
Proof.
  induction flows as [|g flows IH]; intros s k; [reflexivity|].
  cbn [fold_left rev]. rewrite IH. rewrite find_append.
  destruct (find _ (rev flows)) as [g'|]; [reflexivity|].
  cbn [find index_flow flow_index]. destruct (String.eqb (Flow.id g) k) eqn:E.
  - apply String.eqb_eq in E. subst k. apply get_set_same.
  - apply String.eqb_neq in E. apply get_set_other. congruence.
Qed.

Lemma find_unique {A} (p : A -> bool) (l : list A) x :
  In x l -> p x = true -> (forall y, In y l -> p y = true -> y = x) ->
  find p l = Some x.
Proof.
  induction l as [|z l IH]; intros Hin Hp Huniq; [destruct Hin|].
  cbn [find]. destruct (p z) eqn:E.
  - f_equal. apply Huniq; [now left|assumption].
  - destruct Hin as [->|Hin]; [congruence|].
    apply IH; trivial. intros y Hy. apply Huniq. now right.
Qed.

Lemma nodup_map_unique {A B} (f : A -> B) (l : list A) x y :
  NoDup (map f l) -> In x l -> In y l -> f x = f y -> x = y.
Proof.
  induction l as [|z l IH]; intros Hnd Hx Hy Heq; [destruct Hx|].
  cbn [map] in Hnd. inversion Hnd as [|? ? Hnot Hnd']; subst.
  destruct Hx as [->|Hx], Hy as [->|Hy]; trivial.
  - exfalso. apply Hnot. rewrite Heq. now apply in_map.
  - exfalso. apply Hnot. rewrite <- Heq. now apply in_map.
  - now apply IH.
Qed.

Lemma flow_index_find_last (ds : Store.t) :
  (forall k,
      Dict.get k (flow_index (init ds))
      = find (fun g => String.eqb (Flow.id g) k) (rev (Store.data_flows ds)))
  /\ Dict.keys (flow_index (init ds)) = to_set (map Flow.id (Store.data_flows ds))
  /\ (NoDup (map Flow.id (Store.data_flows ds)) ->
      forall g, In g (Store.data_flows ds) ->
                Dict.get (Flow.id g) (flow_index (init ds)) = Some g).
Proof.
  assert (Hget : forall k,
             Dict.get k (flow_index (init ds))
             = find (fun g => String.eqb (Flow.id g) k) (rev (Store.data_flows ds))).
  { intros k.
    change (flow_index (init ds)) with (flow_index (create_search_indices ds)).
    unfold create_search_indices. rewrite flow_index_from.
    now destruct (find _ (rev (Store.data_flows ds))). }
  split; [exact Hget|]. split; [apply catalog_order|].
  intros Hnd g Hg. rewrite Hget. apply find_unique.
  - now apply in_rev in Hg.
  - apply String.eqb_refl.
  - intros y Hy Hid. apply in_rev in Hy. apply String.eqb_eq in Hid.
    now apply (nodup_map_unique Flow.id (Store.data_flows ds)).
Qed.

(** X3. The flow index holds under every id the last flow of the catalog
    with that id, and nothing under other ids; its ids stand in the order
    of their first occurrence.  With distinct ids every flow of the
    catalog is found under its id. *)
Theorem flow_index_lookup (ds : Store.t) :
  (forall k,
      Dict.get k (flow_index (init ds))
      = find (fun g => String.eqb (Flow.id g) k) (rev (Store.data_flows ds)))
  /\ Dict.keys (flow_index (init ds)) = to_set (map Flow.id (Store.data_flows ds))
  /\ (NoDup (map Flow.id (Store.data_flows ds)) ->
      forall g, In g (Store.data_flows ds) ->
                Dict.get (Flow.id g) (flow_index (init ds)) = Some g).
Proof. exact (flow_index_find_last ds). Qed.

Lemma index_append_count key fid idx k f :
  occurrences f (Dict.get_default k [] (index_append key fid idx))
  = occurrences f (Dict.get_default k [] idx)
    + if String.eqb k key && String.eqb f fid then 1 else 0.
Proof.
  unfold Dict.get_default at 1. rewrite index_append_get.
  destruct (String.eqb k key) eqn:E; cbn [andb].
  - apply String.eqb_eq in E. subst key.
    rewrite occurrences_app, occurrences_cons, occurrences_nil.
    destruct (String.eqb f fid); lia.
  - fold (Dict.get_default k [] idx). lia.
Qed.

Lemma index_value_count fid value idx k f :
  occurrences f (Dict.get_default k [] (index_value fid value idx))
  = occurrences f (Dict.get_default k [] idx)
    + if String.eqb f fid then value_hits value k else 0.
Proof.
  unfold index_value, value_hits. destruct value as [v|]; cbn [field_is].
  - destruct (is_empty v) eqn:Ev.
    + destruct v; [|discriminate]. destruct (String.eqb "" k) eqn:E.
      * apply String.eqb_eq in E. subst k. cbn. destruct (String.eqb f fid); lia.
      * cbn [andb]. destruct (String.eqb f fid); lia.
    + rewrite index_append_count. rewrite (String.eqb_sym k v).
      destruct (String.eqb v k) eqn:E; cbn [andb].
      * apply String.eqb_eq in E. subst k. rewrite Ev. cbn [negb].
        destruct (String.eqb f fid); lia.
      * destruct (String.eqb f fid); lia.
  - cbn [andb]. destruct (String.eqb f fid); lia.
Qed.

Lemma index_methods_count fid value idx k f :
  occurrences f (Dict.get_default k [] (index_methods fid value idx))
  = occurrences f (Dict.get_default k [] idx)
    + if String.eqb f fid then occurrences k (methods_of value) else 0.
Proof.
  unfold index_methods, methods_of. destruct value as [v|].
  2:{ rewrite occurrences_nil. destruct (String.eqb f fid); lia. }
  destruct (is_empty v).
  { rewrite occurrences_nil. destruct (String.eqb f fid); lia. }
  generalize (split_on ";" v). intros methods. revert idx.
  induction methods as [|m methods IH]; intros idx.
  - cbn [fold_left map filter]. rewrite occurrences_nil.
    destruct (String.eqb f fid); lia.
  - cbn [fold_left map filter]. rewrite IH.
    destruct (is_empty (strip m)) eqn:E; cbn [negb]; [reflexivity|].
    rewrite index_append_count, occurrences_cons.
    destruct (String.eqb f fid); rewrite ?andb_true_r, ?andb_false_r; lia.
Qed.

Lemma index_steps_count fid steps : forall idx k f,
  occurrences f (Dict.get_default k [] (index_steps fid steps idx))
  = occurrences f (Dict.get_default k [] idx)
    + if String.eqb f fid then occurrences k (interfaces_of steps) else 0.
Proof.
  unfold index_steps, interfaces_of.
  induction steps as [|step steps IH]; intros idx k f.
  - cbn [fold_left flat_map]. rewrite occurrences_nil.
    destruct (String.eqb f fid); lia.
  - cbn [fold_left flat_map]. rewrite IH, index_value_count, occurrences_app.
    unfold value_hits. destruct (Step.interface step) as [i|]; cbn [field_is].
    + destruct (is_empty i) eqn:Ei.
      * destruct i; [|discriminate]. rewrite occurrences_nil.
        destruct (String.eqb "" k) eqn:E; cbn [andb].
        -- apply String.eqb_eq in E. subst k. cbn.
           destruct (String.eqb f fid); lia.
        -- destruct (String.eqb f fid); lia.
      * rewrite occurrences_cons, occurrences_nil, (String.eqb_sym k i).
        destruct (String.eqb i k) eqn:E; cbn [andb].
        -- apply String.eqb_eq in E. subst k. rewrite Ei. cbn [negb].
           destruct (String.eqb f fid); lia.
        -- destruct (String.eqb f fid); lia.
    + cbn [andb]. rewrite occurrences_nil. destruct (String.eqb f fid); lia.
Qed.

Lemma index_text_count fid value idx k f :
  occurrences f (Dict.get_default k [] (index_text fid value idx))
  = occurrences f (Dict.get_default k [] idx)
    + if String.eqb f fid then occurrences k (_tokenize value) else 0.
Proof.
  unfold index_text. destruct (truthy value) eqn:E.
  - apply index_tokens_count.
  - rewrite (tokenize_falsy _ E), occurrences_nil. destruct (String.eqb f fid); lia.
Qed.

Lemma count_flows_cons g flows f hits :
  count_flows (g :: flows) f hits
  = (if String.eqb f (Flow.id g) then hits g else 0) + count_flows flows f hits.
Proof. reflexivity. Qed.

(** What one index holds after the flows are indexed, given what one flow
    adds to it. *)
Lemma index_count_from (proj : EnhancedSearch -> Index) (hits : Flow.t -> string -> nat) :
  (forall s g k f,
      occurrences f (Dict.get_default k [] (proj (index_flow s g)))
      = occurrences f (Dict.get_default k [] (proj s))
        + if String.eqb f (Flow.id g) then hits g k else 0) ->
  forall flows s k f,
    occurrences f (Dict.get_default k [] (proj (fold_left index_flow flows s)))
    = occurrences f (Dict.get_default k [] (proj s))
      + count_flows flows f (fun g => hits g k).
Proof.
  intros Hstep. induction flows as [|g flows IH]; intros s k f.
  - unfold count_flows. simpl. lia.
  - cbn [fold_left]. rewrite IH, Hstep, count_flows_cons. lia.
Qed.

Lemma index_counts (ds : Store.t) (k f : string) :
  let count idx := occurrences f (Dict.get_default k [] idx) in
  let flows := Store.data_flows ds in
  count (name_index (init ds))
  = count_flows flows f (fun g => occurrences k (_tokenize (Flow.name g)))
  /\ count (description_index (init ds))
     = count_flows flows f (fun g => occurrences k (_tokenize (Flow.description g)))
  /\ count (system_index (init ds)) = count_flows flows f (fun g => role_hits g k)
  /\ count (format_index (init ds))
     = count_flows flows f (fun g => value_hits (Flow.format g) k)
  /\ count (transmission_index (init ds))
     = count_flows flows f
         (fun g => occurrences k (methods_of (Flow.transmission_method g)))
  /\ count (interface_index (init ds))
     = count_flows flows f
         (fun g => occurrences k (interfaces_of (Flow.process_steps g))).
Proof.
  cbv zeta. unfold init.
  cbn [prepare_synonym_mapping name_index description_index system_index
         format_index transmission_index interface_index].
  unfold create_search_indices.
  repeat split.
  - rewrite (index_count_from name_index
               (fun g k => occurrences k (_tokenize (Flow.name g)))); [reflexivity|].
    intros s g k' f'. apply index_text_count.
  - rewrite (index_count_from description_index
               (fun g k => occurrences k (_tokenize (Flow.description g))));
      [reflexivity|].
    intros s g k' f'. apply index_text_count.
  - rewrite (index_count_from system_index role_hits); [reflexivity|].
    intros s g k' f'. cbn [index_flow system_index].
    rewrite !index_value_count. unfold role_hits.
    destruct (String.eqb f' (Flow.id g)); lia.
  - rewrite (index_count_from format_index
               (fun g k => value_hits (Flow.format g) k)); [reflexivity|].
    intros s g k' f'. apply index_value_count.
  - rewrite (index_count_from transmission_index
               (fun g k => occurrences k (methods_of (Flow.transmission_method g))));
      [reflexivity|].
    intros s g k' f'. apply index_methods_count.
  - rewrite (index_count_from interface_index
               (fun g k => occurrences k (interfaces_of (Flow.process_steps g))));
      [reflexivity|].
    intros s g k' f'. apply index_steps_count.
Qed.

(** X4. Each of the six inverted indices lists a flow id under a key once
    per occurrence of the key in the indexed field of the catalog flows
    with that id: the tokens of name and description, source and target
    system (a flow from a system to itself is listed twice), the format,
    the stripped non-empty parts of the transmission method between
    semicolons, and the interfaces of the process steps. *)
Theorem index_contents (ds : Store.t) (k f : string) :
  let count idx := occurrences f (Dict.get_default k [] idx) in
  let flows := Store.data_flows ds in
  count (name_index (init ds))
  = count_flows flows f (fun g => occurrences k (_tokenize (Flow.name g)))
  /\ count (description_index (init ds))
     = count_flows flows f (fun g => occurrences k (_tokenize (Flow.description g)))
  /\ count (system_index (init ds)) = count_flows flows f (fun g => role_hits g k)
  /\ count (format_index (init ds))
     = count_flows flows f (fun g => value_hits (Flow.format g) k)
  /\ count (transmission_index (init ds))
     = count_flows flows f
         (fun g => occurrences k (methods_of (Flow.transmission_method g)))
  /\ count (interface_index (init ds))
     = count_flows flows f
         (fun g => occurrences k (interfaces_of (Flow.process_steps g))).
Proof. exact (index_counts ds k f). Qed.

(** ** Synonym tables, entity extraction and system resolution *)

Lemma variant_table_from (variants : string -> list string) values :
  forall (d : Dict.t (list string)) seen,
    (forall v, Dict.get v d = if mem v seen then Some (variants v) else None) ->
    forall v, Dict.get v (fold_left (fun d v => Dict.set v (variants v) d) values d)
              = if mem v (seen ++ values) then Some (variants v) else None.
Proof.
  induction values as [|v0 values IH]; intros d seen Hd v.
  - rewrite app_nil_r. apply Hd.
  - cbn [fold_left].
    rewrite (IH (Dict.set v0 (variants v0) d) (seen ++ [v0])).
    + now rewrite <- app_assoc.
    + intros v'. rewrite mem_app, mem_singleton.
      destruct (String.eqb v' v0) eqn:E.
      * apply String.eqb_eq in E. subst v'. rewrite get_set_same.
        now rewrite orb_true_r.
      * apply String.eqb_neq in E. rewrite get_set_other by assumption.
        rewrite orb_false_r. apply Hd.
Qed.

Lemma variant_table_lookup variants values value :
  Dict.get_default value [] (variant_table variants values)
  = if mem value values then variants value else [].
Proof.
  unfold Dict.get_default, variant_table.
  rewrite (variant_table_from variants values [] []) by reflexivity.
  cbn [app]. now destruct (mem value values).
Qed.

Lemma in_contained_variants rules value v :
  In v (contained_variants rules value) -> In v (flat_map snd rules).
Proof.
  unfold contained_variants. rewrite !in_flat_map.
  intros (rule & Hrule & Hv). exists rule. split; [assumption|].
  destruct (contains (fst rule) value); [assumption|destruct Hv].
Qed.

Lemma in_equal_variants rules value v :
  In v (equal_variants rules value) -> In v (flat_map snd rules).
Proof.
  unfold equal_variants. destruct (find _ rules) as [rule|] eqn:E; [|intros []].
  apply find_some in E as [Hrule _]. intros Hv.
  apply in_flat_map. eauto.
Qed.

Lemma rule_variants_lower v :
  In v (flat_map snd system_rules ++ flat_map snd format_rules
          ++ flat_map snd transmission_rules) ->
  v <> ""%string /\ lower v = v.
Proof.
  assert (H : forallb (fun v => negb (is_empty v) && String.eqb (lower v) v)
                (flat_map snd system_rules ++ flat_map snd format_rules
                   ++ flat_map snd transmission_rules) = true)
    by (vm_compute; reflexivity).
  rewrite forallb_forall in H. intros Hv. apply H in Hv.
  apply andb_true_iff in Hv as [Hne Hlow].
  split; [|now apply String.eqb_eq].
  intros ->. discriminate.
Qed.

(** X5. The synonym tables hold an entry exactly for the values of the
    catalog: for a system the variants of every trigger that its name
    contains as the trigger is written (the test is case-sensitive: the
    name "bkn" does not contain the trigger "BKN"), in the order of the
    rules; for a format or transmission method the variants of the rule
    whose name equals it.  Every variant is a non-empty string in lower
    case, so it can occur in the lower-cased query. *)
Theorem synonym_tables (ds : Store.t) (value : string) :
  Dict.get_default value [] (system_variants (init ds))
  = (if mem value (Store.systems ds)
     then contained_variants system_rules value else [])
  /\ Dict.get_default value [] (format_variants (init ds))
     = (if mem value (Store.formats ds)
        then equal_variants format_rules value else [])
  /\ Dict.get_default value [] (transmission_variants (init ds))
     = (if mem value (Store.transmission_methods ds)
        then equal_variants transmission_rules value else [])
  /\ Forall (fun v => v <> ""%string /\ lower v = v)
       (Dict.get_default value [] (system_variants (init ds))
          ++ Dict.get_default value [] (format_variants (init ds))
          ++ Dict.get_default value [] (transmission_variants (init ds))).
Proof.
  assert (Hkeep : forall flows s,
             systems (fold_left index_flow flows s) = systems s
             /\ formats (fold_left index_flow flows s) = formats s
             /\ transmission_methods (fold_left index_flow flows s)
                = transmission_methods s).
  { induction flows as [|g flows IH]; intros s; [auto|].
    cbn [fold_left]. destruct (IH (index_flow s g)) as (-> & -> & ->). auto. }
  unfold init.
  cbn [prepare_synonym_mapping system_variants format_variants transmission_variants].
  unfold create_search_indices.
  destruct (Hkeep (Store.data_flows ds)
              (mkSearch (Store.systems ds) (Store.formats ds)
                 (Store.transmission_methods ds) (Store.interfaces ds)
                 [] [] [] [] [] [] [] [] [] [])) as (-> & -> & ->).
  cbn [systems formats transmission_methods].
  rewrite !variant_table_lookup.
  split; [reflexivity|]. split; [reflexivity|]. split; [reflexivity|].
  apply Forall_forall. intros v Hv. apply rule_variants_lower.
  rewrite !in_app_iff in *.
  destruct Hv as [Hv|[Hv|Hv]].
  - destruct (mem value (Store.systems ds)); [|destruct Hv].
    left. eapply in_contained_variants; eassumption.
  - destruct (mem value (Store.formats ds)); [|destruct Hv].
    right. left. eapply in_equal_variants; eassumption.
  - destruct (mem value (Store.transmission_methods ds)); [|destruct Hv].
    right. right. eapply in_equal_variants; eassumption.
Qed.

Lemma fold_matching_fst (step : Matching -> string -> Matching) (rec : string -> bool) :
  (forall acc x, fst (step acc x) = fst acc ++ if rec x then [x] else []) ->
  forall l acc, fst (fold_left step l acc) = fst acc ++ filter rec l.
Proof.
  intros Hstep. induction l as [|x l IH]; intros acc.
  - cbn. now rewrite app_nil_r.
  - cbn [fold_left filter]. rewrite IH, Hstep, <- app_assoc.
    now destruct (rec x).
Qed.

Lemma fold_matching_snd (step : Matching -> string -> Matching) :
  (forall acc x t, In t (snd acc) -> In t (snd (step acc x))) ->
  forall l acc t, In t (snd acc) -> In t (snd (fold_left step l acc)).
Proof.
  intros Hstep. induction l as [|x l IH]; intros acc t Ht; [assumption|].
  cbn [fold_left]. apply IH. now apply Hstep.
Qed.

Lemma match_variants_fst variants query acc value :
  fst (match_variants variants query acc value)
  = fst acc ++ if is_some (first_variant (Dict.get_default value [] variants) query)
               then [value] else [].
Proof.
  unfold match_variants.
  destruct (first_variant _ query); cbn; [reflexivity|now rewrite app_nil_r].
Qed.

Lemma match_variants_snd variants query acc value t :
  In t (snd acc) -> In t (snd (match_variants variants query acc value)).
Proof.
  unfold match_variants. destruct (first_variant _ query); [|trivial].
  cbn [snd]. intros H. apply set_update_in. now right.
Qed.

Lemma match_system_fst s query acc system :
  fst (match_system (system_variants s) query (to_set (_tokenize (Some query)))
         acc system)
  = fst acc ++ if system_recognized s query system then [system] else [].
Proof.
  unfold match_system, system_recognized.
  destruct (negb _ && intersects _ _); cbn [orb fst]; [reflexivity|].
  apply match_variants_fst.
Qed.

Lemma match_system_snd variants query tokens acc system t :
  In t (snd acc) -> In t (snd (match_system variants query tokens acc system)).
Proof.
  unfold match_system. destruct (negb _ && intersects _ _).
  - cbn [snd]. intros H. apply set_update_in. now right.
  - apply match_variants_snd.
Qed.

Lemma match_code_fst variants query acc value :
  fst (match_code variants query acc value)
  = fst acc ++ if code_recognized variants query value then [value] else [].
Proof.
  unfold match_code, code_recognized.
  destruct (contains (lower value) (lower query)); cbn [orb fst]; [reflexivity|].
  apply match_variants_fst.
Qed.

Lemma match_code_snd variants query acc value t :
  In t (snd acc) -> In t (snd (match_code variants query acc value)).
Proof.
  unfold match_code. destruct (contains (lower value) (lower query)).
  - cbn [snd]. intros H. apply set_update_in. now right.
  - apply match_variants_snd.
Qed.

Lemma match_interface_fst query acc value :
  fst (match_interface query acc value)
  = fst acc ++ if contains (lower value) (lower query) then [value] else [].
Proof.
  unfold match_interface.
  destruct (contains (lower value) (lower query)); cbn [fst];
    [reflexivity|now rewrite app_nil_r].
Qed.

Lemma match_interface_snd query acc value t :
  In t (snd acc) -> In t (snd (match_interface query acc value)).
Proof.
  unfold match_interface. destruct (contains (lower value) (lower query)); [|trivial].
  cbn [snd]. intros H. apply set_update_in. now right.
Qed.

Lemma intersects_true a b t : In t a -> In t b -> intersects a b = true.
Proof.
  intros Ha Hb. unfold intersects. apply existsb_exists.
  exists t. split; [assumption|now apply mem_In].
Qed.

(** The tokens of a system matched by a token end up in [matched_tokens]
    of the system loop. *)
Lemma match_systems_consume variants query tokens systems : forall acc system t,
  In system systems ->
  In t (_tokenize (Some system)) -> In t tokens ->
  In t (snd (fold_left (match_system variants query tokens) systems acc)).
Proof.
  induction systems as [|x systems IH]; intros acc system t Hin Ht Hq; [destruct Hin|].
  cbn [fold_left]. destruct Hin as [->|Hin]; [|eapply IH; eassumption].
  apply fold_matching_snd; [intros; now apply match_system_snd|].
  unfold match_system.
  assert (Hset : In t (to_set (_tokenize (Some system)))) by exact (proj2 (to_set_in _ _) Ht).
  assert (Hnil : is_nil (to_set (_tokenize (Some system))) = false).
  { destruct (to_set (_tokenize (Some system))); [destruct Hset|reflexivity]. }
  rewrite Hnil, (intersects_true _ _ t Hset Hq). cbn [negb andb snd].
  apply set_update_in. now left.
Qed.

Lemma nodup_set_add x l : NoDup l -> NoDup (set_add x l).
Proof.
  intros H. unfold set_add. destruct (mem x l) eqn:E; [assumption|].
  apply NoDup_app; [assumption|repeat constructor; auto|].
  intros y Hy [<-|[]]. apply mem_In in Hy. congruence.
Qed.

Lemma nodup_set_update xs : forall l, NoDup l -> NoDup (set_update xs l).
Proof.
  unfold set_update. induction xs as [|x xs IH]; intros l H; [assumption|].
  cbn [fold_left]. apply IH. now apply nodup_set_add.
Qed.

(** X6. Entity extraction keeps, in the order of the catalog, the systems
    of which a name token is a query token or a variant occurs in the
    query, the formats and transmission methods that occur in the query
    themselves or by a variant, and the interfaces that occur in the
    query.  The unknown terms are distinct query tokens; a query token
    that is a token of a catalog system makes this system recognized and
    is not among the unknown terms. *)
Theorem entities_recognized (s : EnhancedSearch) (query : string) :
  let e := _extract_entities s query in
  Entities.systems e = filter (system_recognized s query) (systems s)
  /\ Entities.formats e
     = filter (code_recognized (format_variants s) query) (formats s)
  /\ Entities.transmission_methods e
     = filter (code_recognized (transmission_variants s) query)
         (transmission_methods s)
  /\ Entities.interfaces e
     = filter (fun i => contains (lower i) (lower query)) (interfaces s)
  /\ NoDup (Entities.unknown_terms e)
  /\ (forall t, In t (Entities.unknown_terms e) -> In t (_tokenize (Some query)))
  /\ (forall system t,
        In system (systems s) ->
        In t (_tokenize (Some system)) -> In t (_tokenize (Some query)) ->
        In system (Entities.systems e) /\ ~ In t (Entities.unknown_terms e)).
Proof.
  cbv zeta. unfold _extract_entities, match_all.
  cbn [Entities.systems Entities.formats Entities.transmission_methods
         Entities.interfaces Entities.unknown_terms].
  set (tokens := to_set (_tokenize (Some query))).
  set (m1 := fold_left (match_system (system_variants s) query tokens)
               (systems s) ([], [])).
  set (m2 := fold_left (match_code (format_variants s) query) (formats s)
               ([], snd m1)).
  set (m3 := fold_left (match_code (transmission_variants s) query)
               (transmission_methods s) ([], snd m2)).
  set (m4 := fold_left (match_interface query) (interfaces s) ([], snd m3)).
  assert (H1 : fst m1 = filter (system_recognized s query) (systems s)).
  { subst m1 tokens.
    now rewrite (fold_matching_fst _ (system_recognized s query)
                   (match_system_fst s query)). }
  split; [exact H1|]. split; [|split; [|split; [|split; [|split]]]].
  - subst m2. now rewrite (fold_matching_fst _ _ (match_code_fst _ query)).
  - subst m3. now rewrite (fold_matching_fst _ _ (match_code_fst _ query)).
  - subst m4. now rewrite (fold_matching_fst _ _ (match_interface_fst query)).
  - apply NoDup_filter. subst tokens. apply nodup_set_update. constructor.
  - intros t Ht. apply filter_In in Ht as [Ht _]. exact (proj1 (to_set_in _ _) Ht).
  - intros system t Hsys Ht Hq. split.
    + rewrite H1. apply filter_In. split; [assumption|].
      unfold system_recognized.
      assert (Hset : In t (to_set (_tokenize (Some system)))) by exact (proj2 (to_set_in _ _) Ht).
      assert (Hnil : is_nil (to_set (_tokenize (Some system))) = false).
      { destruct (to_set (_tokenize (Some system))); [destruct Hset|reflexivity]. }
      rewrite Hnil, (intersects_true _ _ t Hset); [reflexivity|].
      exact (proj2 (to_set_in _ _) Hq).
    + intros Hin. apply filter_In in Hin as [_ Hin]. apply negb_true_iff in Hin.
      assert (Hm : In t (snd m4)).
      { subst m4. apply fold_matching_snd; [intros; now apply match_interface_snd|].
        cbn [snd]. subst m3.
        apply fold_matching_snd; [intros; now apply match_code_snd|].
        cbn [snd]. subst m2.
        apply fold_matching_snd; [intros; now apply match_code_snd|].
        cbn [snd]. subst m1.
        apply (match_systems_consume _ _ _ _ _ system); trivial.
        subst tokens. exact (proj2 (to_set_in _ _) Hq). }
      apply mem_In in Hm. congruence.
Qed.

Lemma in_scored_from (ratio : string -> string -> Q) query choices : forall i m,
  In m (scored_from ratio i query choices) ->
  In (fst (fst m)) choices /\ snd (fst m) = ratio query (fst (fst m)).
Proof.
  induction choices as [|c choices IH]; intros i m; [intros []|].
  cbn [scored_from]. intros [<-|H]; [cbn; auto|].
  apply IH in H as [H1 H2]. split; [now right|assumption].
Qed.

Lemma scored_from_in (ratio : string -> string -> Q) query choices : forall i c,
  In c choices -> exists j, In (c, ratio query c, j) (scored_from ratio i query choices).
Proof.
  induction choices as [|c0 choices IH]; intros i c; [intros []|].
  cbn [scored_from]. intros [->|H].
  - exists i. now left.
  - destruct (IH (S i) c H) as (j & Hj). exists j. now right.
Qed.

Lemma sort_desc_head {A} (key : A -> Q) l m rest :
  sort_desc key l = m :: rest ->
  In m l /\ forall x, In x l -> (key x <= key m)%Q.
Proof.
  intros H. split.
  - apply (in_sort_desc key). rewrite H. now left.
  - intros x Hx. apply (in_sort_desc key) in Hx. rewrite H in Hx.
    destruct Hx as [->|Hx]; [apply Qle_refl|].
    apply (sort_desc_sorted key l). rewrite H. left. auto.
Qed.

Lemma sort_desc_nil {A} (key : A -> Q) l : sort_desc key l = [] -> l = [].
Proof.
  intros H. apply length_zero_iff_nil.
  rewrite <- (length_sort_desc key), H. reflexivity.
Qed.

(** X7. [_find_best_system_match] answers with a system of the catalog:
    the first one that contains the term or is contained in it, lower
    case compared; if there is none, a system of highest similarity,
    provided this similarity is at least 75.  It answers nothing for the
    empty term, and otherwise only when no system is related by
    containment and every similarity is below 75. *)
Theorem system_resolution (ratio : string -> string -> Q) (s : EnhancedSearch)
    (term : string) :
  match _find_best_system_match ratio s term with
  | Some system =>
      term <> ""%string
      /\ In system (systems s)
      /\ (find (substring_related term) (systems s) = Some system
          \/ (find (substring_related term) (systems s) = None
              /\ (75 <= ratio term system)%Q
              /\ forall y, In y (systems s) -> (ratio term y <= ratio term system)%Q))
  | None =>
      term = ""%string
      \/ forall y, In y (systems s) ->
                   substring_related term y = false /\ (ratio term y < 75)%Q
  end.
Proof.
  unfold _find_best_system_match.
  destruct term as [|c term']; [now left|]. cbn [is_empty].
  set (term := String c term').
  fold (substring_related term).
  change (fun system => contains (lower term) (lower system)
                        || contains (lower system) (lower term))
    with (substring_related term).
  destruct (find (substring_related term) (systems s)) as [system|] eqn:Efind.
  - split; [discriminate|]. split; [|now left].
    now apply find_some in Efind.
  - unfold extract.
    destruct (sort_desc (fun m => snd (fst m)) (scored_from ratio 0 term (systems s)))
      as [|m rest] eqn:Esort.
    + apply sort_desc_nil in Esort. right. intros y Hy.
      destruct (scored_from_in ratio term (systems s) 0 y Hy) as (j & Hj).
      rewrite Esort in Hj. destruct Hj.
    + cbn [firstn].
      apply sort_desc_head in Esort as [Hm Hmax].
      apply in_scored_from in Hm as [Hin Hscore].
      assert (Hall : forall y, In y (systems s) ->
                               (ratio term y <= snd (fst m))%Q).
      { intros y Hy.
        destruct (scored_from_in ratio term (systems s) 0 y Hy) as (j & Hj).
        exact (Hmax _ Hj). }
      destruct (Qle_bool 75 (snd (fst m))) eqn:E75.
      * apply Qle_bool_iff in E75. split; [discriminate|]. split; [assumption|].
        right. split; [reflexivity|]. rewrite <- Hscore. auto.
      * right. intros y Hy. split.
        -- exact (find_none _ _ Efind y Hy).
        -- eapply Qle_lt_trans; [apply Hall; assumption|].
           apply Qnot_le_lt. intros H. apply Qle_bool_iff in H. congruence.
Qed.

(** ** The entity pass and the full-text pass on a catalog with distinct ids *)

Lemma count_flows_absent flows f hits :
  ~ In f (map Flow.id flows) -> count_flows flows f hits = 0.
Proof.
  induction flows as [|g flows IH]; intros H; [reflexivity|].
  rewrite count_flows_cons. cbn [map] in H.
  destruct (String.eqb f (Flow.id g)) eqn:E.
  - apply String.eqb_eq in E. exfalso. apply H. now left.
  - rewrite IH; [reflexivity|]. intros Hin. apply H. now right.
Qed.

Lemma count_flows_unique flows g hits :
  NoDup (map Flow.id flows) -> In g flows ->
  count_flows flows (Flow.id g) hits = hits g.
Proof.
  induction flows as [|g0 flows IH]; intros Hnd Hin; [destruct Hin|].
  cbn [map] in Hnd. inversion Hnd as [|? ? Hnot Hnd']; subst.
  rewrite count_flows_cons. destruct Hin as [->|Hin].
  - rewrite String.eqb_refl, count_flows_absent by assumption. lia.
  - destruct (String.eqb (Flow.id g) (Flow.id g0)) eqn:E.
    + apply String.eqb_eq in E. exfalso. apply Hnot. rewrite <- E. now apply in_map.
    + now rewrite IH.
Qed.

Lemma sum_credit_of_weight f ids (w : string -> Q) :
  (sum_over ids (fun fid => credit_of f fid (w fid))
   == times (occurrences f ids) (w f))%Q.
Proof.
  rewrite <- sum_credit_of. apply sum_over_ext. intros fid _. unfold credit_of.
  destruct (String.eqb f fid) eqn:E; [|reflexivity].
  apply String.eqb_eq in E. subst. reflexivity.
Qed.

Lemma system_weight_same direction system a b :
  same_fields a b -> system_weight direction system a = system_weight direction system b.
Proof.
  intros H. unfold system_weight.
  now rewrite (same_fields_source _ _ H), (same_fields_target _ _ H).
Qed.

Section DistinctIds.

Variable ratio : string -> string -> Q.
Variable ds : Store.t.
Variable s : EnhancedSearch.
Hypothesis Hserving : serving ratio ds s.
Hypothesis Hnodup : NoDup (map Flow.id (Store.data_flows ds)).

(** The record stored under the id of a catalog flow is this flow up to
    its [search_score]. *)
Lemma stored_record g :
  In g (Store.data_flows ds) ->
  exists g', Dict.get (Flow.id g) (flow_index s) = Some g' /\ same_fields g' g.
Proof.
  intros Hg. destruct (serving_invariant _ _ _ Hserving) as (Hwf & _ & [HK Hag]).
  destruct (flow_index_find_last ds) as (_ & _ & Hlookup).
  specialize (Hlookup Hnodup g Hg).
  assert (Hin : In (Flow.id g) (Dict.keys (flow_index s))).
  { rewrite HK. eapply get_some_in_keys; eassumption. }
  destruct (in_keys_get _ _ Hin) as (g' & Hg').
  exists g'. split; [assumption|].
  destruct (Hag _ _ Hg') as (g0 & H0 & S0). congruence.
Qed.

Lemma index_credit_distinct (proj : EnhancedSearch -> Index)
    (hits : Flow.t -> string -> nat) w g key :
  proj s = proj (init ds) ->
  (forall k f, occurrences f (Dict.get_default k [] (proj (init ds)))
               = count_flows (Store.data_flows ds) f (fun g => hits g k)) ->
  In g (Store.data_flows ds) ->
  index_credit (proj s) w (Flow.id g) key = times (hits g key) w.
Proof.
  intros Hproj Hcount Hg. unfold index_credit.
  now rewrite Hproj, Hcount, count_flows_unique.
Qed.

Lemma serving_indices :
  name_index s = name_index (init ds)
  /\ description_index s = description_index (init ds)
  /\ system_index s = system_index (init ds)
  /\ format_index s = format_index (init ds)
  /\ transmission_index s = transmission_index (init ds)
  /\ interface_index s = interface_index (init ds).
Proof.
  destruct (serving_invariant _ _ _ Hserving) as (_ & Hs & _).
  rewrite Hs. cbn [with_flows name_index description_index system_index
                     format_index transmission_index interface_index].
  repeat split.
Qed.

Lemma system_credit_distinct direction g system :
  In g (Store.data_flows ds) ->
  (system_credit s direction (Flow.id g) system
   == times (role_hits g system) (system_weight direction system g))%Q.
Proof.
  intros Hg. unfold system_credit. rewrite sum_credit_of_weight.
  destruct serving_indices as (_ & _ & -> & _).
  destruct (index_counts ds system (Flow.id g)) as (_ & _ & Hcount & _).
  cbv zeta in Hcount. rewrite Hcount, count_flows_unique by assumption.
  destruct (stored_record g Hg) as (g' & Hg' & Hsame).
  unfold weight_of. rewrite Hg'. now rewrite (system_weight_same _ _ _ _ Hsame).
Qed.

End DistinctIds.

(** X8. In a catalog with distinct ids the entity pass adds to a flow: for
    every recognized system its weight once as source and once as target
    (so a flow from a recognized system to itself receives 3.0 twice),
    2.0 for every recognized format that is its format, 1.5 for every
    recognized method per occurrence among its transmission methods, and
    2.5 for every recognized interface per process step with it. *)
Theorem entity_pass_credit (ratio : string -> string -> Q) (ds : Store.t)
    (s : EnhancedSearch) (e : Entities.t) (scores : Scores) (g : Flow.t) :
  serving ratio ds s ->
  NoDup (map Flow.id (Store.data_flows ds)) ->
  In g (Store.data_flows ds) ->
  Dict.keys scores = Dict.keys (flow_index s) ->
  exists scores',
    _search_with_entities s e scores = Some scores'
    /\ (score_of scores' (Flow.id g)
        == score_of scores (Flow.id g)
           + sum_over (Entities.systems e)
               (fun system =>
                  times (role_hits g system)
                    (system_weight (Entities.direction e) system g))
           + sum_over (Entities.formats e)
               (fun k => times (value_hits (Flow.format g) k) 2)
           + sum_over (Entities.transmission_methods e)
               (fun k => times (occurrences k (methods_of (Flow.transmission_method g)))
                           1.5)
           + sum_over (Entities.interfaces e)
               (fun k => times (occurrences k (interfaces_of (Flow.process_steps g)))
                           2.5))%Q
    /\ (forall system,
          system <> ""%string ->
          Flow.source_system g = Some system ->
          Flow.target_system g = Some system ->
          (times (role_hits g system) (system_weight (Entities.direction e) system g)
           == 6)%Q).
Proof.
  intros Hserving Hnodup Hg Hkeys.
  pose proof (serving_well_formed _ _ _ Hserving) as Hwf.
  destruct (credits_entities s Hwf e scores Hkeys) as (scores' & Hrun & _ & Hsum).
  destruct (serving_indices ratio ds s Hserving) as (_ & _ & _ & Hf & Ht & Hi).
  exists scores'. split; [assumption|]. split.
  - rewrite Hsum. unfold entity_credit.
    rewrite <- !Qplus_assoc. apply Qplus_comp; [reflexivity|].
    apply Qplus_comp; [|apply Qplus_comp; [|apply Qplus_comp]].
    + apply sum_over_ext. intros system _.
      now apply (system_credit_distinct ratio ds s).
    + apply sum_over_ext. intros k _.
      rewrite (index_credit_distinct ds s Hnodup format_index
                 (fun g k => value_hits (Flow.format g) k)); trivial; [reflexivity|].
      intros k' f'. now destruct (index_counts ds k' f') as (_ & _ & _ & H & _).
    + apply sum_over_ext. intros k _.
      rewrite (index_credit_distinct ds s Hnodup transmission_index
                 (fun g k => occurrences k (methods_of (Flow.transmission_method g))));
        trivial; [reflexivity|].
      intros k' f'. now destruct (index_counts ds k' f') as (_ & _ & _ & _ & H & _).
    + apply sum_over_ext. intros k _.
      rewrite (index_credit_distinct ds s Hnodup interface_index
                 (fun g k => occurrences k (interfaces_of (Flow.process_steps g))));
        trivial; [reflexivity|].
      intros k' f'. now destruct (index_counts ds k' f') as (_ & _ & _ & _ & _ & H).
  - intros system Hne Hsrc Htgt.
    unfold role_hits, value_hits, system_weight. rewrite Hsrc, Htgt.
    cbn [field_is]. rewrite String.eqb_refl.
    destruct system; [congruence|]. reflexivity.
Qed.

(** X9. In a catalog with distinct ids the full-text pass adds to a flow,
    for every query token (repeated tokens count again), 1.0 per
    occurrence of the token among the tokens of its name and 0.7 per
    occurrence among the tokens of its description. *)
Theorem fulltext_pass_credit (ratio : string -> string -> Q) (ds : Store.t)
    (s : EnhancedSearch) (query_tokens : list string) (scores : Scores) (g : Flow.t) :
  serving ratio ds s ->
  NoDup (map Flow.id (Store.data_flows ds)) ->
  In g (Store.data_flows ds) ->
  Dict.keys scores = Dict.keys (flow_index s) ->
  exists scores',
    _fulltext_search s query_tokens scores = Some scores'
    /\ (score_of scores' (Flow.id g)
        == score_of scores (Flow.id g)
           + sum_over query_tokens
               (fun t => times (occurrences t (_tokenize (Flow.name g))) 1)
           + sum_over query_tokens
               (fun t => times (occurrences t (_tokenize (Flow.description g))) 0.7))%Q.
Proof.
  intros Hserving Hnodup Hg Hkeys.
  pose proof (serving_well_formed _ _ _ Hserving) as Hwf.
  destruct (credits_fulltext s Hwf query_tokens scores Hkeys)
    as (scores' & Hrun & _ & Hsum).
  destruct (serving_indices ratio ds s Hserving) as (Hn & Hd & _).
  exists scores'. split; [assumption|].
  rewrite Hsum. unfold fulltext_credit.
  rewrite <- !Qplus_assoc. apply Qplus_comp; [reflexivity|].
  apply Qplus_comp.
  - apply sum_over_ext. intros k _.
    rewrite (index_credit_distinct ds s Hnodup name_index
               (fun g k => occurrences k (_tokenize (Flow.name g)))); trivial;
      [reflexivity|].
    intros k' f'. now destruct (index_counts ds k' f') as (H & _).
  - apply sum_over_ext. intros k _.
    rewrite (index_credit_distinct ds s Hnodup description_index
               (fun g k => occurrences k (_tokenize (Flow.description g)))); trivial;
      [reflexivity|].
    intros k' f'. now destruct (index_counts ds k' f') as (_ & H & _).
Qed.

(** ** The directional templates *)

Lemma strip_prefix_sound p : forall s rest,
  Re.strip_prefix p s = Some rest -> s = (p ++ rest)%string.
Proof.
  induction p as [|a p IH]; intros s rest H; cbn [Re.strip_prefix] in H.
  - now inversion H.
  - destruct s as [|b s]; [discriminate|].
    destruct (Ascii.eqb a b) eqn:E; [|discriminate].
    apply Ascii.eqb_eq in E. subst b. cbn [String.append]. f_equal. now apply IH.
Qed.

Lemma greedy_sound (cls : ascii -> bool) (at_least_one capture : bool)
    (continue : string -> option (list string)) : forall s taken groups,
  (fix greedy (taken s : string) {struct s} : option (list string) :=
     let stop :=
       if at_least_one && is_empty taken then None
       else groups <- continue s ;;
            Some (if capture then taken :: groups else groups) in
     match s with
     | String c s' =>
         if cls c
         then match greedy (taken ++ String c "")%string s' with
              | Some groups => Some groups
              | None => stop
              end
         else stop
     | EmptyString => stop
     end) taken s = Some groups ->
  exists t rest rest_groups,
    s = (t ++ rest)%string
    /\ sforall cls t = true
    /\ (at_least_one = true -> (taken ++ t)%string <> ""%string)
    /\ continue rest = Some rest_groups
    /\ groups = if capture then (taken ++ t)%string :: rest_groups else rest_groups.
Proof.
  assert (Hstop : forall s taken groups,
    (if at_least_one && is_empty taken then None
     else groups <- continue s ;;
          Some (if capture then taken :: groups else groups)) = Some groups ->
    exists t rest rest_groups,
      s = (t ++ rest)%string
      /\ sforall cls t = true
      /\ (at_least_one = true -> (taken ++ t)%string <> ""%string)
      /\ continue rest = Some rest_groups
      /\ groups = if capture then (taken ++ t)%string :: rest_groups else rest_groups).
  { intros s taken groups H.
    destruct (at_least_one && is_empty taken) eqn:E; [discriminate|].
    destruct (continue s) as [g|] eqn:Hc; [|discriminate].
    cbn in H. inversion H; subst groups.
    exists ""%string, s, g. rewrite string_app_nil_r.
    split; [reflexivity|]. split; [reflexivity|]. split; [|split; [assumption|reflexivity]].
    intros ->. cbn [andb] in E. now destruct taken. }
  induction s as [|c s IH]; intros taken groups H.
  - now apply Hstop.
  - cbn beta iota fix zeta in H. fold is_empty in H.
    destruct (cls c) eqn:Ec.
    + match type of H with
      | match ?g with _ => _ end = _ => destruct g as [groups'|] eqn:Hrec
      end.
      * inversion H; subst groups'.
        destruct (IH _ _ Hrec) as (t & rest & g & Hs & Ht & Hone & Hc & Hg).
        exists (String c t), rest, g.
        rewrite string_app_assoc in Hone, Hg. cbn [String.append] in Hone, Hg.
        split; [cbn [String.append]; now f_equal|].
        split; [cbn [sforall]; now rewrite Ec|].
        split; [assumption|]. split; assumption.
      * now apply Hstop.
    + now apply Hstop.
Qed.

Lemma match_here_lit l p s groups :
  Re.match_here (Re.Lit l :: p) s = Some groups ->
  exists rest, s = (l ++ rest)%string /\ Re.match_here p rest = Some groups.
Proof.
  cbn [Re.match_here]. intros H.
  destruct (Re.strip_prefix l s) as [rest|] eqn:E; [|discriminate].
  exists rest. split; [now apply strip_prefix_sound|exact H].
Qed.

Lemma match_here_many cls at_least_one capture p s groups :
  Re.match_here (Re.Many cls at_least_one capture :: p) s = Some groups ->
  exists t rest rest_groups,
    s = (t ++ rest)%string
    /\ sforall cls t = true
    /\ (at_least_one = true -> t <> ""%string)
    /\ Re.match_here p rest = Some rest_groups
    /\ groups = if capture then t :: rest_groups else rest_groups.
Proof.
  intros H. cbn [Re.match_here] in H.
  apply greedy_sound in H. exact H.
Qed.

Lemma match_here_pattern kw gap sep s groups :
  Re.match_here (Re.pattern kw gap sep) s = Some groups ->
  exists sp a mid sp' b rest,
    s = (template_text kw sp a mid sep sp' b ++ rest)%string
    /\ groups = [a; b]
    /\ sp <> ""%string /\ sforall is_space sp = true
    /\ a <> ""%string /\ sforall is_word a = true
    /\ sforall Re.space_or_word mid = true /\ (gap = true -> mid <> ""%string)
    /\ sp' <> ""%string /\ sforall is_space sp' = true
    /\ b <> ""%string /\ sforall is_word b = true.
Proof.
  unfold Re.pattern. intros H.
  apply match_here_lit in H. destruct H as (r1 & -> & H).
  apply match_here_many in H. destruct H as (sp & r2 & g2 & -> & Hsp & Hsp1 & H & ->).
  apply match_here_many in H. destruct H as (a & r3 & g3 & -> & Ha & Ha1 & H & ->).
  apply match_here_many in H. destruct H as (mid & r4 & g4 & -> & Hmid & Hmid1 & H & ->).
  apply match_here_lit in H. destruct H as (r5 & -> & H).
  apply match_here_many in H. destruct H as (sp' & r6 & g6 & -> & Hsp' & Hsp'1 & H & ->).
  apply match_here_many in H. destruct H as (b & rest & g7 & -> & Hb & Hb1 & H & ->).
  cbn [Re.match_here] in H. inversion H; subst g7.
  exists sp, a, mid, sp', b, rest. unfold template_text.
  rewrite !string_app_assoc.
  split; [reflexivity|]. split; [reflexivity|].
  split; [now apply Hsp1|]. split; [assumption|].
  split; [now apply Ha1|]. split; [assumption|].
  split; [assumption|]. split; [assumption|].
  split; [now apply Hsp'1|]. split; [assumption|].
  split; [now apply Hb1|]. assumption.
Qed.

Lemma search_sound p : forall s groups,
  Re.search p s = Some groups ->
  exists before rest, s = (before ++ rest)%string /\ Re.match_here p rest = Some groups.
Proof.
  induction s as [|c s IH]; intros groups H; cbn [Re.search] in H.
  - destruct (Re.match_here p "") as [g|] eqn:E; [|discriminate].
    inversion H; subst g. now exists ""%string, ""%string.
  - destruct (Re.match_here p (String c s)) as [g|] eqn:E.
    + inversion H; subst g. now exists ""%string, (String c s).
    + destruct (IH _ H) as (before & rest & -> & Hm).
      now exists (String c before), rest.
Qed.

Lemma prefix_app n post : prefix n (n ++ post) = true.
Proof.
  induction n as [|a n IH]; cbn [String.append prefix]; [now destruct post|].
  destruct (ascii_dec a a) as [_|Hne]; [assumption|now elim Hne].
Qed.

Lemma contains_app before n post : contains n (before ++ n ++ post) = true.
Proof.
  induction before as [|c before IH]; cbn [String.append].
  - destruct (n ++ post)%string eqn:E; cbn [contains]; rewrite <- E, prefix_app;
      reflexivity.
  - cbn [contains]. rewrite IH. apply orb_true_r.
Qed.

(** X10. When one of the four directional templates matches a text, the
    text holds, somewhere, the template's keyword, white space, a first
    non-empty word, a run of word and space characters (non-empty for
    the two "between" templates), the separator, white space and a second
    non-empty word; the captured groups are exactly these two words. *)
Theorem template_match_shape (text : string) (groups : list string) :
  Forall
    (fun template =>
       let '(kw, gap, sep, ptype) := template in
       In (Re.pattern kw gap sep, ptype) direction_patterns
       /\ (Re.search (Re.pattern kw gap sep) text = Some groups ->
           exists before sp a mid sp' b rest,
             text = (before ++ template_text kw sp a mid sep sp' b ++ rest)%string
             /\ groups = [a; b]
             /\ sp <> ""%string /\ sforall is_space sp = true
             /\ a <> ""%string /\ sforall is_word a = true
             /\ sforall Re.space_or_word mid = true /\ (gap = true -> mid <> ""%string)
             /\ sp' <> ""%string /\ sforall is_space sp' = true
             /\ b <> ""%string /\ sforall is_word b = true))
    [ ("von", false, "nach", from_to); ("from", false, "to", from_to);
      ("zwischen", true, "und", between_systems);
      ("between", true, "and", between_systems) ]%string
  /\ map fst direction_patterns
     = [ Re.pattern "von" false "nach"; Re.pattern "from" false "to";
         Re.pattern "zwischen" true "und"; Re.pattern "between" true "and" ].
Proof.
  assert (Hshape : forall kw gap sep,
    Re.search (Re.pattern kw gap sep) text = Some groups ->
    exists before sp a mid sp' b rest,
      text = (before ++ template_text kw sp a mid sep sp' b ++ rest)%string
      /\ groups = [a; b]
      /\ sp <> ""%string /\ sforall is_space sp = true
      /\ a <> ""%string /\ sforall is_word a = true
      /\ sforall Re.space_or_word mid = true /\ (gap = true -> mid <> ""%string)
      /\ sp' <> ""%string /\ sforall is_space sp' = true
      /\ b <> ""%string /\ sforall is_word b = true).
  { intros kw gap sep H.
    destruct (search_sound _ _ _ H) as (before & rest0 & -> & Hm).
    destruct (match_here_pattern _ _ _ _ _ Hm)
      as (sp & a & mid & sp' & b & rest & -> & Hrest).
    exists before, sp, a, mid, sp', b, rest. split; [reflexivity|exact Hrest]. }
  split; [|reflexivity].
  repeat (apply Forall_cons; [split; [cbn [direction_patterns In]; tauto|apply Hshape]|]).
  apply Forall_nil.
Qed.

Lemma search_pattern_keywords kw gap sep text groups :
  Re.search (Re.pattern kw gap sep) text = Some groups ->
  contains kw text = true /\ contains sep text = true.
Proof.
  intros H. destruct (search_sound _ _ _ H) as (before & rest0 & -> & Hm).
  destruct (match_here_pattern _ _ _ _ _ Hm)
    as (sp & a & mid & sp' & b & rest & -> & _).
  unfold template_text. split.
  - rewrite !string_app_assoc. apply contains_app.
  - replace (before ++ (kw ++ sp ++ a ++ mid ++ sep ++ sp' ++ b) ++ rest)%string
      with ((before ++ kw ++ sp ++ a ++ mid) ++ sep ++ (sp' ++ b ++ rest))%string
      by (now rewrite !string_app_assoc).
    apply contains_app.
Qed.

(** X11. The directional pass leaves the scores as they are when, for
    each template, the lowered query lacks the template's keyword or its
    separator. *)
Theorem pattern_pass_needs_keywords (ratio : string -> string -> Q)
    (s : EnhancedSearch) (query : string) (scores : Scores) :
  contains "von" (lower query) && contains "nach" (lower query) = false ->
  contains "from" (lower query) && contains "to" (lower query) = false ->
  contains "zwischen" (lower query) && contains "und" (lower query) = false ->
  contains "between" (lower query) && contains "and" (lower query) = false ->
  _pattern_based_search ratio s query scores = Some scores.
Proof.
  intros H1 H2 H3 H4.
  assert (Hnone : forall kw gap sep ptype scores,
    contains kw (lower query) && contains sep (lower query) = false ->
    apply_pattern ratio s query (Re.pattern kw gap sep, ptype) scores = Some scores).
  { intros kw gap sep ptype m H. unfold apply_pattern, resolve_pattern. cbn [fst].
    destruct (Re.search (Re.pattern kw gap sep) (lower query)) as [groups|] eqn:E;
      [|reflexivity].
    destruct (search_pattern_keywords _ _ _ _ _ E) as [Hk Hs].
    rewrite Hk, Hs in H. discriminate. }
  unfold _pattern_based_search, direction_patterns. cbn [for_each].
  rewrite (Hnone _ _ _ _ _ H1). cbn.
  rewrite (Hnone _ _ _ _ _ H2). cbn.
  rewrite (Hnone _ _ _ _ _ H3). cbn.
  rewrite (Hnone _ _ _ _ _ H4). reflexivity.
Qed.

(** ** What [search] changes, and what its result depends on *)

Lemma for_each_ext {A S} (l : list A) (f g : A -> S -> option S) :
  (forall x st, In x l -> f x st = g x st) ->
  forall st, for_each l f st = for_each l g st.
Proof.
  induction l as [|x l IH]; intros H st; [reflexivity|].
  cbn [for_each]. rewrite (H x st) by now left.
  destruct (g x st) as [st'|]; [|reflexivity].
  apply IH. intros y st0 Hy. apply H. now right.
Qed.

Lemma for_each_forall2 {A B S} (R : A -> B -> Prop)
    (f : A -> S -> option S) (g : B -> S -> option S) l1 l2 :
  Forall2 R l1 l2 ->
  (forall x y st, R x y -> f x st = g y st) ->
  forall st, for_each l1 f st = for_each l2 g st.
Proof.
  intros HR H. induction HR as [|x y l1 l2 Hxy _ IH]; intros st; [reflexivity|].
  cbn [for_each]. rewrite (H x y st Hxy).
  destruct (g y st) as [st'|]; [apply IH|reflexivity].
Qed.

Lemma forall2_strengthen {A B} (R R' : A -> B -> Prop) l1 l2 :
  Forall2 R l1 l2 ->
  (forall x y, In x l1 -> In y l2 -> R x y -> R' x y) ->
  Forall2 R' l1 l2.
Proof.
  induction 1 as [|x y l1 l2 Hxy _ IH]; intros H; constructor.
  - apply H; [now left|now left|assumption].
  - apply IH. intros a b Ha Hb. apply H; now right.
Qed.

Lemma forall2_filter {A B} (R : A -> B -> Prop) (p : A -> bool) (q : B -> bool) l1 l2 :
  Forall2 (fun x y => R x y /\ p x = q y) l1 l2 ->
  Forall2 R (filter p l1) (filter q l2).
Proof.
  induction 1 as [|x y l1 l2 [Hxy Hpq] _ IH]; [constructor|].
  cbn [filter]. rewrite Hpq. destruct (q y); [constructor|]; assumption.
Qed.

Lemma forall2_firstn {A B} (R : A -> B -> Prop) n : forall l1 l2,
  Forall2 R l1 l2 -> Forall2 R (firstn n l1) (firstn n l2).
Proof.
  induction n as [|n IH]; intros l1 l2 H; [constructor|].
  destruct H; cbn [firstn]; constructor; auto.
Qed.

Lemma forall2_map {A B A' B'} (R : A' -> B' -> Prop) (f : A -> A') (g : B -> B') l1 l2 :
  Forall2 (fun x y => R (f x) (g y)) l1 l2 -> Forall2 R (map f l1) (map g l2).
Proof. induction 1; cbn [map]; constructor; assumption. Qed.

Lemma forall2_functional {A B} (R : A -> B -> Prop) l :
  (forall x y y', R x y -> R x y' -> y = y') ->
  forall l1 l2, Forall2 R l l1 -> Forall2 R l l2 -> l1 = l2.
Proof.
  intros Hf. induction l as [|x l IH]; intros l1 l2 H1 H2;
    inversion H1; inversion H2; subst; [reflexivity|].
  f_equal; [eapply Hf; eassumption|now apply IH].
Qed.

Lemma nodup_map_filter {A B} (f : A -> B) (p : A -> bool) l :
  NoDup (map f l) -> NoDup (map f (filter p l)).
Proof.
  induction l as [|x l IH]; intros H; [constructor|].
  cbn [map] in H. inversion H as [|? ? Hnot Hnd]; subst. cbn [filter].
  destruct (p x); [|now apply IH]. cbn [map]. constructor; [|now apply IH].
  intros Hin. apply Hnot. apply in_map_iff in Hin as (y & Hy & Hin).
  apply filter_In in Hin as [Hin _]. rewrite <- Hy. now apply in_map.
Qed.

Lemma nodup_map_firstn {A B} (f : A -> B) n : forall l,
  NoDup (map f l) -> NoDup (map f (firstn n l)).
Proof.
  induction n as [|n IH]; intros [|x l] H; cbn [firstn map]; try constructor.
  - cbn [map] in H. inversion H as [|? ? Hnot Hnd]; subst.
    intros Hin. apply Hnot. apply in_map_iff in Hin as (y & Hy & Hin).
    apply in_firstn in Hin. rewrite <- Hy. now apply in_map.
  - cbn [map] in H. inversion H; subst. now apply IH.
Qed.

Lemma nodup_map_insert_desc {A B} (f : A -> B) (key : A -> Q) x l :
  NoDup (map f (x :: l)) -> NoDup (map f (insert_desc key x l)).
Proof.
  induction l as [|y l IH]; intros H; [exact H|].
  cbn [insert_desc]. destruct (Qlt_bool (key x) (key y)); [|exact H].
  cbn [map] in *. inversion H as [|? ? Hx Hnd]; subst.
  inversion Hnd as [|? ? Hy Hnd']; subst.
  constructor.
  - intros Hin. apply in_map_iff in Hin as (z & Hz & Hin).
    destruct (proj1 (in_insert_desc key x l z) Hin) as [->|Hin'].
    + apply Hx. rewrite <- Hz. now left.
    + apply Hy. rewrite <- Hz. now apply in_map.
  - apply IH. constructor; [|assumption].
    intros Hin. apply Hx. now right.
Qed.

Lemma nodup_map_sort_desc {A B} (f : A -> B) (key : A -> Q) l :
  NoDup (map f l) -> NoDup (map f (sort_desc key l)).
Proof.
  induction l as [|x l IH]; intros H; [constructor|].
  cbn [sort_desc fold_right]. apply nodup_map_insert_desc.
  cbn [map] in *. inversion H as [|? ? Hx Hnd]; subst.
  constructor; [|now apply IH].
  intros Hin. apply Hx. apply in_map_iff in Hin as (z & Hz & Hin).
  rewrite <- Hz. apply in_map. exact (proj1 (in_sort_desc key l z) Hin).
Qed.

Lemma nodup_map_slice_to {A B} (f : A -> B) n l :
  NoDup (map f l) -> NoDup (map f (slice_to n l)).
Proof. unfold slice_to. destruct (0 <=? n)%Z; apply nodup_map_firstn. Qed.

(** The loop that annotates the ranked records writes the records of the
    ranked ids and no other. *)
Lemma annotate_frame ranked : forall flows direct matching flows' direct' matching',
  for_each ranked annotate (flows, direct, matching) = Some (flows', direct', matching') ->
  (forall k, ~ In k (map fst ranked) -> Dict.get k flows' = Dict.get k flows)
  /\ (NoDup (map fst ranked) ->
      forall entry, In entry ranked ->
        exists flow,
          Dict.get (fst entry) flows = Some flow
          /\ Dict.get (fst entry) flows'
             = Some (Flow.set_search_score flow (round2 (snd entry)))).
Proof.
  induction ranked as [|entry ranked IH];
    intros flows direct matching flows' direct' matching' H.
  - cbn [for_each] in H. inversion H; subst. split; [reflexivity|]. intros _ e [].
  - cbn [for_each annotate] in H.
    destruct (Dict.get (fst entry) flows) as [flow|] eqn:Hflow; [|discriminate].
    cbn in H. apply IH in H. destruct H as [Hother Hranked]. split.
    + intros k Hk. cbn [map In] in Hk.
      rewrite Hother by tauto. apply get_set_other. intros ->. tauto.
    + intros Hnd e He. cbn [map] in Hnd. inversion Hnd as [|? ? Hnot Hnd']; subst.
      destruct He as [->|He].
      * exists flow. split; [assumption|].
        rewrite Hother by assumption. apply get_set_same.
      * destruct (Hranked Hnd' e He) as (f & Hf & Hf').
        exists f. split; [|assumption].
        rewrite get_set_other in Hf; [assumption|].
        intros Heq. apply Hnot. rewrite <- Heq. now apply in_map.
Qed.

Lemma wf_id_get s k f :
  well_formed s -> Dict.get k (flow_index s) = Some f -> Flow.id f = k.
Proof.
  intros Hwf H. apply get_some_in in H.
  exact (proj1 (Forall_forall _ _) (wf_ids s Hwf) _ H).
Qed.

Section SearchRun.

Variable ratio : string -> string -> Q.

(** One call of [search], with the store that the annotation loop
    leaves. *)
Lemma search_run s query max_results :
  well_formed s ->
  exists scores flows' direct,
    flow_scores ratio s (lower query) = Some scores
    /\ NoDup (map fst (slice_to max_results (sorted_results scores)))
    /\ (forall entry, In entry (slice_to max_results (sorted_results scores)) ->
          In (fst entry) (Dict.keys (flow_index s)))
    /\ for_each (slice_to max_results (sorted_results scores)) annotate
         (flow_index s, [], [])
       = Some (flows', direct, fold_left add_systems direct [])
    /\ agree flows' (flow_index s)
    /\ Forall2 (annotates (flow_index s))
         (slice_to max_results (sorted_results scores)) direct
    /\ search ratio s query max_results
       = Some (Result.mk direct
                 (firstn 10 (filter (is_related direct (fold_left add_systems direct []))
                               (Dict.values flows')))
                 (fold_left add_systems direct [])
                 (query_entities s (lower query))
                 (_generate_response (lower query) direct
                    (filter (is_related direct (fold_left add_systems direct []))
                       (Dict.values flows'))
                    (query_entities s (lower query))),
               with_flows s flows').
Proof.
  intros Hwf.
  destruct (flow_scores_credits ratio s Hwf (lower query))
    as (scores & voc & Hscores & _ & _ & Hkeys & _).
  assert (Hin : forall entry,
            In entry (slice_to max_results (sorted_results scores)) ->
            In (fst entry) (Dict.keys (flow_index s))).
  { intros entry He. apply in_slice_to in He. unfold sorted_results in He.
    apply (proj1 (in_sort_desc _ _ _)) in He. apply filter_In in He as [He _].
    rewrite <- Hkeys. now apply in_map. }
  destruct (annotate_loop (flow_index s)
              (slice_to max_results (sorted_results scores))
              (flow_index s) [] [] (agree_refl _) Hin)
    as (flows' & direct & Hrun & Hag & Hdirect).
  cbn [app] in Hrun.
  exists scores, flows', direct.
  split; [assumption|]. split.
  { apply nodup_map_slice_to. unfold sorted_results.
    apply nodup_map_sort_desc, nodup_map_filter.
    change (map fst scores) with (Dict.keys scores). rewrite Hkeys.
    apply (wf_nodup s Hwf). }
  split; [assumption|]. split; [assumption|]. split; [assumption|].
  split; [assumption|].
  unfold search. rewrite Hscores, Hrun. reflexivity.
Qed.

End SearchRun.

(** X12. One call of [search] changes nothing of the searcher but records
    of the flow index: each direct result is the record now stored under
    its id, and it is the record stored before up to [search_score]; the
    record of every other id, with a score that an earlier query may have
    left in it, is stored unchanged. *)
Theorem search_frame (ratio : string -> string -> Q) (ds : Store.t)
    (s s' : EnhancedSearch) (query : string) (max_results : Z) (r : Result.t) :
  serving ratio ds s ->
  search ratio s query max_results = Some (r, s') ->
  s' = with_flows s (flow_index s')
  /\ Dict.keys (flow_index s') = Dict.keys (flow_index s)
  /\ NoDup (map Flow.id (Result.direct_results r))
  /\ (forall d, In d (Result.direct_results r) ->
        Dict.get (Flow.id d) (flow_index s') = Some d
        /\ exists flow, Dict.get (Flow.id d) (flow_index s) = Some flow
                        /\ same_fields d flow)
  /\ (forall k, ~ In k (map Flow.id (Result.direct_results r)) ->
        Dict.get k (flow_index s') = Dict.get k (flow_index s)).
Proof.
  intros Hserving Hsearch.
  pose proof (serving_well_formed _ _ _ Hserving) as Hwf.
  destruct (search_run ratio s query max_results Hwf)
    as (scores & flows' & direct & _ & Hnd & _ & Hrun & Hag & Hdirect & Hs).
  rewrite Hs in Hsearch. inversion Hsearch; subst r s'. clear Hsearch Hs.
  cbn [Result.direct_results with_flows flow_index].
  destruct (annotate_frame _ _ _ _ _ _ _ Hrun) as [Hother Hranked].
  specialize (Hranked Hnd).
  assert (Hids : map Flow.id direct
                 = map fst (slice_to max_results (sorted_results scores))).
  { clear Hrun Hother Hranked Hnd.
    induction Hdirect as [|entry d ranked direct (flow & Hflow & ->) _ IH];
      [reflexivity|].
    cbn [map]. f_equal; [|exact IH].
    cbn [Flow.set_search_score Flow.id]. now apply (wf_id_get s). }
  split; [reflexivity|]. split; [apply Hag|]. split; [now rewrite Hids|]. split.
  - intros d Hd.
    assert (Hex : exists entry,
              In entry (slice_to max_results (sorted_results scores))
              /\ annotates (flow_index s) entry d).
    { clear - Hdirect Hd. induction Hdirect as [|entry d0 ranked direct H0 _ IH];
        [destruct Hd|].
      destruct Hd as [->|Hd].
      - exists entry. split; [now left|assumption].
      - destruct (IH Hd) as (e & He & Ha). exists e. split; [now right|assumption]. }
    destruct Hex as (entry & He & flow & Hflow & ->).
    cbn [Flow.set_search_score Flow.id]. rewrite (wf_id_get s _ _ Hwf Hflow).
    destruct (Hranked entry He) as (flow' & Hflow' & Hstored).
    rewrite Hflow in Hflow'. inversion Hflow'; subst flow'.
    split; [assumption|]. exists flow. split; [assumption|apply same_fields_set].
  - intros k Hk. apply Hother. now rewrite <- Hids.
Qed.

(** ** Earlier queries do not change the answer *)

Lemma agree_sym a b : agree a b -> agree b a.
Proof.
  intros [Hk Hg]. split; [now symmetry|].
  intros k f0 H0.
  assert (Hin : In k (Dict.keys a)).
  { rewrite Hk. eapply get_some_in_keys; eassumption. }
  destruct (in_keys_get _ _ Hin) as (f & Hf).
  destruct (Hg _ _ Hf) as (f0' & H0' & S).
  exists f. split; [assumption|]. rewrite H0 in H0'. inversion H0'; subst.
  unfold same_fields in *. now symmetry.
Qed.

Lemma agree_same_store a : forall b,
  NoDup (Dict.keys a) -> agree a b -> same_store a b.
Proof.
  induction a as [|[k f] a IH]; intros [|[k0 f0] b] Hnd [Hk Hg];
    try discriminate; [constructor|].
  cbn [Dict.keys map fst] in Hk, Hnd. injection Hk as <- Hk.
  inversion Hnd as [|? ? Hnot Hnd']; subst.
  constructor.
  - split; [reflexivity|]. cbn [snd].
    destruct (Hg k f) as (f0' & H0 & S).
    { cbn [Dict.get]. now rewrite String.eqb_refl. }
    cbn [Dict.get] in H0. rewrite String.eqb_refl in H0. now inversion H0; subst.
  - apply IH; [assumption|]. split; [assumption|].
    intros k2 f2 H2.
    assert (Hne : String.eqb k2 k = false).
    { apply String.eqb_neq. intros ->. apply Hnot.
      eapply get_some_in_keys; eassumption. }
    destruct (Hg k2 f2) as (f2' & H2' & S).
    { cbn [Dict.get]. now rewrite Hne. }
    cbn [Dict.get] in H2'. rewrite Hne in H2'. eauto.
Qed.

Lemma same_store_keys a b : same_store a b -> Dict.keys a = Dict.keys b.
Proof.
  induction 1 as [|x y a b [Hk _] _ IH]; [reflexivity|].
  cbn [Dict.keys map]. f_equal; assumption.
Qed.

Lemma same_store_get a b k :
  same_store a b ->
  match Dict.get k a, Dict.get k b with
  | Some f, Some f0 => same_fields f f0
  | None, None => True
  | _, _ => False
  end.
Proof.
  induction 1 as [|[k1 f1] [k2 f2] a b [Hk S] _ IH]; [exact I|].
  cbn [fst snd] in Hk, S. subst k2. cbn [Dict.get].
  destruct (String.eqb k k1); [exact S|exact IH].
Qed.

Lemma pattern_hit_same ptype system1 system2 a b :
  same_fields a b ->
  pattern_hit ptype system1 system2 a = pattern_hit ptype system1 system2 b.
Proof.
  intros H. unfold pattern_hit.
  now rewrite (same_fields_source _ _ H), (same_fields_target _ _ H).
Qed.

Section SameStore.

Variable ratio : string -> string -> Q.
Variable s0 : EnhancedSearch.
Variables a b : Dict.t Flow.t.
Hypothesis Hsame : same_store a b.

Lemma entities_same_store e scores :
  _search_with_entities (with_flows s0 a) e scores
  = _search_with_entities (with_flows s0 b) e scores.
Proof.
  unfold _search_with_entities.
  replace (for_each (Entities.systems e)
             (credit_system (with_flows s0 a) (Entities.direction e)) scores)
    with (for_each (Entities.systems e)
            (credit_system (with_flows s0 b) (Entities.direction e)) scores);
    [reflexivity|].
  apply for_each_ext. intros system st _. unfold credit_system.
  cbn [with_flows system_index flow_index].
  destruct (Dict.get system (system_index s0)) as [ids|]; [|reflexivity].
  apply for_each_ext. intros fid st' _.
  pose proof (same_store_get a b fid Hsame) as H.
  destruct (Dict.get fid a) as [f|], (Dict.get fid b) as [f0|];
    try contradiction; [|reflexivity].
  cbn. now rewrite (system_weight_same _ _ _ _ H).
Qed.

Lemma vocabulary_same_store : vocabulary a = vocabulary b.
Proof.
  unfold vocabulary. apply (for_each_forall2 _ _ _ _ _ Hsame).
  intros x y st [Hk S]. now rewrite Hk, (same_fields_name _ _ S).
Qed.

Lemma fuzzy_same_store terms scores :
  _fuzzy_term_matching ratio (with_flows s0 a) terms scores
  = _fuzzy_term_matching ratio (with_flows s0 b) terms scores.
Proof.
  unfold _fuzzy_term_matching. cbn [with_flows flow_index].
  now rewrite vocabulary_same_store.
Qed.

Lemma pattern_same_store query scores :
  _pattern_based_search ratio (with_flows s0 a) query scores
  = _pattern_based_search ratio (with_flows s0 b) query scores.
Proof.
  unfold _pattern_based_search. apply for_each_ext. intros p st _.
  unfold apply_pattern.
  change (resolve_pattern ratio (with_flows s0 a) query (fst p))
    with (resolve_pattern ratio (with_flows s0 b) query (fst p)).
  destruct (resolve_pattern ratio (with_flows s0 b) query (fst p))
    as [[system1 system2]|]; [|reflexivity].
  cbn [with_flows flow_index].
  apply (for_each_forall2 _ _ _ _ _ Hsame).
  intros x y st' [Hk S]. now rewrite Hk, (pattern_hit_same _ _ _ _ _ S).
Qed.

Lemma flow_scores_same_store query :
  flow_scores ratio (with_flows s0 a) query
  = flow_scores ratio (with_flows s0 b) query.
Proof.
  unfold flow_scores. cbn [with_flows flow_index].
  rewrite (same_store_keys _ _ Hsame).
  change (_extract_entities (with_flows s0 a) query)
    with (_extract_entities (with_flows s0 b) query).
  change (query_entities (with_flows s0 a) query)
    with (query_entities (with_flows s0 b) query).
  rewrite entities_same_store.
  destruct (_search_with_entities _ _ _) as [sc1|]; [|reflexivity]. cbn.
  rewrite fuzzy_same_store.
  destruct (_fuzzy_term_matching _ _ _ _) as [sc2|]; [|reflexivity]. cbn.
  change (_fulltext_search (with_flows s0 a)) with (_fulltext_search (with_flows s0 b)).
  destruct (_fulltext_search _ _ _) as [sc3|]; [|reflexivity]. cbn.
  apply pattern_same_store.
Qed.

End SameStore.

Lemma generate_response_length query direct related related' e :
  List.length related = List.length related' ->
  _generate_response query direct related e
  = _generate_response query direct related' e.
Proof.
  intros H. unfold _generate_response.
  assert (Hnil : is_nil related = is_nil related').
  { destruct related, related'; try discriminate; reflexivity. }
  now rewrite Hnil, H.
Qed.

Lemma forall2_same_length {A B} (R : A -> B -> Prop) l1 l2 :
  Forall2 R l1 l2 -> List.length l1 = List.length l2.
Proof. induction 1; cbn [List.length]; congruence. Qed.

Lemma flow_eqb_id a b : Flow.id a <> Flow.id b -> Flow.eqb a b = false.
Proof.
  intros H. unfold Flow.eqb. apply String.eqb_neq in H. rewrite H. reflexivity.
Qed.

Lemma existsb_false {A} (p : A -> bool) l :
  (forall x, In x l -> p x = false) -> existsb p l = false.
Proof.
  induction l as [|x l IH]; intros H; [reflexivity|].
  cbn [existsb]. rewrite (H x) by now left. apply IH. intros y Hy. apply H. now right.
Qed.

Lemma in_systems_same a b systems :
  same_fields a b ->
  in_systems (Flow.source_system a) systems = in_systems (Flow.source_system b) systems
  /\ in_systems (Flow.target_system a) systems
     = in_systems (Flow.target_system b) systems.
Proof.
  intros H. now rewrite (same_fields_source _ _ H), (same_fields_target _ _ H).
Qed.

(** X13. The answer of [search] does not depend on the queries served
    before: on a searcher that has served queries, every call returns,
    and it returns the direct results, the matching systems, the
    entities and the sentence that the freshly constructed searcher
    returns; the related flows are the same records up to the
    [search_score] that an earlier query left in them. *)
Theorem search_history_independent (ratio : string -> string -> Q) (ds : Store.t)
    (s : EnhancedSearch) (query : string) (max_results : Z) :
  serving ratio ds s ->
  exists r s' r0 s0',
    search ratio s query max_results = Some (r, s')
    /\ search ratio (init ds) query max_results = Some (r0, s0')
    /\ Result.direct_results r = Result.direct_results r0
    /\ Result.matching_systems r = Result.matching_systems r0
    /\ Result.query_entities r = Result.query_entities r0
    /\ Result.natural_response r = Result.natural_response r0
    /\ Forall2 same_fields (Result.related_flows r) (Result.related_flows r0).
Proof.
  intros Hserving.
  destruct (serving_invariant _ _ _ Hserving) as (Hwf & Hs & Hag).
  pose proof (serving_well_formed ratio ds (init ds) (serving_init ratio ds)) as Hwf0.
  pose proof (agree_same_store _ _ (wf_nodup s Hwf) Hag) as Hsame.
  destruct (search_run ratio s query max_results Hwf)
    as (scores & flows' & direct & Hscores & Hnd & Hin & Hrun & Hag' & Hdirect & Hsearch).
  destruct (search_run ratio (init ds) query max_results Hwf0)
    as (scores0 & flows0' & direct0 & Hscores0 & _ & _ & Hrun0 & Hag0' & Hdirect0
        & Hsearch0).
  assert (Hsc : scores0 = scores).
  { rewrite Hs in Hscores.
    rewrite (flow_scores_same_store ratio (init ds) _ _ Hsame) in Hscores.
    replace (with_flows (init ds) (flow_index (init ds))) with (init ds) in Hscores
      by reflexivity.
    congruence. }
  subst scores0.
  set (ranked := slice_to max_results (sorted_results scores)) in *.
  assert (Hd : direct0 = direct).
  { apply (forall2_functional (annotates (flow_index s)) ranked).
    - intros entry d d' (f & Hf & ->) (f' & Hf' & ->). congruence.
    - revert Hdirect0. apply Forall2_impl.
      intros entry d (f0 & Hf0 & ->).
      pose proof (same_store_get _ _ (fst entry) Hsame) as H.
      rewrite Hf0 in H.
      destruct (Dict.get (fst entry) (flow_index s)) as [f|] eqn:Hf; [|contradiction].
      exists f. split; [exact Hf|]. symmetry. now apply same_fields_score.
    - assumption. }
  subst direct0.
  set (matching := fold_left add_systems direct []) in *.
  assert (Hrel : Forall2 same_fields
                   (filter (is_related direct matching) (Dict.values flows'))
                   (filter (is_related direct matching) (Dict.values flows0'))).
  { apply forall2_filter. unfold Dict.values. apply forall2_map.
    assert (Hst : same_store flows' flows0').
    { apply agree_same_store.
      - destruct Hag' as [-> _]. apply (wf_nodup s Hwf).
      - eapply agree_trans; [exact Hag'|].
        eapply agree_trans; [exact Hag|]. now apply agree_sym. }
    assert (Hnd' : NoDup (Dict.keys flows')).
    { destruct Hag' as [-> _]. apply (wf_nodup s Hwf). }
    assert (Hnd0' : NoDup (Dict.keys flows0')).
    { destruct Hag0' as [-> _]. apply (wf_nodup _ Hwf0). }
    destruct (annotate_frame _ _ _ _ _ _ _ Hrun) as [Hother Hranked].
    destruct (annotate_frame _ _ _ _ _ _ _ Hrun0) as [Hother0 Hranked0].
    apply (forall2_strengthen _ _ _ _ Hst).
    intros [k f] [k0 f0] Hx Hy [Hk S]. cbn [fst snd] in *. subst k0.
    split; [assumption|].
    apply (in_get_nodup _ _ _ Hnd') in Hx. apply (in_get_nodup _ _ _ Hnd0') in Hy.
    destruct (in_dec string_dec k (map fst ranked)) as [Hk|Hk].
    - apply in_map_iff in Hk as (entry & <- & He).
      destruct (Hranked Hnd entry He) as (g & Hg & Hg').
      destruct (Hranked0 Hnd entry He) as (g0 & Hg0 & Hg0').
      assert (f = f0); [|now subst].
      rewrite Hx in Hg'. rewrite Hy in Hg0'.
      inversion Hg'; inversion Hg0'; subst.
      apply same_fields_score.
      pose proof (same_store_get _ _ (fst entry) Hsame) as H.
      now rewrite Hg, Hg0 in H.
    - unfold is_related.
      destruct (in_systems_same f f0 matching S) as [-> ->].
      assert (Hids : forall d, In d direct -> In (Flow.id d) (map fst ranked)).
      { clear - Hdirect Hwf. intros d Hd.
        induction Hdirect as [|entry d0 ranked direct (flow & Hflow & Hd0) _ IH];
          [destruct Hd|].
        destruct Hd as [<-|Hd]; [left|right; now apply IH].
        subst d0. cbn [Flow.set_search_score Flow.id].
        symmetry. now apply (wf_id_get s). }
      assert (Hf : Flow.id f = k).
      { rewrite Hother in Hx by assumption. now apply (wf_id_get s). }
      assert (Hf0 : Flow.id f0 = k).
      { rewrite Hother0 in Hy by assumption. now apply (wf_id_get (init ds)). }
      rewrite !existsb_false; [reflexivity| |].
      + intros d Hd. apply flow_eqb_id. rewrite Hf0. intros Heq.
        apply Hk. rewrite Heq. now apply Hids.
      + intros d Hd. apply flow_eqb_id. rewrite Hf. intros Heq.
        apply Hk. rewrite Heq. now apply Hids. }
  eexists _, _, _, _.
  split; [exact Hsearch|]. split; [exact Hsearch0|].
  cbn [Result.direct_results Result.matching_systems Result.query_entities
         Result.natural_response Result.related_flows].
  split; [reflexivity|]. split; [reflexivity|].
  assert (He : query_entities s (lower query) = query_entities (init ds) (lower query)).
  { rewrite Hs. reflexivity. }
  split; [exact He|]. split.
  - rewrite He. apply generate_response_length.
    now apply forall2_same_length in Hrel.
  - now apply forall2_firstn.
Qed.

(** ** The service functions *)

Lemma filter_filter {A} (p q : A -> bool) l :
  filter q (filter p l) = filter (fun x => p x && q x) l.
Proof.
  induction l as [|x l IH]; [reflexivity|].
  cbn [filter]. destruct (p x); cbn [filter andb]; [|exact IH].
  destruct (q x); now rewrite IH.
Qed.

Lemma filter_true {A} (l : list A) : filter (fun _ => true) l = l.
Proof. induction l as [|x l IH]; [reflexivity|]. cbn [filter]. now rewrite IH. Qed.

Lemma filter_field_filter field value flows :
  Main.filter_field field value flows
  = filter (fun flow => negb (truthy value) || field_is (field flow) (text value)) flows.
Proof.
  unfold Main.filter_field. destruct (truthy value); cbn [negb orb];
    [reflexivity|now rewrite filter_true].
Qed.

Lemma filter_transmission_filter value flows :
  Main.filter_transmission value flows
  = if existsb lacks_method flows then inl Main.TypeError
    else inr (filter
                (fun flow => contains value (text (Flow.transmission_method flow)))
                flows).
Proof.
  induction flows as [|flow flows IH]; [reflexivity|].
  cbn [Main.filter_transmission existsb filter]. unfold lacks_method at 1.
  destruct (Flow.transmission_method flow) as [methods|]; [|reflexivity].
  cbn [orb text]. rewrite IH. now destruct (existsb lacks_method flows).
Qed.

(** X14. [get_data_flows] returns the catalog flows, in catalog order,
    that pass every filter given with a non-empty value; without filters
    it returns the whole catalog.  It fails, with a [TypeError], exactly
    when a transmission method is asked for and one of the flows that
    pass the other filters has no transmission method. *)
Theorem get_data_flows_filters (data_flows : list Flow.t)
    (source_system target_system format transmission_method : option string) :
  let kept := filter (selected source_system target_system format) data_flows in
  Main.get_data_flows data_flows source_system target_system format
    transmission_method
  = (if truthy transmission_method
     then if existsb lacks_method kept then inl Main.TypeError
          else inr (filter
                      (fun flow =>
                         contains (text transmission_method)
                           (text (Flow.transmission_method flow)))
                      kept)
     else inr kept)
  /\ Main.get_data_flows data_flows None None None None = inr data_flows.
Proof.
  cbv zeta. split.
  - assert (Hkept : Main.filter_field Flow.format format
                      (Main.filter_field Flow.target_system target_system
                         (Main.filter_field Flow.source_system source_system
                            data_flows))
                    = filter (selected source_system target_system format) data_flows).
    { rewrite !filter_field_filter, !filter_filter. apply filter_ext.
      intros x. unfold selected. now rewrite andb_assoc. }
    unfold Main.get_data_flows. cbv zeta. rewrite Hkept.
    destruct (truthy transmission_method); [|reflexivity].
    apply filter_transmission_filter.
  - reflexivity.
Qed.

Lemma find_some_first {A} (p : A -> bool) l x :
  find p l = Some x -> In x l /\ p x = true.
Proof. apply find_some. Qed.

Lemma find_rev_unique {A} (p : A -> bool) (l : list A) :
  (forall x y, In x l -> In y l -> p x = true -> p y = true -> x = y) ->
  find p (rev l) = find p l.
Proof.
  intros Huniq. destruct (find p l) as [x|] eqn:E.
  - apply find_some in E as [Hin Hp]. apply find_unique.
    + now apply in_rev in Hin.
    + assumption.
    + intros y Hy Hpy. apply in_rev in Hy. now apply Huniq.
  - destruct (find p (rev l)) as [y|] eqn:E'; [|reflexivity].
    apply find_some in E' as [Hin Hp]. apply in_rev in Hin.
    now rewrite (find_none _ _ E _ Hin) in Hp.
Qed.

(** X15. With distinct ids, [get_data_flow] returns for an id the record
    that the searcher's flow index holds under it, and "not found" exactly
    for the ids that the index lacks. *)
Theorem get_data_flow_agrees (ds : Store.t) (flow_id : string) :
  NoDup (map Flow.id (Store.data_flows ds)) ->
  Main.get_data_flow (Store.data_flows ds) flow_id
  = match Dict.get flow_id (flow_index (init ds)) with
    | Some flow => inr flow
    | None => inl Main.NotFound
    end.
Proof.
  intros Hnd. destruct (flow_index_find_last ds) as (Hget & _).
  rewrite Hget. unfold Main.get_data_flow. rewrite find_rev_unique; [reflexivity|].
  intros x y Hx Hy Hpx Hpy. apply String.eqb_eq in Hpx, Hpy.
  apply (nodup_map_unique Flow.id (Store.data_flows ds)); congruence.
Qed.

Lemma in_scored_copies data_flows query d :
  In d (Main.scored_copies data_flows query)
  <-> exists flow,
        In flow data_flows
        /\ Qlt_bool 0 (Main.basic_score query flow) = true
        /\ d = Flow.set_search_score flow (Main.basic_score query flow).
Proof.
  unfold Main.scored_copies. rewrite in_flat_map. split.
  - intros (flow & Hin & Hd).
    destruct (Qlt_bool 0 (Main.basic_score query flow)) eqn:E; [|destruct Hd].
    destruct Hd as [<-|[]]. now exists flow.
  - intros (flow & Hin & E & ->). exists flow. split; [assumption|].
    rewrite E. now left.
Qed.

Lemma before_flat_map {A B} (f : A -> list B) (l : list A) a b :
  (forall x, List.length (f x) <= 1) ->
  Before (flat_map f l) a b ->
  exists x y, Before l x y /\ In a (f x) /\ In b (f y).
Proof.
  intros Hone. induction l as [|z l IH]; cbn [flat_map]; [intros []|].
  specialize (Hone z). destruct (f z) as [|c [|c' rest]] eqn:E.
  - cbn [app]. intros H. destruct (IH H) as (x & y & Hb & Ha & Hb').
    exists x, y. cbn [Before]. auto.
  - cbn [app Before]. intros [[-> Hin]|H].
    + apply in_flat_map in Hin as (y & Hy & Hb).
      exists z, y. rewrite E. cbn [Before In]. auto.
    + destruct (IH H) as (x & y & Hb & Ha & Hb').
      exists x, y. cbn [Before]. auto.
  - cbn [List.length] in Hone. lia.
Qed.

Lemma basic_score_bounds query flow :
  Qlt_bool 0 (Main.basic_score query flow) = true ->
  (1 <= Main.basic_score query flow <= 9.5)%Q.
Proof.
  unfold Main.basic_score.
  destruct (Main.field_hit query (Flow.name flow)),
    (Main.field_hit query (Flow.description flow)),
    (Main.field_hit query (Flow.source_system flow)),
    (Main.field_hit query (Flow.target_system flow)),
    (Main.field_hit query (Flow.format flow)),
    (Main.field_hit query (Flow.transmission_method flow)),
    (Main.interface_hit query (Flow.process_steps flow));
    intros H; try discriminate H; split; apply Qle_bool_iff; reflexivity.
Qed.

(** X16. The direct results of [process_basic_query] are copies of the
    catalog flows whose score is positive, each carrying its score, and
    every such flow has a copy among them; a score lies between 1 and
    9.5; the results stand in descending order of score, and results of
    equal score in the order of the catalog. *)
Theorem basic_query_results (data_flows : list Flow.t) (query : string) :
  let r := Main.process_basic_query data_flows query in
  let score := Main.basic_score (lower query) in
  (forall d,
      In d (Main.Basic.direct_results r)
      <-> exists flow,
            In flow data_flows /\ (0 < score flow)%Q
            /\ d = Flow.set_search_score flow (score flow))
  /\ (forall d, In d (Main.Basic.direct_results r) ->
        exists q, Flow.search_score d = Some q /\ (1 <= q <= 9.5)%Q)
  /\ (forall a b, Before (Main.Basic.direct_results r) a b ->
        (Main.score_key b <= Main.score_key a)%Q)
  /\ (forall a b, Before (Main.Basic.direct_results r) a b ->
        (Main.score_key a == Main.score_key b)%Q ->
        exists x y,
          Before data_flows x y
          /\ a = Flow.set_search_score x (score x)
          /\ b = Flow.set_search_score y (score y)).
Proof.
  cbv zeta. unfold Main.process_basic_query.
  cbn [Main.Basic.direct_results].
  split; [|split; [|split]].
  - intros d. rewrite (in_sort_desc Main.score_key), in_scored_copies.
    split; intros (flow & Hin & Hpos & Hd); exists flow;
      (split; [assumption|split; [|assumption]]).
    + now apply Qlt_bool_true.
    + now apply Qlt_bool_true.
  - intros d Hd. apply (proj1 (in_sort_desc Main.score_key _ _)) in Hd.
    apply in_scored_copies in Hd as (flow & _ & Hpos & ->).
    eexists. split; [reflexivity|]. now apply basic_score_bounds.
  - intros a b H. exact (sort_desc_sorted Main.score_key _ _ _ H).
  - intros a b H Heq. apply (sort_desc_stable Main.score_key) in H; [|assumption].
    apply before_flat_map in H.
    + destruct H as (x & y & Hb & Hx & Hy). exists x, y.
      split; [assumption|]. cbv beta zeta in Hx, Hy.
      destruct (Qlt_bool 0 (Main.basic_score (lower query) x)); [|destruct Hx].
      destruct (Qlt_bool 0 (Main.basic_score (lower query) y)); [|destruct Hy].
      destruct Hx as [<-|[]], Hy as [<-|[]]. split; reflexivity.
    + intros x. cbv beta zeta.
      destruct (Qlt_bool 0 (Main.basic_score (lower query) x));
        cbn [List.length]; lia.
Qed.

Lemma add_systems_incl acc flow x : In x acc -> In x (add_systems acc flow).
Proof.
  intros H. unfold add_systems.
  destruct (truthy (Flow.target_system flow)), (truthy (Flow.source_system flow));
    repeat (apply (proj2 (set_add_in _ _ _)); right); assumption.
Qed.

Lemma add_systems_own acc flow :
  (truthy (Flow.source_system flow) = true ->
   In (text (Flow.source_system flow)) (add_systems acc flow))
  /\ (truthy (Flow.target_system flow) = true ->
      In (text (Flow.target_system flow)) (add_systems acc flow)).
Proof.
  unfold add_systems. split; intros H; rewrite ?H.
  - destruct (truthy (Flow.target_system flow)).
    + apply (proj2 (set_add_in _ _ _)). right.
      apply (proj2 (set_add_in _ _ _)). now left.
    + apply (proj2 (set_add_in _ _ _)). now left.
  - apply (proj2 (set_add_in _ _ _)). now left.
Qed.

Lemma systems_incl flows : forall acc x,
  In x acc -> In x (fold_left add_systems flows acc).
Proof.
  induction flows as [|d flows IH]; intros acc x H; [exact H|].
  cbn [fold_left]. apply IH. now apply add_systems_incl.
Qed.

Lemma systems_of_complete flows d : forall acc,
  In d flows ->
  (truthy (Flow.source_system d) = true ->
   In (text (Flow.source_system d)) (fold_left add_systems flows acc))
  /\ (truthy (Flow.target_system d) = true ->
      In (text (Flow.target_system d)) (fold_left add_systems flows acc)).
Proof.
  induction flows as [|d0 flows IH]; intros acc Hd; [destruct Hd|].
  cbn [fold_left]. destruct Hd as [->|Hd]; [|now apply IH].
  destruct (add_systems_own acc d) as [Hs Ht].
  split; intros H; apply systems_incl; auto.
Qed.

Lemma in_systems_complete o systems :
  truthy o = true -> In (text o) systems -> in_systems o systems = true.
Proof.
  intros Ht Hin. unfold in_systems. rewrite Ht. cbn [andb].
  exact (proj2 (mem_In _ _) Hin).
Qed.

Lemma flow_eqb_score a b score :
  Flow.search_score a = None -> Flow.eqb a (Flow.set_search_score b score) = false.
Proof.
  intros H. unfold Flow.eqb. rewrite H. cbn [Flow.set_search_score Flow.search_score
                                               Flow.score_eqb].
  apply andb_false_r.
Qed.

(** X17. Every related flow of [process_basic_query] is a catalog flow
    that has a system of some direct result as source or target.  The
    direct results are copies that carry a score, so the test
    [flow not in results] removes no catalog flow without a score: a
    catalog flow that is a direct result and has a source or a target
    is listed among the related flows as well. *)
Theorem basic_query_related (data_flows : list Flow.t) (query : string) :
  let r := Main.process_basic_query data_flows query in
  (forall flow, In flow (Main.Basic.related_flows r) ->
     In flow data_flows
     /\ exists d system,
          In d (Main.Basic.direct_results r) /\ system <> ""%string
          /\ (Flow.source_system flow = Some system
              \/ Flow.target_system flow = Some system)
          /\ (Flow.source_system d = Some system
              \/ Flow.target_system d = Some system))
  /\ (forall flow,
        In flow data_flows ->
        Flow.search_score flow = None ->
        (0 < Main.basic_score (lower query) flow)%Q ->
        truthy (Flow.source_system flow) || truthy (Flow.target_system flow) = true ->
        In flow (Main.Basic.related_flows r)
        /\ In (Flow.set_search_score flow (Main.basic_score (lower query) flow))
             (Main.Basic.direct_results r)).
Proof.
  cbv zeta. unfold Main.process_basic_query.
  cbn [Main.Basic.direct_results Main.Basic.related_flows].
  set (results := sort_desc Main.score_key (Main.scored_copies data_flows (lower query))).
  split.
  - intros flow H. apply filter_In in H as [Hin H]. split; [assumption|].
    apply andb_true_iff in H as [_ H]. apply orb_true_iff in H.
    assert (Hsys : forall o, in_systems o (systems_of results) = true ->
              exists d system, In d results /\ system <> ""%string /\ o = Some system
                /\ (Flow.source_system d = Some system
                    \/ Flow.target_system d = Some system)).
    { intros o Ho. apply in_systems_some in Ho as (x & -> & Hx & Hmem).
      apply systems_in in Hmem as [[]|(d & Hd & _ & Hds)].
      now exists d, x. }
    destruct H as [H|H]; apply Hsys in H as (d & system & Hd & Hne & Ho & Hds);
      exists d, system; auto.
  - intros flow Hin Hnone Hpos Hsys.
    assert (Hd : In (Flow.set_search_score flow (Main.basic_score (lower query) flow))
                   results).
    { apply (proj2 (in_sort_desc Main.score_key _ _)). apply in_scored_copies.
      exists flow. split; [assumption|]. split; [|reflexivity].
      now apply Qlt_bool_true. }
    split; [|assumption].
    apply filter_In. split; [assumption|]. apply andb_true_iff. split.
    + apply negb_true_iff. apply existsb_false. intros d Hd'.
      apply (proj1 (in_sort_desc Main.score_key _ _)) in Hd'.
      apply in_scored_copies in Hd' as (f & _ & _ & ->).
      now apply flow_eqb_score.
    + destruct (systems_of_complete results _ [] Hd) as [Hs Ht].
      cbn [Flow.set_search_score Flow.source_system Flow.target_system] in Hs, Ht.
      apply orb_true_iff in Hsys. apply orb_true_iff.
      destruct Hsys as [H|H]; [left|right]; apply in_systems_complete; auto.
Qed.

(** ** The smallest score of a direct result *)

Lemma credit_sized_nonneg q : credit_sized q -> (0 <= q)%Q.
Proof.
  intros [H|H]; [rewrite H; apply Qle_refl|].
  eapply Qle_trans; [|exact H]. discriminate.
Qed.

Lemma credit_sized_zero : credit_sized 0.
Proof. left. reflexivity. Qed.

Lemma credit_sized_eq a b : (a == b)%Q -> credit_sized a -> credit_sized b.
Proof. intros E [H|H]; [left|right]; now rewrite <- E. Qed.

Lemma credit_sized_plus a b : credit_sized a -> credit_sized b -> credit_sized (a + b).
Proof.
  intros Ha Hb. pose proof (credit_sized_nonneg _ Ha) as Na.
  pose proof (credit_sized_nonneg _ Hb) as Nb.
  destruct Ha as [Ha|Ha].
  - destruct Hb as [Hb|Hb]; [left|right].
    + rewrite Ha, Hb. reflexivity.
    + rewrite Ha, Qplus_0_l. exact Hb.
  - right. rewrite <- (Qplus_0_r 0.7). now apply Qplus_le_compat.
Qed.

Lemma credit_sized_sum {A} (l : list A) c :
  (forall x, credit_sized (c x)) -> credit_sized (sum_over l c).
Proof.
  intros H. induction l as [|x l IH]; [apply credit_sized_zero|].
  rewrite sum_over_cons. now apply credit_sized_plus.
Qed.

Lemma credit_sized_times n w : (0.7 <= w)%Q -> credit_sized (times n w).
Proof.
  intros H. destruct n as [|n].
  - left. apply times_zero.
  - right. eapply Qle_trans; [exact H|]. apply times_pos_ge; [lia|].
    eapply Qle_trans; [|exact H]. discriminate.
Qed.

Lemma credit_sized_credit_of f fid w : credit_sized w -> credit_sized (credit_of f fid w).
Proof.
  intros H. unfold credit_of. destruct (String.eqb f fid);
    [assumption|apply credit_sized_zero].
Qed.

Lemma credit_sized_weight direction system flow :
  credit_sized (system_weight direction system flow).
Proof.
  right. unfold system_weight.
  repeat match goal with
         | |- context [if ?b then _ else _] => destruct b
         end; discriminate.
Qed.

Lemma credit_sized_entity s e f : credit_sized (entity_credit s e f).
Proof.
  unfold entity_credit.
  apply credit_sized_plus; [apply credit_sized_plus; [apply credit_sized_plus|]|];
    apply credit_sized_sum; intros x.
  - unfold system_credit. apply credit_sized_sum. intros fid.
    apply credit_sized_credit_of. unfold weight_of.
    destruct (Dict.get fid (flow_index s));
      [apply credit_sized_weight|apply credit_sized_zero].
  - apply credit_sized_times. discriminate.
  - apply credit_sized_times. discriminate.
  - apply credit_sized_times. discriminate.
Qed.

Lemma credit_sized_fulltext s tokens f : credit_sized (fulltext_credit s tokens f).
Proof.
  unfold fulltext_credit. apply credit_sized_plus; apply credit_sized_sum; intros x;
    apply credit_sized_times; [discriminate|apply Qle_refl].
Qed.

Lemma credit_sized_fuzzy ratio voc terms f :
  credit_sized (fuzzy_credit ratio voc terms f).
Proof.
  unfold fuzzy_credit. apply credit_sized_sum. intros term. unfold term_credit.
  destruct (String.length term <? 3); [apply credit_sized_zero|].
  apply credit_sized_sum. intros m. unfold match_credit.
  destruct (Qle_bool 80 (snd (fst m))) eqn:E; [|apply credit_sized_zero].
  apply credit_sized_times. apply Qle_bool_iff in E.
  apply Qle_shift_div_l; [reflexivity|].
  eapply Qle_trans; [|exact E]. discriminate.
Qed.

Lemma credit_sized_pattern ratio s query f p :
  credit_sized (pattern_credit ratio s query f p).
Proof.
  unfold pattern_credit.
  destruct (resolve_pattern ratio s query (fst p)) as [[system1 system2]|];
    [|apply credit_sized_zero].
  apply credit_sized_sum. intros entry.
  destruct (pattern_hit (snd p) system1 system2 (snd entry));
    [|apply credit_sized_zero].
  apply credit_sized_credit_of. right. discriminate.
Qed.

Lemma round_half_even_floor q :
  (Qnum q / Zpos (Qden q) <= round_half_even q)%Z.
Proof.
  unfold round_half_even. cbv zeta.
  destruct (2 * (Qnum q mod Zpos (Qden q)) <? Zpos (Qden q))%Z; [lia|].
  destruct (Zpos (Qden q) <? 2 * (Qnum q mod Zpos (Qden q)))%Z; [lia|].
  destruct (Z.even (Qnum q / Zpos (Qden q))); lia.
Qed.

Lemma round2_floor q : (0.7 <= q)%Q -> (0.7 <= round2 q)%Q.
Proof.
  intros H. unfold round2.
  pose proof (round_half_even_floor (q * 100)) as Hf.
  assert (H70 : (70 <= Qnum (q * 100) / Zpos (Qden (q * 100)))%Z).
  { apply Z.div_le_lower_bound; [reflexivity|].
    unfold Qle in H. destruct q as [n d]. cbn [Qnum Qden Qmult] in *. lia. }
  unfold Qle. cbn [Qnum Qden]. lia.
Qed.

(** X18. Every direct result of [search] carries a score of at least
    0.7, the smallest single credit: the final score of a flow is a sum
    of credits of at least 0.7 each, and rounding to two decimals does
    not take it below. *)
Theorem direct_result_score_floor (ratio : string -> string -> Q) (ds : Store.t)
    (s s' : EnhancedSearch) (query : string) (max_results : Z) (r : Result.t) :
  serving ratio ds s ->
  search ratio s query max_results = Some (r, s') ->
  (forall scores f,
      flow_scores ratio s (lower query) = Some scores ->
      (score_of scores f == 0 \/ 0.7 <= score_of scores f)%Q)
  /\ (forall d, In d (Result.direct_results r) ->
        exists q, Flow.search_score d = Some q /\ (0.7 <= q)%Q).
Proof.
  intros Hserving Hsearch.
  pose proof (serving_well_formed _ _ _ Hserving) as Hwf.
  assert (Hsized : forall scores f,
            flow_scores ratio s (lower query) = Some scores ->
            credit_sized (score_of scores f)).
  { intros scores f Hscores.
    destruct (flow_scores_credits ratio s Hwf (lower query))
      as (scores0 & voc & Hscores0 & _ & _ & _ & Hsum).
    rewrite Hscores in Hscores0. inversion Hscores0; subst scores0.
    apply (credit_sized_eq _ _ (Qeq_sym _ _ (Hsum f))).
    apply credit_sized_plus; [apply credit_sized_plus; [apply credit_sized_plus|]|].
    - apply credit_sized_entity.
    - apply credit_sized_fuzzy.
    - apply credit_sized_fulltext.
    - apply credit_sized_sum. intros p. apply credit_sized_pattern. }
  split; [exact Hsized|].
  destruct (search_run ratio s query max_results Hwf)
    as (scores & flows' & direct & Hscores & _ & _ & _ & _ & Hdirect & Hs).
  rewrite Hs in Hsearch. inversion Hsearch; subst r s'. clear Hsearch Hs.
  cbn [Result.direct_results]. intros d Hd.
  assert (Hex : exists entry,
            In entry (slice_to max_results (sorted_results scores))
            /\ annotates (flow_index s) entry d).
  { clear - Hdirect Hd. induction Hdirect as [|entry d0 ranked direct H0 _ IH];
      [destruct Hd|].
    destruct Hd as [->|Hd].
    - exists entry. split; [now left|assumption].
    - destruct (IH Hd) as (e & He & Ha). exists e. split; [now right|assumption]. }
  destruct Hex as (entry & He & flow & _ & ->).
  exists (round2 (snd entry)). split; [reflexivity|]. apply round2_floor.
  apply in_slice_to in He. unfold sorted_results in He.
  apply (proj1 (in_sort_desc _ _ _)) in He. apply filter_In in He as [He Hpos].
  apply Qlt_bool_true in Hpos.
  destruct (flow_scores_credits ratio s Hwf (lower query))
    as (scores0 & _ & Hscores0 & _ & _ & Hkeys & _).
  rewrite Hscores in Hscores0. inversion Hscores0; subst scores0.
  assert (Hget : Dict.get (fst entry) scores = Some (snd entry)).
  { apply in_get_nodup; [rewrite Hkeys; apply (wf_nodup s Hwf)|].
    now destruct entry. }
  destruct (Hsized scores (fst entry) Hscores) as [H0|H7].
  - unfold score_of, Dict.get_default in H0. rewrite Hget in H0.
    rewrite H0 in Hpos. discriminate.
  - unfold score_of, Dict.get_default in H7. now rewrite Hget in H7.
Qed.

(** ** The sentence, and two edge cases of [search] *)

Lemma string_app_first c (a b : string) : (String c a ++ b)%string = String c (a ++ b).
Proof. reflexivity. Qed.

(** X19. [_generate_response] gives the "nothing found" sentence exactly
    when there is neither a direct result nor a related flow; every
    other sentence begins differently. *)
Theorem response_nothing_found (query : string) (direct_results related_flows : list Flow.t)
    (e : Entities.t) :
  _generate_response query direct_results related_flows e = nothing_found query
  <-> direct_results = [] /\ related_flows = [].
Proof.
  unfold _generate_response. split.
  - destruct direct_results as [|d direct]; [destruct related_flows as [|g related]|];
      cbn [is_nil andb]; [auto| |].
    + destruct (entity_mention e); unfold nothing_found;
        rewrite !string_app_first; intros H; discriminate H.
    + destruct (entity_mention e); unfold nothing_found;
        rewrite !string_app_first; intros H; discriminate H.
  - intros [-> ->]. reflexivity.
Qed.

(** X20. With [max_results = 0] a call of [search] returns no direct
    result and no related flow, and says that nothing was found, whatever
    the query matches; the searcher is left as it was. *)
Theorem search_zero_limit (ratio : string -> string -> Q) (ds : Store.t)
    (s : EnhancedSearch) (query : string) :
  serving ratio ds s ->
  exists r,
    search ratio s query 0 = Some (r, s)
    /\ Result.direct_results r = []
    /\ Result.related_flows r = []
    /\ Result.matching_systems r = []
    /\ Result.natural_response r = nothing_found (lower query).
Proof.
  intros Hserving. pose proof (serving_well_formed _ _ _ Hserving) as Hwf.
  destruct (search_run ratio s query 0 Hwf)
    as (scores & flows' & direct & _ & _ & _ & Hrun & _ & _ & Hs).
  change (slice_to 0 (sorted_results scores)) with (@nil (string * Q)) in Hrun.
  cbn [for_each] in Hrun. inversion Hrun; subst flows' direct. clear Hrun.
  cbn [fold_left] in Hs.
  assert (Hnone : filter (is_related [] []) (Dict.values (flow_index s)) = []).
  { apply filter_none. intros flow _. unfold is_related, in_systems, mem.
    cbn [existsb]. now rewrite !andb_false_r. }
  rewrite Hnone in Hs.
  replace (with_flows s (flow_index s)) with s in Hs by (now destruct s).
  eexists. split; [exact Hs|].
  cbn [Result.direct_results Result.related_flows Result.matching_systems
         Result.natural_response firstn].
  repeat split.
Qed.

(** X21. A query that one of the two "from ... to" templates matches
    holds "von" or "from", so the entities carry the direction "from":
    the direction "to" is recognized only without these two words. *)
Theorem template_direction (s : EnhancedSearch) (query : string)
    (groups : list string) :
  Re.search (Re.pattern "von" false "nach") (lower query) = Some groups
  \/ Re.search (Re.pattern "from" false "to") (lower query) = Some groups ->
  Entities.direction (_extract_entities s query) = Some DirFrom
  /\ (forall query',
        Entities.direction (_extract_entities s query') = Some DirTo ->
        contains "von" (lower query') = false
        /\ contains "from" (lower query') = false).
Proof.
  intros H. split.
  - assert (Hkw : contains "von" (lower query) || contains "from" (lower query) = true).
    { destruct H as [H|H]; apply search_pattern_keywords in H as [H _]; rewrite H;
        [reflexivity|apply orb_true_r]. }
    unfold _extract_entities. cbn [Entities.direction]. unfold detect_direction.
    cbv zeta. now rewrite Hkw.
  - intros query'. unfold _extract_entities. cbn [Entities.direction].
    unfold detect_direction. cbv zeta.
    destruct (contains "von" (lower query')), (contains "from" (lower query'));
      cbn [orb]; try discriminate. auto.
Qed.

(** ** The loader's sets and the keys of the indices *)

Lemma keys_index_append key fid (idx : Index) k :
  In k (Dict.keys (index_append key fid idx)) <-> k = key \/ In k (Dict.keys idx).
Proof.
  unfold index_append. destruct (Dict.get key idx); rewrite keys_set; apply set_add_in.
Qed.

Lemma value_hits_pos value k :
  0 < value_hits value k <-> value = Some k /\ k <> ""%string.
Proof.
  unfold value_hits. destruct value as [v|]; cbn [field_is].
  - destruct (String.eqb v k) eqn:E.
    + apply String.eqb_eq in E. subst v. destruct k as [|c k]; cbn.
      * split; [lia|]. intros [_ H]. now elim H.
      * split; [|lia]. intros _. split; [reflexivity|discriminate].
    + cbn. apply String.eqb_neq in E. split; [lia|]. intros [[= H] _]. contradiction.
  - cbn. split; [lia|]. intros [H _]. discriminate.
Qed.

Ltac member_cases :=
  cbn [In]; split; intros;
  repeat match goal with
         | H : _ \/ _ |- _ => destruct H
         | H : _ /\ _ |- _ => destruct H
         | H : False |- _ => destruct H
         | H : Some _ = Some _ |- _ => injection H as H
         | H : None = Some _ |- _ => discriminate H
         end;
  subst; try congruence; auto 7.

Lemma keys_index_value fid value (idx : Index) k :
  In k (Dict.keys (index_value fid value idx))
  <-> In k (Dict.keys idx) \/ 0 < value_hits value k.
Proof.
  rewrite value_hits_pos. unfold index_value. destruct value as [v|].
  - destruct (is_empty v) eqn:E.
    + destruct v; [|discriminate]. member_cases.
    + rewrite keys_index_append. apply is_empty_false in E. member_cases.
  - member_cases.
Qed.

Lemma keys_index_methods fid value (idx : Index) k :
  In k (Dict.keys (index_methods fid value idx))
  <-> In k (Dict.keys idx) \/ In k (methods_of value).
Proof.
  unfold index_methods, methods_of. destruct value as [v|]; [|cbn [In]; tauto].
  destruct (is_empty v); [cbn [In]; tauto|].
  generalize (split_on ";" v). intros methods. revert idx.
  induction methods as [|m methods IH]; intros idx; cbn [fold_left map filter];
    [cbn [In]; tauto|].
  rewrite IH. destruct (is_empty (strip m)); cbn [negb]; [tauto|].
  rewrite keys_index_append. cbn [In]. intuition.
Qed.

Lemma keys_index_steps fid steps : forall (idx : Index) k,
  In k (Dict.keys (index_steps fid steps idx))
  <-> In k (Dict.keys idx) \/ In k (interfaces_of steps).
Proof.
  unfold index_steps, interfaces_of.
  induction steps as [|step steps IH]; intros idx k; cbn [fold_left flat_map];
    [cbn [In]; tauto|].
  rewrite IH, keys_index_value, value_hits_pos, in_app_iff.
  destruct (Step.interface step) as [i|].
  - destruct (is_empty i) eqn:E.
    + destruct i; [|discriminate]. member_cases.
    + apply is_empty_false in E. member_cases.
  - member_cases.
Qed.

(** The keys of one index after the flows are indexed, given what one
    flow adds to them. *)
Lemma keys_index_from (proj : EnhancedSearch -> Index) (member : Flow.t -> string -> Prop) :
  (forall s g k,
      In k (Dict.keys (proj (index_flow s g)))
      <-> In k (Dict.keys (proj s)) \/ member g k) ->
  forall flows s k,
    In k (Dict.keys (proj (fold_left index_flow flows s)))
    <-> In k (Dict.keys (proj s)) \/ exists g, In g flows /\ member g k.
Proof.
  intros Hstep. induction flows as [|g flows IH]; intros s k; cbn [fold_left].
  - split; [auto|]. intros [H|(g & [] & _)]. assumption.
  - rewrite IH, Hstep. cbn [In]. split.
    + intros [[H|H]|(g' & Hg' & H)]; eauto.
    + intros [H|(g' & [->|Hg'] & H)]; eauto.
Qed.

Lemma in_add_value value acc k :
  In k (Main.add_value value acc) <-> In k acc \/ 0 < value_hits value k.
Proof.
  rewrite value_hits_pos. unfold Main.add_value. destruct value as [v|]; cbn [truthy text].
  - destruct (is_empty v) eqn:E; cbn [negb].
    + destruct v; [|discriminate]. member_cases.
    + rewrite set_add_in. apply is_empty_false in E. member_cases.
  - member_cases.
Qed.

Lemma in_add_interfaces steps : forall acc k,
  In k (Main.add_interfaces steps acc) <-> In k acc \/ In k (interfaces_of steps).
Proof.
  unfold Main.add_interfaces, interfaces_of.
  induction steps as [|step steps IH]; intros acc k; cbn [fold_left flat_map];
    [cbn [In]; tauto|].
  rewrite IH, in_add_value, value_hits_pos, in_app_iff.
  destruct (Step.interface step) as [i|].
  - destruct (is_empty i) eqn:E.
    + destruct i; [|discriminate]. member_cases.
    + apply is_empty_false in E. member_cases.
  - member_cases.
Qed.

Lemma in_add_methods value acc k :
  In k (Main.add_methods value acc) <-> In k acc \/ In k (listed_methods value).
Proof.
  unfold Main.add_methods, listed_methods.
  destruct value as [v|]; cbn [truthy text]; [|cbn [In]; tauto].
  destruct (is_empty v); cbn [negb]; [cbn [In]; tauto|].
  destruct (contains ";" v).
  - generalize (split_on ";" v). intros methods. revert acc.
    induction methods as [|m methods IH]; intros acc; cbn [fold_left map filter];
      [cbn [In]; tauto|].
    rewrite IH. destruct (is_empty (strip m)); cbn [negb]; [tauto|].
    rewrite set_add_in. cbn [In]. intuition.
  - rewrite set_add_in. cbn [In]. intuition.
Qed.

(** The sets of the store after the flows are read, given what one flow
    adds to them. *)
Lemma store_set_from (proj : Store.t -> list string) (member : Flow.t -> string -> Prop) :
  (forall ds g k, In k (proj (Main.add_flow ds g)) <-> In k (proj ds) \/ member g k) ->
  forall flows ds k,
    In k (proj (fold_left Main.add_flow flows ds))
    <-> In k (proj ds) \/ exists g, In g flows /\ member g k.
Proof.
  intros Hstep. induction flows as [|g flows IH]; intros ds k; cbn [fold_left].
  - split; [auto|]. intros [H|(g & [] & _)]. assumption.
  - rewrite IH, Hstep. cbn [In]. split.
    + intros [[H|H]|(g' & Hg' & H)]; eauto.
    + intros [H|(g' & [->|Hg'] & H)]; eauto.
Qed.

Lemma store_flows_from flows : forall ds,
  Store.data_flows (fold_left Main.add_flow flows ds) = Store.data_flows ds ++ flows.
Proof.
  induction flows as [|g flows IH]; intros ds; cbn [fold_left].
  - now rewrite app_nil_r.
  - rewrite IH. cbn [Main.add_flow Store.data_flows]. now rewrite <- app_assoc.
Qed.

Lemma split_on_no_separator sep v : forall cur,
  contains (String sep "") v = false -> split_on_from sep cur v = [(cur ++ v)%string].
Proof.
  induction v as [|c v IH]; intros cur H; cbn [split_on_from].
  - now rewrite string_app_nil_r.
  - cbn [contains prefix] in H. apply orb_false_iff in H as [Hc Hv].
    destruct (Ascii.eqb c sep) eqn:E.
    + apply Ascii.eqb_eq in E. subst c.
      destruct (ascii_dec sep sep) as [_|Hne]; [|now elim Hne].
      destruct v; discriminate Hc.
    + rewrite IH by assumption. now rewrite string_app_assoc.
Qed.

Lemma methods_listed_stripped v k :
  strip v = v -> (In k (listed_methods (Some v)) <-> In k (methods_of (Some v))).
Proof.
  intros Hstrip. unfold listed_methods, methods_of.
  destruct (is_empty v) eqn:E; [tauto|].
  destruct (contains ";" v) eqn:Hc; [tauto|].
  unfold split_on. rewrite (split_on_no_separator ";"%char v ""%string Hc).
  cbn [String.append map filter]. rewrite Hstrip, E. cbn [negb]. tauto.
Qed.

Lemma catalog_lists_kept flows : forall s,
  systems (fold_left index_flow flows s) = systems s
  /\ formats (fold_left index_flow flows s) = formats s
  /\ transmission_methods (fold_left index_flow flows s) = transmission_methods s
  /\ interfaces (fold_left index_flow flows s) = interfaces s.
Proof.
  induction flows as [|g flows IH]; intros s; [auto|].
  cbn [fold_left]. destruct (IH (index_flow s g)) as (-> & -> & -> & ->). auto.
Qed.

Section Loader.

Variable flows : list Flow.t.

Lemma store_of_flows : Store.data_flows (Main.store_of flows) = flows.
Proof. unfold Main.store_of. now rewrite store_flows_from. Qed.

Lemma store_of_set (proj : Store.t -> list string) (member : Flow.t -> string -> Prop) :
  proj (Store.mk [] [] [] [] []) = [] ->
  (forall ds g k, In k (proj (Main.add_flow ds g)) <-> In k (proj ds) \/ member g k) ->
  forall k, In k (proj (Main.store_of flows)) <-> exists g, In g flows /\ member g k.
Proof.
  intros Hnil Hstep k. unfold Main.store_of.
  rewrite (store_set_from proj member Hstep), Hnil. cbn [In]. tauto.
Qed.

Lemma init_keys (proj : EnhancedSearch -> Index) (member : Flow.t -> string -> Prop) :
  (forall s, proj (prepare_synonym_mapping s) = proj s) ->
  (forall a b c d, proj (mkSearch a b c d [] [] [] [] [] [] [] [] [] []) = []) ->
  (forall s g k,
      In k (Dict.keys (proj (index_flow s g)))
      <-> In k (Dict.keys (proj s)) \/ member g k) ->
  forall k,
    In k (Dict.keys (proj (init (Main.store_of flows))))
    <-> exists g, In g flows /\ member g k.
Proof.
  intros Hsyn Hnil Hstep k. unfold init. rewrite Hsyn.
  unfold create_search_indices. rewrite store_of_flows.
  rewrite (keys_index_from proj member Hstep), Hnil. cbn [Dict.keys map In]. tauto.
Qed.

Lemma init_lists :
  systems (init (Main.store_of flows)) = Store.systems (Main.store_of flows)
  /\ formats (init (Main.store_of flows)) = Store.formats (Main.store_of flows)
  /\ transmission_methods (init (Main.store_of flows))
     = Store.transmission_methods (Main.store_of flows)
  /\ interfaces (init (Main.store_of flows)) = Store.interfaces (Main.store_of flows).
Proof.
  unfold init, create_search_indices.
  cbn [prepare_synonym_mapping systems formats transmission_methods interfaces].
  destruct (catalog_lists_kept (Store.data_flows (Main.store_of flows))
              (mkSearch (Store.systems (Main.store_of flows))
                 (Store.formats (Main.store_of flows))
                 (Store.transmission_methods (Main.store_of flows))
                 (Store.interfaces (Main.store_of flows))
                 [] [] [] [] [] [] [] [] [] [])) as (-> & -> & -> & ->).
  cbn [systems formats transmission_methods interfaces]. auto.
Qed.

End Loader.

(** X22. On the store that [parse_xml_file] builds from the flows it has
    read, the searcher's catalog lists and index keys go together: a
    string is a catalog system, format or interface exactly when it is a
    key of the system, format or interface index.  The keys of the
    transmission index are the stripped non-empty parts of the
    transmission methods; the catalog lists these parts only for a text
    with a semicolon and lists any other text as it is, so the two
    coincide when no transmission method has white space around it. *)
Theorem loader_indices_agree (flows : list Flow.t) :
  let s := init (Main.store_of flows) in
  Store.data_flows (Main.store_of flows) = flows
  /\ (forall k, In k (systems s) <-> In k (Dict.keys (system_index s)))
  /\ (forall k, In k (formats s) <-> In k (Dict.keys (format_index s)))
  /\ (forall k, In k (interfaces s) <-> In k (Dict.keys (interface_index s)))
  /\ (forall k,
        In k (Dict.keys (transmission_index s))
        <-> exists g, In g flows /\ In k (methods_of (Flow.transmission_method g)))
  /\ (forall k,
        In k (transmission_methods s)
        <-> exists g, In g flows /\ In k (listed_methods (Flow.transmission_method g)))
  /\ ((forall g v, In g flows -> Flow.transmission_method g = Some v -> strip v = v) ->
      forall k, In k (transmission_methods s) <-> In k (Dict.keys (transmission_index s))).
Proof.
  cbv zeta. destruct (init_lists flows) as (Hsys & Hfmt & Hmeth & Hifc).
  assert (Hkmeth : forall k,
            In k (Dict.keys (transmission_index (init (Main.store_of flows))))
            <-> exists g, In g flows /\ In k (methods_of (Flow.transmission_method g))).
  { apply (init_keys flows transmission_index
             (fun g k => In k (methods_of (Flow.transmission_method g))));
      [reflexivity|reflexivity|].
    intros s g k. cbn [index_flow transmission_index]. apply keys_index_methods. }
  assert (Hlmeth : forall k,
            In k (transmission_methods (init (Main.store_of flows)))
            <-> exists g, In g flows
                          /\ In k (listed_methods (Flow.transmission_method g))).
  { rewrite Hmeth.
    apply (store_of_set flows Store.transmission_methods
             (fun g k => In k (listed_methods (Flow.transmission_method g))));
      [reflexivity|].
    intros ds g k. cbn [Main.add_flow Store.transmission_methods].
    apply in_add_methods. }
  split; [apply store_of_flows|].
  split; [|split; [|split; [|split; [exact Hkmeth|split; [exact Hlmeth|]]]]].
  - intros k. rewrite Hsys.
    rewrite (store_of_set flows Store.systems (fun g k => 0 < role_hits g k));
      [|reflexivity|].
    + symmetry. apply (init_keys flows system_index (fun g k => 0 < role_hits g k));
        [reflexivity|reflexivity|].
      intros s g k'. cbn [index_flow system_index].
      rewrite !keys_index_value. unfold role_hits. intuition lia.
    + intros ds g k'. cbn [Main.add_flow Store.systems].
      rewrite !in_add_value. unfold role_hits. intuition lia.
  - intros k. rewrite Hfmt.
    rewrite (store_of_set flows Store.formats
               (fun g k => 0 < value_hits (Flow.format g) k)); [|reflexivity|].
    + symmetry.
      apply (init_keys flows format_index
               (fun g k => 0 < value_hits (Flow.format g) k));
        [reflexivity|reflexivity|].
      intros s g k'. cbn [index_flow format_index]. apply keys_index_value.
    + intros ds g k'. cbn [Main.add_flow Store.formats]. apply in_add_value.
  - intros k. rewrite Hifc.
    rewrite (store_of_set flows Store.interfaces
               (fun g k => In k (interfaces_of (Flow.process_steps g))));
      [|reflexivity|].
    + symmetry.
      apply (init_keys flows interface_index
               (fun g k => In k (interfaces_of (Flow.process_steps g))));
        [reflexivity|reflexivity|].
      intros s g k'. cbn [index_flow interface_index]. apply keys_index_steps.
    + intros ds g k'. cbn [Main.add_flow Store.interfaces]. apply in_add_interfaces.
  - intros Hstripped k. rewrite Hlmeth, Hkmeth.
    split; intros (g & Hg & Hk); exists g; (split; [assumption|]);
      destruct (Flow.transmission_method g) as [v|] eqn:Ev; try (now destruct Hk);
      apply (methods_listed_stripped v k (Hstripped g v Hg Ev)); assumption.
Qed.

(* ================================================================= *)
(** * Ranking and related flows, on floating-point scores *)

(** ** The passes keep the ids of the score map *)

Lemma keeps_add fl K w fid : In fid K -> keeps K (Float64.add_score fl w fid).
Proof.
  intros Hin m HK. subst K. unfold Float64.add_score.
  destruct (in_keys_get _ _ Hin) as (v & Hv). rewrite Hv.
  eexists. split; [reflexivity|]. now apply keys_set_present.
Qed.

Lemma keeps_skip K : keeps K (@Some Scores).
Proof. intros m HK. now exists m. Qed.

Lemma keeps_bind K g1 g2 :
  keeps K g1 -> keeps K g2 -> keeps K (fun m => m' <- g1 m ;; g2 m').
Proof.
  intros H1 H2 m HK. destruct (H1 m HK) as (m1 & -> & HK1). exact (H2 m1 HK1).
Qed.

Lemma keeps_for_each {A} K (l : list A) body :
  (forall x, In x l -> keeps K (body x)) -> keeps K (for_each l body).
Proof.
  induction l as [|x l IH]; intros Hbody.
  - apply keeps_skip.
  - apply (keeps_bind K (body x) (for_each l body)).
    + apply Hbody. now left.
    + apply IH. intros y Hy. apply Hbody. now right.
Qed.

Lemma keeps_index fl K idx w key :
  index_ok K idx -> keeps K (Float64.credit_index fl idx w key).
Proof.
  intros Hok. unfold Float64.credit_index.
  destruct (Dict.get key idx) as [ids|] eqn:E; [|apply keeps_skip].
  apply keeps_for_each. intros fid Hfid. apply keeps_add. eapply Hok; eassumption.
Qed.

Section FloatPasses.

Variable fl : Q -> Q.
Variable ratio : string -> string -> Q.
Variable s : EnhancedSearch.
Hypothesis Hwf : well_formed s.

Lemma keeps_system direction system :
  keeps (Dict.keys (flow_index s)) (Float64.credit_system fl s direction system).
Proof.
  unfold Float64.credit_system.
  destruct (Dict.get system (system_index s)) as [ids|] eqn:E; [|apply keeps_skip].
  apply keeps_for_each. intros fid Hfid m HK.
  assert (Hin : In fid (Dict.keys (flow_index s)))
    by (eapply (wf_system s Hwf); eassumption).
  destruct (in_keys_get _ _ Hin) as (flow & ->).
  now apply keeps_add.
Qed.

Lemma keeps_entities e :
  keeps (Dict.keys (flow_index s)) (Float64._search_with_entities fl s e).
Proof.
  unfold Float64._search_with_entities.
  apply keeps_bind; [|apply keeps_bind; [|apply keeps_bind]];
    apply keeps_for_each; intros x _.
  - apply keeps_system.
  - apply keeps_index, (wf_format s Hwf).
  - apply keeps_index, (wf_transmission s Hwf).
  - apply keeps_index, (wf_interface s Hwf).
Qed.

Lemma keeps_fulltext tokens :
  keeps (Dict.keys (flow_index s)) (Float64._fulltext_search fl s tokens).
Proof.
  unfold Float64._fulltext_search.
  apply keeps_bind; apply keeps_for_each; intros x _; apply keeps_index;
    [apply (wf_name s Hwf)|apply (wf_description s Hwf)].
Qed.

Lemma keeps_fuzzy terms :
  keeps (Dict.keys (flow_index s)) (Float64._fuzzy_term_matching fl ratio s terms).
Proof.
  destruct (vocabulary_ok (flow_index s)) as (voc & Hvoc & _ & Hcount).
  intros m HK. unfold Float64._fuzzy_term_matching.
  destruct (is_nil terms); [now exists m|]. rewrite Hvoc.
  apply (keeps_for_each (Dict.keys (flow_index s)) terms); [|exact HK].
  intros term _. unfold Float64.credit_term.
  destruct (String.length term <? 3); [apply keeps_skip|].
  apply keeps_for_each. intros c _. unfold Float64.credit_match.
  destruct (Qle_bool 80 (snd (fst c))); [|apply keeps_skip].
  apply keeps_for_each. intros fid Hfid. apply keeps_add.
  apply occurrences_pos in Hfid. rewrite Hcount in Hfid.
  destruct (in_dec string_dec fid (Dict.keys (flow_index s))) as [H|H];
    [assumption|].
  rewrite name_count_absent in Hfid by assumption. lia.
Qed.

Lemma keeps_patterns query :
  keeps (Dict.keys (flow_index s)) (Float64._pattern_based_search fl ratio s query).
Proof.
  unfold Float64._pattern_based_search. apply keeps_for_each. intros p _.
  unfold Float64.apply_pattern.
  destruct (resolve_pattern ratio s query (fst p)) as [[system1 system2]|];
    [|apply keeps_skip].
  apply keeps_for_each. intros entry Hentry.
  destruct (pattern_hit (snd p) system1 system2 (snd entry)); [|apply keeps_skip].
  apply keeps_add. now apply in_map.
Qed.

(** The four passes never fail, and every record has a final score. *)
Lemma float_scores_total query :
  exists scores,
    Float64.flow_scores fl ratio s query = Some scores
    /\ Dict.keys scores = Dict.keys (flow_index s).
Proof.
  unfold Float64.flow_scores.
  apply (keeps_bind (Dict.keys (flow_index s)) _ _
           (keeps_entities (_extract_entities s query))
           (keeps_bind (Dict.keys (flow_index s)) _ _
              (keeps_fuzzy (Entities.unknown_terms (query_entities s query)))
              (keeps_bind (Dict.keys (flow_index s)) _ _
                 (keeps_fulltext (_tokenize (Some query)))
                 (keeps_patterns query)))).
  apply keys_zero_scores.
Qed.

End FloatPasses.

(** ** The annotation loop *)

Lemma float_annotate_loop fl flows0 ranked : forall flows direct matching,
  agree flows flows0 ->
  (forall entry, In entry ranked -> In (fst entry) (Dict.keys flows0)) ->
  exists flows' new,
    for_each ranked (Float64.annotate fl) (flows, direct, matching)
    = Some (flows', direct ++ new, fold_left add_systems new matching)
    /\ agree flows' flows0
    /\ Forall2
         (fun entry d =>
            exists flow,
              Dict.get (fst entry) flows0 = Some flow
              /\ d = Flow.set_search_score flow (Float64.rounded fl (snd entry)))
         ranked new.
Proof.
  induction ranked as [|entry ranked IH]; intros flows direct matching Hag Hin.
  - exists flows, []. rewrite app_nil_r.
    split; [reflexivity|]. split; [assumption|constructor].
  - cbn [for_each Float64.annotate].
    assert (Hk : In (fst entry) (Dict.keys flows)).
    { destruct Hag as [-> _]. apply Hin. now left. }
    destruct (in_keys_get _ _ Hk) as (flow & Hflow). rewrite Hflow.
    set (d := Flow.set_search_score flow (Float64.rounded fl (snd entry))).
    destruct (IH (Dict.set (fst entry) d flows) (direct ++ [d])
                (add_systems matching d))
      as (flows' & new & Hrun & Hag' & Hnew).
    + now apply agree_set.
    + intros e He. apply Hin. now right.
    + exists flows', (d :: new). split; [|split; [assumption|]].
      * transitivity (for_each ranked (Float64.annotate fl)
                        (Dict.set (fst entry) d flows, direct ++ [d],
                         add_systems matching d)); [reflexivity|].
        rewrite Hrun, <- app_assoc. reflexivity.
      * constructor; [|assumption].
        destruct Hag as [_ Hget]. destruct (Hget _ _ Hflow) as (f0 & H0 & S0).
        exists f0. split; [assumption|]. now apply same_fields_score.
Qed.

Lemma float_annotate_frame fl ranked :
  forall flows direct matching flows' direct' matching',
  for_each ranked (Float64.annotate fl) (flows, direct, matching)
  = Some (flows', direct', matching') ->
  (forall k, ~ In k (map fst ranked) -> Dict.get k flows' = Dict.get k flows)
  /\ (NoDup (map fst ranked) ->
      forall entry, In entry ranked ->
        exists flow,
          Dict.get (fst entry) flows = Some flow
          /\ Dict.get (fst entry) flows'
             = Some (Flow.set_search_score flow (Float64.rounded fl (snd entry)))).
Proof.
  induction ranked as [|entry ranked IH];
    intros flows direct matching flows' direct' matching' H.
  - cbn [for_each] in H. inversion H; subst. split; [reflexivity|]. intros _ e [].
  - cbn [for_each Float64.annotate] in H.
    destruct (Dict.get (fst entry) flows) as [flow|] eqn:Hflow; [|discriminate].
    cbn in H. apply IH in H. destruct H as [Hother Hranked]. split.
    + intros k Hk. cbn [map In] in Hk.
      rewrite Hother by tauto. apply get_set_other. intros ->. tauto.
    + intros Hnd e He. cbn [map] in Hnd. inversion Hnd as [|? ? Hnot Hnd']; subst.
      destruct He as [->|He].
      * exists flow. split; [assumption|].
        rewrite Hother by assumption. apply get_set_same.
      * destruct (Hranked Hnd' e He) as (f & Hf & Hf').
        exists f. split; [|assumption].
        rewrite get_set_other in Hf; [assumption|].
        intros Heq. apply Hnot. rewrite <- Heq. now apply in_map.
Qed.

(** ** One call of [search], and the searchers that serve *)

Section FloatSearch.

Variable fl : Q -> Q.
Variable ratio : string -> string -> Q.

Lemma float_search_run s query max_results :
  well_formed s ->
  exists scores flows' direct,
    Float64.flow_scores fl ratio s (lower query) = Some scores
    /\ Dict.keys scores = Dict.keys (flow_index s)
    /\ NoDup (map fst (slice_to max_results (sorted_results scores)))
    /\ for_each (slice_to max_results (sorted_results scores)) (Float64.annotate fl)
         (flow_index s, [], [])
       = Some (flows', direct, fold_left add_systems direct [])
    /\ agree flows' (flow_index s)
    /\ Forall2
         (fun entry d =>
            exists flow,
              Dict.get (fst entry) (flow_index s) = Some flow
              /\ d = Flow.set_search_score flow (Float64.rounded fl (snd entry)))
         (slice_to max_results (sorted_results scores)) direct
    /\ Float64.search fl ratio s query max_results
       = Some (Result.mk direct
                 (firstn 10 (filter (is_related direct (fold_left add_systems direct []))
                               (Dict.values flows')))
                 (fold_left add_systems direct [])
                 (query_entities s (lower query))
                 (_generate_response (lower query) direct
                    (filter (is_related direct (fold_left add_systems direct []))
                       (Dict.values flows'))
                    (query_entities s (lower query))),
               with_flows s flows').
Proof.
  intros Hwf.
  destruct (float_scores_total fl ratio s Hwf (lower query)) as (scores & Hscores & Hkeys).
  assert (Hin : forall entry,
            In entry (slice_to max_results (sorted_results scores)) ->
            In (fst entry) (Dict.keys (flow_index s))).
  { intros entry He. apply in_slice_to in He. unfold sorted_results in He.
    apply (proj1 (in_sort_desc _ _ _)) in He. apply filter_In in He as [He _].
    rewrite <- Hkeys. now apply in_map. }
  destruct (float_annotate_loop fl (flow_index s)
              (slice_to max_results (sorted_results scores))
              (flow_index s) [] [] (agree_refl _) Hin)
    as (flows' & direct & Hrun & Hag & Hdirect).
  cbn [app] in Hrun.
  exists scores, flows', direct.
  split; [assumption|]. split; [assumption|]. split.
  { apply nodup_map_slice_to. unfold sorted_results.
    apply nodup_map_sort_desc, nodup_map_filter.
    change (map fst scores) with (Dict.keys scores). rewrite Hkeys.
    apply (wf_nodup s Hwf). }
  split; [assumption|]. split; [assumption|]. split; [assumption|].
  unfold Float64.search. rewrite Hscores, Hrun. reflexivity.
Qed.

Lemma float_serving_invariant ds s :
  Float64.serving fl ratio ds s ->
  well_formed s
  /\ s = with_flows (init ds) (flow_index s)
  /\ agree (flow_index s) (flow_index (init ds)).
Proof.
  induction 1 as [|s query max_results r s' Hs (Hwf & Heq & Hag) Hsearch].
  - split; [apply well_formed_init|].
    split; [now destruct (init ds)|apply agree_refl].
  - destruct (float_search_run s query max_results Hwf)
      as (scores & flows' & direct & _ & _ & _ & _ & Hag' & _ & Hrun).
    rewrite Hrun in Hsearch. inversion Hsearch; subst r s'.
    split; [now apply well_formed_with_flows|].
    cbn [with_flows flow_index]. split.
    + rewrite Heq. reflexivity.
    + eapply agree_trans; eassumption.
Qed.

(** Without rounding the searcher is the one of the sections above. *)
Lemma float_search_exact s query max_results :
  Float64.search (fun q => q) ratio s query max_results
  = search ratio s query max_results.
Proof. reflexivity. Qed.

End FloatSearch.

(** ** Rounding to two decimals *)


(** ** The stored records *)

Lemma flow_eqb_same_id a b : Flow.eqb a b = true -> Flow.id a = Flow.id b.
Proof.
  unfold Flow.eqb. intros H.
  repeat (apply andb_true_iff in H as [H _]).
  now apply String.eqb_eq.
Qed.

Lemma values_ids (flows : Dict.t Flow.t) :
  Forall (fun entry => Flow.id (snd entry) = fst entry) flows ->
  map Flow.id (Dict.values flows) = Dict.keys flows.
Proof.
  unfold Dict.values, Dict.keys.
  induction 1 as [|[k f] flows Hk _ IH]; [reflexivity|].
  cbn [map fst snd] in *. now rewrite Hk, IH.
Qed.

Lemma in_values_get (flows : Dict.t Flow.t) g :
  NoDup (Dict.keys flows) ->
  Forall (fun entry => Flow.id (snd entry) = fst entry) flows ->
  In g (Dict.values flows) -> Dict.get (Flow.id g) flows = Some g.
Proof.
  intros Hnd Hids Hg. apply in_map_iff in Hg as ([k f] & <- & Hin).
  pose proof (proj1 (Forall_forall _ _) Hids _ Hin) as Hk.
  cbn [fst snd] in *. rewrite Hk. now apply in_get_nodup.
Qed.

Lemma stored_in_catalog ds flows k g :
  agree flows (flow_index (init ds)) -> Dict.get k flows = Some g ->
  exists g0, In g0 (Store.data_flows ds) /\ same_fields g g0.
Proof.
  intros [_ Hget] Hg. destruct (Hget k g Hg) as (g0 & H0 & S0).
  exists g0. split; [|assumption].
  destruct (flow_index_find_last ds) as (Hfind & _). rewrite Hfind in H0.
  apply find_some in H0 as [H0 _]. now apply in_rev in H0.
Qed.


(** C6. For every rounding of the float operations, the related flows of
    a call of [search] on a serving searcher are the first ten, in the
    order of the catalog, of the stored records that are no direct result
    and have a source or target that is the source or target of a direct
    result: the flow index holds one record per id of the catalog, in
    the order of the first occurrence of the ids, each a catalog record up
    to [search_score], and the list is read off it in this order without
    any ranking.  So no related flow is a direct result, each shares a
    system with one, and there are at most ten. *)
Theorem related_flows_expansion (fl : Q -> Q) (ratio : string -> string -> Q)
    (ds : Store.t) (s : EnhancedSearch) (query : string) (max_results : Z) :
  Float64.serving fl ratio ds s ->
  exists r s' keep,
    Float64.search fl ratio s query max_results = Some (r, s')
    /\ Result.related_flows r
       = firstn 10 (filter keep (Dict.values (flow_index s')))
    /\ (forall g, In g (Dict.values (flow_index s')) ->
          (keep g = true
           <-> ~ In g (Result.direct_results r)
               /\ shares_system (Result.direct_results r) g))
    /\ map Flow.id (Dict.values (flow_index s'))
       = to_set (map Flow.id (Store.data_flows ds))
    /\ (forall g, In g (Dict.values (flow_index s')) ->
          exists g0, In g0 (Store.data_flows ds) /\ same_fields g g0)
    /\ (forall d, In d (Result.direct_results r) ->
          In d (Dict.values (flow_index s')))
    /\ (forall g, In g (Result.related_flows r) -> ~ In g (Result.direct_results r))
    /\ (forall g, In g (Result.related_flows r) ->
          shares_system (Result.direct_results r) g)
    /\ List.length (Result.related_flows r) <= 10.
Proof.
  intros Hserving.
  destruct (float_serving_invariant fl ratio ds s Hserving) as (Hwf & _ & Hag0).
  destruct (float_search_run fl ratio s query max_results Hwf)
    as (scores & flows' & direct & _ & _ & Hndr & Hrun & Hag & Hdirect & Hsearch).
  set (matching := fold_left add_systems direct []) in *.
  exists (Result.mk direct
            (firstn 10 (filter (is_related direct matching) (Dict.values flows')))
            matching (query_entities s (lower query))
            (_generate_response (lower query) direct
               (filter (is_related direct matching) (Dict.values flows'))
               (query_entities s (lower query)))),
         (with_flows s flows'), (is_related direct matching).
  split; [exact Hsearch|].
  cbn [Result.related_flows Result.direct_results with_flows flow_index].
  pose proof (well_formed_with_flows s flows' Hwf Hag) as Hwf'.
  pose proof (wf_nodup _ Hwf') as Hnd'. pose proof (wf_ids _ Hwf') as Hids'.
  cbn [with_flows flow_index] in Hnd', Hids'.
  destruct (float_annotate_frame fl _ _ _ _ _ _ _ Hrun) as [_ Hranked].
  specialize (Hranked Hndr).
  assert (Hstored : forall d, In d direct -> Dict.get (Flow.id d) flows' = Some d).
  { intros d Hd.
    assert (Hex : exists entry,
              In entry (slice_to max_results (sorted_results scores))
              /\ exists flow,
                   Dict.get (fst entry) (flow_index s) = Some flow
                   /\ d = Flow.set_search_score flow (Float64.rounded fl (snd entry))).
    { clear - Hdirect Hd. induction Hdirect as [|entry d0 ranked direct H0 _ IH];
        [destruct Hd|].
      destruct Hd as [->|Hd].
      - exists entry. split; [now left|assumption].
      - destruct (IH Hd) as (e & He & Ha). exists e. split; [now right|assumption]. }
    destruct Hex as (entry & He & flow & Hflow & ->).
    cbn [Flow.set_search_score Flow.id]. rewrite (wf_id_get s _ _ Hwf Hflow).
    destruct (Hranked entry He) as (flow' & Hflow' & Hst).
    rewrite Hflow in Hflow'. now inversion Hflow'; subst flow'. }
  assert (Hkeep : forall g, In g (Dict.values flows') ->
            (is_related direct matching g = true
             <-> ~ In g direct /\ shares_system direct g)).
  { intros g Hg. unfold is_related. rewrite andb_true_iff, negb_true_iff, orb_true_iff.
    split.
    - intros [Hnot Hsys]. split.
      + intros Hin.
        assert (Ht : existsb (Flow.eqb g) direct = true).
        { apply existsb_exists. exists g. split; [assumption|apply flow_eqb_refl]. }
        congruence.
      + assert (H : exists x, x <> ""%string /\ In x matching
                              /\ (Flow.source_system g = Some x
                                  \/ Flow.target_system g = Some x)).
        { destruct Hsys as [H|H]; apply in_systems_some in H as (x & Hx & Hne & Hin);
            exists x; auto. }
        destruct H as (x & Hne & Hin & Hg').
        apply systems_in in Hin as [[]|(d & Hd & _ & Hd')].
        exists d, x. auto.
    - intros [Hnot (d & system & Hd & Hne & Hg' & Hd')]. split.
      + apply existsb_false. intros d' Hd'in.
        destruct (Flow.eqb g d') eqn:E; [|reflexivity].
        exfalso. apply Hnot. apply flow_eqb_same_id in E.
        pose proof (in_values_get flows' g Hnd' Hids' Hg) as Hgg.
        pose proof (Hstored d' Hd'in) as Hdd. rewrite <- E, Hgg in Hdd.
        inversion Hdd; subst d'. assumption.
      + assert (Hin : In system matching).
        { destruct (systems_of_complete direct d [] Hd) as [Hs Ht].
          destruct Hd' as [H|H]; [specialize (Hs)|specialize (Ht)].
          - rewrite H in Hs. cbn [truthy text] in Hs. apply Hs.
            destruct system; [now elim Hne|reflexivity].
          - rewrite H in Ht. cbn [truthy text] in Ht. apply Ht.
            destruct system; [now elim Hne|reflexivity]. }
        assert (Htr : truthy (Some system) = true)
          by (destruct system; [now elim Hne|reflexivity]).
        destruct Hg' as [H|H]; [left|right]; rewrite H;
          now apply in_systems_complete. }
  split; [reflexivity|]. split; [exact Hkeep|].
  split.
  { rewrite (values_ids flows' Hids'). destruct Hag as [-> _].
    destruct Hag0 as [-> _]. apply catalog_order. }
  split.
  { intros g Hg. pose proof (in_values_get flows' g Hnd' Hids' Hg) as Hgg.
    apply (stored_in_catalog ds flows' (Flow.id g)); [|assumption].
    eapply agree_trans; eassumption. }
  split.
  { intros d Hd. apply Hstored in Hd. apply get_some_in in Hd.
    unfold Dict.values. apply in_map_iff. now exists (Flow.id d, d). }
  split; [|split].
  - intros g Hg. apply in_firstn in Hg. apply filter_In in Hg as [Hin Hg].
    now apply (Hkeep g Hin) in Hg.
  - intros g Hg. apply in_firstn in Hg. apply filter_In in Hg as [Hin Hg].
    now apply (Hkeep g Hin) in Hg.
  - rewrite length_firstn. lia.
Qed.

(** ** Instances on the example catalogs, with binary64 rounding *)

(** The query "abcdefgx" is seven eighths like the name and a word of the
    description: the float sum of 0.875 and 0.7 lies below 1.575 and the
    record carries 1.57, where the sum without rounding gives 1.58. *)
Lemma float_rounding_example :
  exists r s' r0 s0',
    Float64.search binary64 fuzz_ratio (init float_store) "abcdefgx" default_max_results
    = Some (r, s')
    /\ map Flow.search_score (Result.direct_results r) = [Some (binary64 1.57)]
    /\ search fuzz_ratio (init float_store) "abcdefgx" default_max_results
       = Some (r0, s0')
    /\ map Flow.search_score (Result.direct_results r0) = [Some 1.58%Q].
Proof.
  eexists _, _, _, _. split; [vm_compute; reflexivity|].
  split; [vm_compute; reflexivity|]. split; [vm_compute; reflexivity|].
  vm_compute. reflexivity.
Qed.

(** On [tie_store] the float sum of "A", 1 + 1 and five times 0.7, lies
    above 5.5, the sum of "B": the floats rank "A" first, where the sums
    without rounding tie and leave "B" first, as in the catalog. *)
Lemma float_order_example :
  exists r s' r0 s0',
    Float64.search binary64 fuzz_ratio (init tie_store) "foo nomint as4 grid mira"
      default_max_results = Some (r, s')
    /\ map Flow.id (Result.direct_results r) = ["A"; "B"]%string
    /\ search fuzz_ratio (init tie_store) "foo nomint as4 grid mira"
         default_max_results = Some (r0, s0')
    /\ map Flow.id (Result.direct_results r0) = ["B"; "A"]%string
    /\ map Flow.search_score (Result.direct_results r0) = [Some 5.50%Q; Some 5.50%Q].
Proof.
  eexists _, _, _, _. split; [vm_compute; reflexivity|].
  split; [vm_compute; reflexivity|]. split; [vm_compute; reflexivity|].
  split; vm_compute; reflexivity.
Qed.


Lemma related_flows_expansion_witness :
  Float64.serving binary64 fuzz_ratio example_store (init example_store)
  /\ exists r s' keep,
       Float64.search binary64 fuzz_ratio (init example_store) "export"
         default_max_results = Some (r, s')
       /\ Result.related_flows r
          = firstn 10 (filter keep (Dict.values (flow_index s')))
       /\ (forall g, In g (Dict.values (flow_index s')) ->
             (keep g = true
              <-> ~ In g (Result.direct_results r)
                  /\ shares_system (Result.direct_results r) g))
       /\ map Flow.id (Dict.values (flow_index s'))
          = to_set (map Flow.id (Store.data_flows example_store))
       /\ (forall g, In g (Dict.values (flow_index s')) ->
             exists g0, In g0 (Store.data_flows example_store) /\ same_fields g g0)
       /\ (forall d, In d (Result.direct_results r) ->
             In d (Dict.values (flow_index s')))
       /\ (forall g, In g (Result.related_flows r) -> ~ In g (Result.direct_results r))
       /\ (forall g, In g (Result.related_flows r) ->
             shares_system (Result.direct_results r) g)
       /\ List.length (Result.related_flows r) <= 10.
Proof.
  split; [apply Float64.serving_init|].
  apply (related_flows_expansion binary64 fuzz_ratio example_store (init example_store)
           "export" default_max_results).
  apply Float64.serving_init.
Defined.

(** ** Instances of the further properties on the example catalog *)

Lemma example_ids_distinct : NoDup (map Flow.id (Store.data_flows example_store)).
Proof.
  cbn. repeat constructor; cbn; intuition discriminate.
Qed.

Lemma served_example_serving : serving fuzz_ratio example_store served_example.
Proof.
  unfold served_example.
  destruct (search fuzz_ratio (init example_store) "export" default_max_results)
    as [[r s']|] eqn:E; [|apply serving_init].
  exact (serving_search fuzz_ratio example_store (init example_store)
           "export" default_max_results r s' (serving_init _ _) E).
Qed.

Lemma entity_pass_credit_witness :
  serving fuzz_ratio example_store (init example_store)
  /\ NoDup (map Flow.id (Store.data_flows example_store))
  /\ In example_record (Store.data_flows example_store)
  /\ Dict.keys zero_scores = Dict.keys (flow_index (init example_store))
  /\ exists scores',
       _search_with_entities (init example_store)
         (_extract_entities (init example_store) "von grid") zero_scores
       = Some scores'
       /\ (score_of scores' "R1" == 2)%Q.
Proof.
  split; [apply serving_init|]. split; [apply example_ids_distinct|].
  split; [now left|]. split; [reflexivity|].
  destruct (entity_pass_credit fuzz_ratio example_store (init example_store)
              (_extract_entities (init example_store) "von grid") zero_scores
              example_record (serving_init _ _) example_ids_distinct
              (or_introl eq_refl) eq_refl)
    as (scores' & Hrun & Hscore & _).
  exists scores'. split; [exact Hrun|].
  change (Flow.id example_record) with "R1"%string in Hscore.
  rewrite Hscore. vm_compute. reflexivity.
Defined.

Lemma fulltext_pass_credit_witness :
  serving fuzz_ratio example_store (init example_store)
  /\ NoDup (map Flow.id (Store.data_flows example_store))
  /\ In example_record (Store.data_flows example_store)
  /\ Dict.keys zero_scores = Dict.keys (flow_index (init example_store))
  /\ exists scores',
       _fulltext_search (init example_store) ["export"; "meldung"; "export"]%string
         zero_scores = Some scores'
       /\ (score_of scores' "R1" == 2.7)%Q.
Proof.
  split; [apply serving_init|]. split; [apply example_ids_distinct|].
  split; [now left|]. split; [reflexivity|].
  destruct (fulltext_pass_credit fuzz_ratio example_store (init example_store)
              ["export"; "meldung"; "export"]%string zero_scores
              example_record (serving_init _ _) example_ids_distinct
              (or_introl eq_refl) eq_refl)
    as (scores' & Hrun & Hscore).
  exists scores'. split; [exact Hrun|].
  change (Flow.id example_record) with "R1"%string in Hscore.
  rewrite Hscore. vm_compute. reflexivity.
Defined.

Lemma pattern_pass_needs_keywords_witness :
  contains "von" (lower "Export an MIRA") && contains "nach" (lower "Export an MIRA")
  = false
  /\ contains "from" (lower "Export an MIRA") && contains "to" (lower "Export an MIRA")
     = false
  /\ contains "zwischen" (lower "Export an MIRA")
     && contains "und" (lower "Export an MIRA") = false
  /\ contains "between" (lower "Export an MIRA")
     && contains "and" (lower "Export an MIRA") = false
  /\ _pattern_based_search fuzz_ratio (init example_store) "Export an MIRA" zero_scores
     = Some zero_scores.
Proof.
  split; [reflexivity|]. split; [reflexivity|]. split; [reflexivity|].
  split; [reflexivity|].
  apply (pattern_pass_needs_keywords fuzz_ratio (init example_store)
           "Export an MIRA" zero_scores); reflexivity.
Defined.

Lemma search_frame_witness :
  serving fuzz_ratio example_store served_example
  /\ exists r s',
       search fuzz_ratio served_example "allokation" default_max_results = Some (r, s')
       /\ s' = with_flows served_example (flow_index s')
       /\ Dict.keys (flow_index s') = Dict.keys (flow_index served_example)
       /\ NoDup (map Flow.id (Result.direct_results r))
       /\ (forall d, In d (Result.direct_results r) ->
             Dict.get (Flow.id d) (flow_index s') = Some d
             /\ exists flow, Dict.get (Flow.id d) (flow_index served_example) = Some flow
                             /\ same_fields d flow)
       /\ (forall k, ~ In k (map Flow.id (Result.direct_results r)) ->
             Dict.get k (flow_index s') = Dict.get k (flow_index served_example)).
Proof.
  split; [apply served_example_serving|].
  destruct (search fuzz_ratio served_example "allokation" default_max_results)
    as [[r s']|] eqn:E; [|vm_compute in E; discriminate E].
  exists r, s'. split; [reflexivity|].
  exact (search_frame fuzz_ratio example_store served_example s' "allokation"
           default_max_results r served_example_serving E).
Defined.

Lemma search_history_independent_witness :
  serving fuzz_ratio example_store served_example
  /\ flow_index served_example <> flow_index (init example_store)
  /\ exists r s' r0 s0',
       search fuzz_ratio served_example "nominierung" default_max_results
       = Some (r, s')
       /\ search fuzz_ratio (init example_store) "nominierung" default_max_results
          = Some (r0, s0')
       /\ Result.direct_results r = Result.direct_results r0
       /\ Result.matching_systems r = Result.matching_systems r0
       /\ Result.query_entities r = Result.query_entities r0
       /\ Result.natural_response r = Result.natural_response r0
       /\ Forall2 same_fields (Result.related_flows r) (Result.related_flows r0).
Proof.
  split; [apply served_example_serving|]. split; [vm_compute; discriminate|].
  exact (search_history_independent fuzz_ratio example_store served_example
           "nominierung" default_max_results served_example_serving).
Defined.

Lemma get_data_flow_agrees_witness :
  NoDup (map Flow.id (Store.data_flows example_store))
  /\ Main.get_data_flow (Store.data_flows example_store) "R2"
     = match Dict.get "R2" (flow_index (init example_store)) with
       | Some flow => inr flow
       | None => inl Main.NotFound
       end.
Proof.
  split; [apply example_ids_distinct|].
  exact (get_data_flow_agrees example_store "R2" example_ids_distinct).
Defined.

Lemma direct_result_score_floor_witness :
  serving fuzz_ratio example_store (init example_store)
  /\ exists r s',
       search fuzz_ratio (init example_store) "meldung" default_max_results
       = Some (r, s')
       /\ (forall scores f,
             flow_scores fuzz_ratio (init example_store) (lower "meldung")
             = Some scores ->
             (score_of scores f == 0 \/ 0.7 <= score_of scores f)%Q)
       /\ (forall d, In d (Result.direct_results r) ->
             exists q, Flow.search_score d = Some q /\ (0.7 <= q)%Q).
Proof.
  split; [apply serving_init|].
  destruct (search fuzz_ratio (init example_store) "meldung" default_max_results)
    as [[r s']|] eqn:E; [|vm_compute in E; discriminate E].
  exists r, s'. split; [reflexivity|].
  exact (direct_result_score_floor fuzz_ratio example_store (init example_store) s'
           "meldung" default_max_results r (serving_init _ _) E).
Defined.

Lemma search_zero_limit_witness :
  serving fuzz_ratio example_store (init example_store)
  /\ exists r,
       search fuzz_ratio (init example_store) "Export" 0
       = Some (r, init example_store)
       /\ Result.direct_results r = []
       /\ Result.related_flows r = []
       /\ Result.matching_systems r = []
       /\ Result.natural_response r = nothing_found (lower "Export").
Proof.
  split; [apply serving_init|].
  exact (search_zero_limit fuzz_ratio example_store (init example_store) "Export"
           (serving_init _ _)).
Defined.

Lemma template_direction_witness :
  (Re.search (Re.pattern "von" false "nach") (lower "Von GRID nach MIRA")
   = Some ["grid"; "mira"]%string
   \/ Re.search (Re.pattern "from" false "to") (lower "Von GRID nach MIRA")
      = Some ["grid"; "mira"]%string)
  /\ Entities.direction (_extract_entities (init example_store) "Von GRID nach MIRA")
     = Some DirFrom
  /\ (forall query',
        Entities.direction (_extract_entities (init example_store) query') = Some DirTo ->
        contains "von" (lower query') = false
        /\ contains "from" (lower query') = false).
Proof.
  split; [left; vm_compute; reflexivity|].
  apply (template_direction (init example_store) "Von GRID nach MIRA"
           ["grid"; "mira"]%string).
  left. vm_compute. reflexivity.
Defined.
